(** * Multi-player Elo rating engine and match-result validator

    A shallow embedding of the rating library of the scorekeeping
    application (the module imported as [@/lib/elo]): the functions
    [calculateExpectedScore], [calculateActualScore],
    [calculateMultiPlayerElo] and [validateMatchResults].

    Numbers.  The ratings, the K-factor and every intermediate score are
    real numbers ([R]); the arithmetic of the source is read as exact
    arithmetic on the reals, [Math.pow] as the real power, [Math.round]
    as the nearest integer with halves going up, [Math.max] as the
    maximum.  Finishing positions and the counters of the validator are
    integers ([Z]); the opponent counter of the engine is a natural
    number.  The source computes in binary floating point, where a
    quotient such as 2/3 is not exact and a product that is 2.5 here may
    come out just below 2.5 there; the statements on rounded values are
    therefore made with the room this needs (a rounding may fall on
    either side of a half) and within magnitudes, up to [10 ^ 15], where
    the numbers of the source carry the integers and the halves
    exactly.

    Strings.  Player identifiers and names are [string]s.  [trim] removes
    the ASCII white space and line terminators at both ends,
    [toLowerCase] maps the letters [A]-[Z] and every other character is
    kept as it is, and the length of a string is its number of
    characters: this is what the source does on strings of ASCII
    characters ([isAscii]), and not beyond (the source also trims the
    white space outside ASCII and puts the letters outside ASCII in
    lower case).  The statements that depend on it are made for such
    strings.

    The rest of the application.  After the rating library come
    [calculateWinRate] and [getRatingTier] of the same module, the
    storage manager ([@/lib/storage]) over the four stored collections,
    the leaderboard, the submission handlers of the match form and of
    the game form, and the utilities [calculatePercentage] and
    [paginateArray].  What [localStorage] holds is a record of the four
    collections; [generateId()] and [new Date()] are sequences of ids
    and of dates, read through two counters; an exception that the
    source may raise by dereferencing [undefined] is a result [None]. *)

From Stdlib Require Import Reals Lra Lia ZArith List String Ascii Sorted.
From stdpp Require Import gmap strings.
Import ListNotations.

(* ================================================================= *)
(** ** Built-in operations used by the source *)

(** [Math.pow(x, y)] for a positive base. *)
Definition Math_pow (x y : R) : R := Rpower x y.

(** [Math.round(x)]: the integer nearest to [x], a half going towards
    plus infinity, that is, the floor of [x + 1/2]. *)
Definition Math_round (x : R) : R := IZR (Int_part (x + / 2)).

(** [Math.max(x, y)]. *)
Definition Math_max (x y : R) : R := Rmax x y.

(** [Math.min(...positions)]: [Infinity] for no argument. *)
Inductive MinResult := PosInfinity | MinOf (z : Z).

(** [Math.max(...positions)]: [-Infinity] for no argument. *)
Inductive MaxResult := NegInfinity | MaxOf (z : Z).

Definition Math_min_spread (positions : list Z) : MinResult :=
  fold_left
    (fun acc pos => match acc with
                    | PosInfinity => MinOf pos
                    | MinOf z => MinOf (Z.min z pos)
                    end)
    positions PosInfinity.

Definition Math_max_spread (positions : list Z) : MaxResult :=
  fold_left
    (fun acc pos => match acc with
                    | NegInfinity => MaxOf pos
                    | MaxOf z => MaxOf (Z.max z pos)
                    end)
    positions NegInfinity.

(** White space and line terminators removed by [String.prototype.trim],
    among the characters of ASCII. *)
Definition isWhiteSpace (c : ascii) : bool :=
  match nat_of_ascii c with
  | 9%nat | 10%nat | 11%nat | 12%nat | 13%nat | 32%nat => true
  | _ => false
  end.

Fixpoint trimStart (s : string) : string :=
  match s with
  | EmptyString => EmptyString
  | String c rest => if isWhiteSpace c then trimStart rest else s
  end.

Definition trimEnd (s : string) : string :=
  String.rev (trimStart (String.rev s)).

(** [s.trim()], for a string of ASCII characters. *)
Definition trim (s : string) : string := trimEnd (trimStart s).

Definition lowerChar (c : ascii) : ascii :=
  let n := nat_of_ascii c in
  if (65 <=? n)%nat && (n <=? 90)%nat then ascii_of_nat (n + 32) else c.

(** [s.toLowerCase()], for a string of ASCII characters. *)
Fixpoint toLowerCase (s : string) : string :=
  match s with
  | EmptyString => EmptyString
  | String c rest => String (lowerChar c) (toLowerCase rest)
  end.

(* ================================================================= *)
(** ** Data model *)

(** An element of the [playerResults] argument of the engine. *)
Module Participant.
Record t := mk {
  playerId : string;
  position : Z;
  currentRating : R
}.
End Participant.

Record EloCalculationConfig := {
  kFactor : R;
  defaultRating : R
}.

Module Result.
(** [EloCalculationResult] *)
Record t := mk {
  playerId : string;
  previousRating : R;
  newRating : R;
  ratingChange : R
}.
End Result.

(** An element of the [playerResults] argument of the validator. *)
Module Entry.
Record t := mk {
  playerName : string;
  position : Z
}.
End Entry.

Record ValidationResult := {
  isValid : bool;
  errors : list string
}.

(* ================================================================= *)
(** ** Rating engine *)

Section Engine.
Local Open Scope R_scope.

Definition calculateExpectedScore (ratingA ratingB : R) : R :=
  1 / (1 + Math_pow 10 ((ratingB - ratingA) / 400)).

Definition calculateActualScore (playerPosition opponentPosition : Z) : R :=
  if (playerPosition <? opponentPosition)%Z then 1
  else if (playerPosition =? opponentPosition)%Z then 0.5
  else 0.

(** The three accumulators of the inner loop. *)
Record Totals := {
  totalExpectedScore : R;
  totalActualScore : R;
  totalOpponents : nat
}.

Definition noTotals : Totals :=
  {| totalExpectedScore := 0; totalActualScore := 0; totalOpponents := 0 |}.

(** One iteration of the inner loop: [continue] on the player itself,
    otherwise the three accumulators move. *)
Definition compareWith (player : Participant.t) (acc : Totals)
    (opponent : Participant.t) : Totals :=
  if String.eqb (Participant.playerId player) (Participant.playerId opponent)
  then acc
  else
    let expectedScore :=
      calculateExpectedScore (Participant.currentRating player)
                             (Participant.currentRating opponent) in
    let actualScore :=
      calculateActualScore (Participant.position player)
                           (Participant.position opponent) in
    {| totalExpectedScore := totalExpectedScore acc + expectedScore;
       totalActualScore := totalActualScore acc + actualScore;
       totalOpponents := S (totalOpponents acc) |}.

(** The inner loop over all of [playerResults]. *)
Definition opponentTotals (playerResults : list Participant.t)
    (player : Participant.t) : Totals :=
  fold_left (compareWith player) playerResults noTotals.

(** The local constant [ratingChange] of the source, before any
    rounding: [kFactor * (avgActualScore - avgExpectedScore)], in exact
    arithmetic (the number of the source may differ from it in its last
    place). *)
Definition unroundedChange (config : EloCalculationConfig) (t : Totals) : R :=
  let avgExpectedScore := totalExpectedScore t / INR (totalOpponents t) in
  let avgActualScore := totalActualScore t / INR (totalOpponents t) in
  kFactor config * (avgActualScore - avgExpectedScore).

(** The body of the outer loop: the record pushed for [player]; the
    sum of the rating and the change is exact here. *)
Definition ratePlayer (config : EloCalculationConfig)
    (playerResults : list Participant.t) (player : Participant.t) : Result.t :=
  let t := opponentTotals playerResults player in
  if (totalOpponents t =? 0)%nat then
    {| Result.playerId := Participant.playerId player;
       Result.previousRating := Participant.currentRating player;
       Result.newRating := Participant.currentRating player;
       Result.ratingChange := 0 |}
  else
    let ratingChange := unroundedChange config t in
    let newRating := Math_round (Participant.currentRating player + ratingChange) in
    {| Result.playerId := Participant.playerId player;
       Result.previousRating := Participant.currentRating player;
       Result.newRating := Math_max 0 newRating;
       Result.ratingChange := Math_round ratingChange |}.

(** The outer loop, pushing one record per player onto [results]. *)
Definition calculateMultiPlayerElo (playerResults : list Participant.t)
    (config : EloCalculationConfig) : list Result.t :=
  fold_left
    (fun results player => results ++ [ratePlayer config playerResults player])
    playerResults [].

End Engine.

(* ================================================================= *)
(** ** Result validator *)

Definition errMinPlayers : string := "至少需要2名玩家参与比赛".
Definition errDuplicateName : string := "玩家名称不能重复".
Definition errEmptyName : string := "玩家名称不能为空".
Definition errPositionRange : string := "排名必须在1到参赛人数之间".
Definition errStartFromOne : string := "排名必须从1开始".
Definition errNotContiguous : string := "排名必须连续，不能跳跃".

Section Validator.
Local Open Scope Z_scope.

(** [if (cond) errors.push(msg)] *)
Definition pushIf (cond : bool) (msg : string) (errors : list string)
    : list string :=
  if cond then errors ++ [msg] else errors.

(** [positionCounts.get(pos) || 0] *)
Definition getCount (positionCounts : gmap Z Z) (pos : Z) : Z :=
  default 0 (positionCounts !! pos).

(** The [forEach] that fills [positionCounts]. *)
Definition countPositions (positions : list Z) : gmap Z Z :=
  fold_left
    (fun counts pos => <[pos := getCount counts pos + 1]> counts)
    positions ∅.

(** The contiguity loop [for (pos = 1; pos <= maxPosition; pos++)],
    with [remaining] iterations left to run from [pos]; the result says
    whether the loop pushed its error (and left by [break]). *)
Fixpoint contiguityLoop (positionCounts : gmap Z Z) (remaining : nat)
    (pos expectedNextPosition : Z) : bool :=
  match remaining with
  | O => false
  | S remaining' =>
      let count := getCount positionCounts pos in
      if 0 <? count then
        if negb (pos =? expectedNextPosition) then true
        else contiguityLoop positionCounts remaining' (pos + 1) (pos + count)
      else contiguityLoop positionCounts remaining' (pos + 1) expectedNextPosition
  end.

(** Number of iterations of the loop: the positions [1 .. maxPosition]. *)
Definition iterations (maxPosition : MaxResult) : nat :=
  match maxPosition with
  | NegInfinity => O
  | MaxOf z => Z.to_nat z
  end.

Definition hasGap (positions : list Z) : bool :=
  contiguityLoop (countPositions positions)
                 (iterations (Math_max_spread positions)) 1 1.

Definition normalizedNames (playerResults : list Entry.t) : list string :=
  map (fun p => toLowerCase (trim (Entry.playerName p))) playerResults.

Definition hasDuplicateName (playerResults : list Entry.t) : bool :=
  let playerNames := normalizedNames playerResults in
  let uniqueNames : gset string := list_to_set playerNames in
  negb (length playerNames =? size uniqueNames)%nat.

Definition hasEmptyName (playerResults : list Entry.t) : bool :=
  let emptyNames :=
    List.filter (fun p => String.eqb (trim (Entry.playerName p)) "")
                playerResults in
  (0 <? length emptyNames)%nat.

Definition validPositions (playerResults : list Entry.t) : bool :=
  let positions := map Entry.position playerResults in
  forallb (fun pos => (1 <=? pos) && (pos <=? Z.of_nat (length playerResults)))
          positions.

Definition startsElsewhere (playerResults : list Entry.t) : bool :=
  match Math_min_spread (map Entry.position playerResults) with
  | MinOf 1 => false
  | _ => true
  end.

(** The checks in the order of the source, each pushing onto the one
    [errors] array.  ([sortedPositions] of the source is computed and
    never read.) *)
Definition validateMatchResults (playerResults : list Entry.t)
    : ValidationResult :=
  let errors : list string := [] in
  let errors := pushIf (length playerResults <? 2)%nat errMinPlayers errors in
  let errors := pushIf (hasDuplicateName playerResults) errDuplicateName errors in
  let errors := pushIf (hasEmptyName playerResults) errEmptyName errors in
  let errors := pushIf (negb (validPositions playerResults)) errPositionRange errors in
  let errors := pushIf (startsElsewhere playerResults) errStartFromOne errors in
  let errors :=
    pushIf (hasGap (map Entry.position playerResults)) errNotContiguous errors in
  {| isValid := (length errors =? 0)%nat; errors := errors |}.

End Validator.

(* ================================================================= *)
(** ** Notions used to state the properties *)

(** Sum of a list of reals. *)
Definition sumR (l : list R) : R := fold_right Rplus 0%R l.

(** [q] is an opponent of [player]: the inner loop does not skip it. *)
Definition isOpponent (player q : Participant.t) : bool :=
  negb (String.eqb (Participant.playerId player) (Participant.playerId q)).

Definition opponentsOf (playerResults : list Participant.t)
    (player : Participant.t) : list Participant.t :=
  List.filter (isOpponent player) playerResults.

Definition expectedAgainst (player q : Participant.t) : R :=
  calculateExpectedScore (Participant.currentRating player)
                         (Participant.currentRating q).

Definition actualAgainst (player q : Participant.t) : R :=
  calculateActualScore (Participant.position player) (Participant.position q).

(** The errors reported by one check of the validator taken alone. *)
Definition checkErrors (failed : bool) (msg : string) : list string :=
  if failed then [msg] else [].

(** Number of entries ranked [p]. *)
Definition occurrences (positions : list Z) (p : Z) : Z :=
  Z.of_nat (count_occ Z.eq_dec positions p).

(** Number of entries ranked from [lo] up to, and not including, [hi]. *)
Definition rankedWithin (positions : list Z) (lo hi : Z) : Z :=
  Z.of_nat (length (List.filter (fun q => (lo <=? q)%Z && (q <? hi)%Z) positions)).

(** The comparison key of a player name in the duplicate check. *)
Definition normalized (name : string) : string := toLowerCase (trim name).

(** The strings on which [trim], [toLowerCase] and the length are
    those of the source: characters of ASCII only. *)
Fixpoint isAscii (s : string) : bool :=
  match s with
  | EmptyString => true
  | String c rest => (nat_of_ascii c <? 128)%nat && isAscii rest
  end.

(* ================================================================= *)
(** ** Sample matches *)

Definition config32 : EloCalculationConfig :=
  {| kFactor := 32; defaultRating := 1500 |}.

Definition config1 : EloCalculationConfig :=
  {| kFactor := 1; defaultRating := 1500 |}.

(** Two players at 1500, A ahead of B. *)
Definition evenMatch : list Participant.t :=
  [ Participant.mk "A" 1 1500; Participant.mk "B" 2 1500 ].

(** Three players at 1500, all first. *)
Definition threeWayTie : list Participant.t :=
  [ Participant.mk "A" 1 1500; Participant.mk "B" 1 1500;
    Participant.mk "C" 1 1500 ].

(** Two players tied for first, 400 points apart. *)
Definition unevenTie : list Participant.t :=
  [ Participant.mk "A" 1 1500; Participant.mk "B" 1 1900 ].

(** Two players at 10, A behind B. *)
Definition lowRatedMatch : list Participant.t :=
  [ Participant.mk "A" 2 10; Participant.mk "B" 1 10 ].

(** Two players at 1500.5, A ahead of B. *)
Definition fractionalMatch : list Participant.t :=
  [ Participant.mk "A" 1 1500.5; Participant.mk "B" 2 1500.5 ].

(** A single player below zero. *)
Definition loneNegative : list Participant.t :=
  [ Participant.mk "A" 1 (-5) ].


(** One entry with a blank name, ranked 3. *)
Definition blankThird : list Entry.t := [ Entry.mk "  " 3 ].

(* ================================================================= *)
(** ** Win rate and rating tiers *)

Section WinRateAndTiers.
Local Open Scope R_scope.

(** [calculateWinRate(wins, losses, draws)], in exact arithmetic: at a
    half the number of the source may be rounded the other way. *)
Definition calculateWinRate (wins losses draws : R) : R :=
  let totalGames := wins + losses + draws in
  if Req_dec_T totalGames 0 then 0
  else
    let totalPoints := wins + draws * 0.5 in
    Math_round (totalPoints / totalGames * 100).

End WinRateAndTiers.

Module Tier.
Record t := mk {
  name : string;
  color : string;
  minRating : R
}.
End Tier.

Definition tiers : list Tier.t :=
  [ Tier.mk "青铜" "text-amber-600" 0;
    Tier.mk "白银" "text-gray-500" 1200;
    Tier.mk "黄金" "text-yellow-500" 1400;
    Tier.mk "铂金" "text-cyan-500" 1600;
    Tier.mk "钻石" "text-blue-500" 1800;
    Tier.mk "大师" "text-purple-500" 2000;
    Tier.mk "宗师" "text-red-500" 2200 ].

(** The loop [for (const tier of tiers)]: the tier is taken while the
    rating reaches its [minRating], and the loop is left by [break] at
    the first tier it does not reach. *)
Fixpoint tierLoop (rating : R) (currentTier : Tier.t) (remaining : list Tier.t)
    : Tier.t :=
  match remaining with
  | [] => currentTier
  | tier :: rest =>
      if Rle_dec (Tier.minRating tier) rating
      then tierLoop rating tier rest
      else currentTier
  end.

(** [currentTier] starts at [tiers[0]]. *)
Definition getRatingTier (rating : R) : Tier.t :=
  match tiers with
  | [] => Tier.mk "" "" 0
  | first :: _ => tierLoop rating first tiers
  end.

(* ================================================================= *)
(** ** Wins, losses and draws of a submitted match *)

Module Outcomes.
Record t := mk {
  wins : Z;
  losses : Z;
  draws : Z
}.
End Outcomes.

(** One iteration of the loop over [currentRatings] in the submission
    handler: [continue] on the player itself, otherwise one of the
    three counters goes up. *)
Definition tallyAgainst (playerId : string) (position : Z) (acc : Outcomes.t)
    (otherResult : Participant.t) : Outcomes.t :=
  if String.eqb (Participant.playerId otherResult) playerId then acc
  else if (position <? Participant.position otherResult)%Z then
    Outcomes.mk (Outcomes.wins acc + 1) (Outcomes.losses acc) (Outcomes.draws acc)
  else if (position >? Participant.position otherResult)%Z then
    Outcomes.mk (Outcomes.wins acc) (Outcomes.losses acc + 1) (Outcomes.draws acc)
  else
    Outcomes.mk (Outcomes.wins acc) (Outcomes.losses acc) (Outcomes.draws acc + 1).

Definition tallyOutcomes (currentRatings : list Participant.t)
    (playerId : string) (position : Z) : Outcomes.t :=
  fold_left (tallyAgainst playerId position) currentRatings (Outcomes.mk 0 0 0).

(** [currentRatings.find(r => r.playerId === playerId)]. *)
Definition findParticipant (currentRatings : list Participant.t)
    (playerId : string) : option Participant.t :=
  List.find (fun r => String.eqb (Participant.playerId r) playerId) currentRatings.

(** The counters of the player [playerId], ranked as its entry of
    [currentRatings] says; nothing when it has no entry (the source
    dereferences the result of [find]). *)
Definition outcomesOf (currentRatings : list Participant.t)
    (playerId : string) : option Outcomes.t :=
  match findParticipant currentRatings playerId with
  | Some r => Some (tallyOutcomes currentRatings playerId (Participant.position r))
  | None => None
  end.

(** Sum of a list of integers. *)
Definition sumZ (l : list Z) : Z := fold_right Z.add 0%Z l.

(* ================================================================= *)
(** ** The stored collections *)

(** A [Date] is an instant read from the clock. *)
Definition Date := Z.

Module Player.
Record t := mk {
  id : string;
  name : string;
  createdAt : Date
}.
End Player.

Module Game.
Record t := mk {
  id : string;
  name : string;
  description : option string;
  kFactor : R;
  defaultRating : R;
  createdAt : Date;
  updatedAt : Date
}.
End Game.

Module EloRating.
Record t := mk {
  playerId : string;
  gameId : string;
  rating : R;
  gamesPlayed : Z;
  wins : Z;
  losses : Z;
  draws : Z;
  lastUpdated : Date
}.
End EloRating.

Module MatchPlayerResult.
Record t := mk {
  playerId : string;
  playerName : string;
  position : Z;
  previousRating : R;
  newRating : R;
  ratingChange : R
}.
End MatchPlayerResult.

Module Match.
Record t := mk {
  id : string;
  gameId : string;
  gameName : string;
  playerResults : list MatchPlayerResult.t;
  createdAt : Date;
  notes : option string
}.
End Match.

(** [Partial<EloRating>]: the fields an update carries. *)
Module RatingUpdates.
Record t := mk {
  playerId : option string;
  gameId : option string;
  rating : option R;
  gamesPlayed : option Z;
  wins : option Z;
  losses : option Z;
  draws : option Z;
  lastUpdated : option Date
}.
End RatingUpdates.

(** What [localStorage] holds under the four keys of the application,
    parsed; [None] for a key that is not there.  Writing is taken to
    succeed and reading to give back what was written. *)
Record Storage := {
  games : option (list Game.t);
  players : option (list Player.t);
  matches : option (list Match.t);
  eloRatings : option (list EloRating.t)
}.

Definition emptyStorage : Storage :=
  {| games := None; players := None; matches := None; eloRatings := None |}.

Section StorageManager.

(** [getItem(key, [])] *)
Definition getGames (st : Storage) : list Game.t := default [] (games st).
Definition getPlayers (st : Storage) : list Player.t := default [] (players st).
Definition getMatches (st : Storage) : list Match.t := default [] (matches st).
Definition getEloRatings (st : Storage) : list EloRating.t :=
  default [] (eloRatings st).

(** [setItem(key, value)] *)
Definition saveGames (value : list Game.t) (st : Storage) : Storage :=
  {| games := Some value; players := players st;
     matches := matches st; eloRatings := eloRatings st |}.
Definition savePlayers (value : list Player.t) (st : Storage) : Storage :=
  {| games := games st; players := Some value;
     matches := matches st; eloRatings := eloRatings st |}.
Definition saveMatches (value : list Match.t) (st : Storage) : Storage :=
  {| games := games st; players := players st;
     matches := Some value; eloRatings := eloRatings st |}.
Definition saveEloRatings (value : list EloRating.t) (st : Storage) : Storage :=
  {| games := games st; players := players st;
     matches := matches st; eloRatings := Some value |}.

(** [players.find(p => p.name.toLowerCase() === name.toLowerCase())] *)
Definition findPlayerByName (players : list Player.t) (name : string)
    : option Player.t :=
  List.find (fun p => String.eqb (toLowerCase (Player.name p)) (toLowerCase name))
            players.

(** [addPlayer(name)], [generateId()] and [new Date()] giving [newId]
    and [now] when they are called. *)
Definition addPlayer (newId : string) (now : Date) (name : string) (st : Storage)
    : Player.t * Storage :=
  let players := getPlayers st in
  match findPlayerByName players name with
  | Some existingPlayer => (existingPlayer, st)
  | None =>
      let newPlayer := Player.mk newId (trim name) now in
      (newPlayer, savePlayers (players ++ [newPlayer]) st)
  end.

Definition getPlayerByName (name : string) (st : Storage) : option Player.t :=
  findPlayerByName (getPlayers st) name.

Definition getMatchesByGame (gameId : string) (st : Storage) : list Match.t :=
  List.filter (fun m => String.eqb (Match.gameId m) gameId) (getMatches st).

Definition deleteMatchesByGame (gameId : string) (st : Storage) : Storage :=
  let matches := getMatches st in
  let filteredMatches :=
    List.filter (fun m => negb (String.eqb (Match.gameId m) gameId)) matches in
  saveMatches filteredMatches st.

(** [addMatch(match)]: the argument carries every field but [id] and
    [createdAt]. *)
Definition addMatch (newId : string) (now : Date)
    (gameId gameName : string) (playerResults : list MatchPlayerResult.t)
    (notes : option string) (st : Storage) : Match.t * Storage :=
  let matches := getMatches st in
  let newMatch := Match.mk newId gameId gameName playerResults now notes in
  (newMatch, saveMatches (matches ++ [newMatch]) st).

Definition sameKey (playerId gameId : string) (r : EloRating.t) : bool :=
  String.eqb (EloRating.playerId r) playerId
  && String.eqb (EloRating.gameId r) gameId.

Definition getPlayerRating (playerId gameId : string) (st : Storage)
    : option EloRating.t :=
  List.find (sameKey playerId gameId) (getEloRatings st).

Definition getRatingsByGame (gameId : string) (st : Storage) : list EloRating.t :=
  List.filter (fun r => String.eqb (EloRating.gameId r) gameId) (getEloRatings st).

Definition deleteRatingsByGame (gameId : string) (st : Storage) : Storage :=
  let ratings := getEloRatings st in
  let filteredRatings :=
    List.filter (fun r => negb (String.eqb (EloRating.gameId r) gameId)) ratings in
  saveEloRatings filteredRatings st.

(** [{ ...base, ...updates }] *)
Definition spreadUpdates (base : EloRating.t) (updates : RatingUpdates.t)
    : EloRating.t :=
  {| EloRating.playerId :=
       default (EloRating.playerId base) (RatingUpdates.playerId updates);
     EloRating.gameId :=
       default (EloRating.gameId base) (RatingUpdates.gameId updates);
     EloRating.rating :=
       default (EloRating.rating base) (RatingUpdates.rating updates);
     EloRating.gamesPlayed :=
       default (EloRating.gamesPlayed base) (RatingUpdates.gamesPlayed updates);
     EloRating.wins := default (EloRating.wins base) (RatingUpdates.wins updates);
     EloRating.losses :=
       default (EloRating.losses base) (RatingUpdates.losses updates);
     EloRating.draws := default (EloRating.draws base) (RatingUpdates.draws updates);
     EloRating.lastUpdated :=
       default (EloRating.lastUpdated base) (RatingUpdates.lastUpdated updates) |}.

Definition withLastUpdated (now : Date) (r : EloRating.t) : EloRating.t :=
  {| EloRating.playerId := EloRating.playerId r;
     EloRating.gameId := EloRating.gameId r;
     EloRating.rating := EloRating.rating r;
     EloRating.gamesPlayed := EloRating.gamesPlayed r;
     EloRating.wins := EloRating.wins r;
     EloRating.losses := EloRating.losses r;
     EloRating.draws := EloRating.draws r;
     EloRating.lastUpdated := now |}.

(** [ratings.findIndex(pred)]: [None] for -1. *)
Fixpoint findIndex {A : Type} (pred : A -> bool) (l : list A) : option nat :=
  match l with
  | [] => None
  | x :: rest => if pred x then Some O else option_map S (findIndex pred rest)
  end.

(** [x || fallback] on numbers: 0 is falsy. *)
Definition orElse (x fallback : R) : R :=
  if Req_dec_T x 0 then fallback else x.

(** [game?.defaultRating || 1500] *)
Definition startingRating (gameId : string) (st : Storage) : R :=
  match List.find (fun g => String.eqb (Game.id g) gameId) (getGames st) with
  | Some game => orElse (Game.defaultRating game) 1500
  | None => 1500%R
  end.

(** [updatePlayerRating(playerId, gameId, updates)]; the result is what
    the final [find] gives. *)
Definition updatePlayerRating (now : Date) (playerId gameId : string)
    (updates : RatingUpdates.t) (st : Storage) : option EloRating.t * Storage :=
  let ratings := getEloRatings st in
  let ratings :=
    match findIndex (sameKey playerId gameId) ratings with
    | Some existingRatingIndex =>
        match ratings !! existingRatingIndex with
        | Some existing =>
            <[existingRatingIndex :=
                withLastUpdated now (spreadUpdates existing updates)]> ratings
        | None => ratings
        end
    | None =>
        let newRating :=
          spreadUpdates
            (EloRating.mk playerId gameId (startingRating gameId st) 0 0 0 0 now)
            updates in
        ratings ++ [newRating]
    end in
  (List.find (sameKey playerId gameId) ratings, saveEloRatings ratings st).

(** [deleteGame(gameId)] *)
Definition deleteGame (gameId : string) (st : Storage) : bool * Storage :=
  let games := getGames st in
  let filteredGames :=
    List.filter (fun g => negb (String.eqb (Game.id g) gameId)) games in
  if (length filteredGames =? length games)%nat then (false, st)
  else
    let st := saveGames filteredGames st in
    let st := deleteMatchesByGame gameId st in
    let st := deleteRatingsByGame gameId st in
    (true, st).

End StorageManager.

(** The key of a stored rating: the player and the game. *)
Definition ratingKey (r : EloRating.t) : string * string :=
  (EloRating.playerId r, EloRating.gameId r).

(** A store with one game, two players and their ratings after one
    match. *)
Definition sampleStorage : Storage :=
  {| games := Some [ Game.mk "g1" "Chess" None 32%R 1500%R 1%Z 1%Z ];
     players := Some [ Player.mk "p1" "Ann" 2%Z; Player.mk "p2" "Bob" 3%Z ];
     matches :=
       Some [ Match.mk "m1" "g1" "Chess"
                [ MatchPlayerResult.mk "p1" "Ann" 1%Z 1500%R 1516%R 16%R;
                  MatchPlayerResult.mk "p2" "Bob" 2%Z 1500%R 1484%R (-16)%R ]
                4%Z None ];
     eloRatings :=
       Some [ EloRating.mk "p1" "g1" 1516%R 1%Z 1%Z 0%Z 0%Z 4%Z;
              EloRating.mk "p2" "g1" 1484%R 1%Z 0%Z 1%Z 0%Z 4%Z ] |}.

(* ================================================================= *)
(** ** Leaderboard *)

Module LeaderboardEntry.
Record t := mk {
  playerId : string;
  playerName : string;
  rating : R;
  gamesPlayed : Z;
  wins : Z;
  losses : Z;
  draws : Z;
  winRate : R;
  tier : string;
  tierColor : string;
  lastUpdated : Date
}.
End LeaderboardEntry.

(** The callback of [gameRatings.map]: [null] when the player of the
    rating is not stored. *)
Definition leaderboardEntry (players : list Player.t) (rating : EloRating.t)
    : option LeaderboardEntry.t :=
  match List.find (fun p => String.eqb (Player.id p) (EloRating.playerId rating))
                  players with
  | None => None
  | Some player =>
      let winRate :=
        calculateWinRate (IZR (EloRating.wins rating))
                         (IZR (EloRating.losses rating))
                         (IZR (EloRating.draws rating)) in
      let tier := getRatingTier (EloRating.rating rating) in
      Some {| LeaderboardEntry.playerId := Player.id player;
              LeaderboardEntry.playerName := Player.name player;
              LeaderboardEntry.rating := EloRating.rating rating;
              LeaderboardEntry.gamesPlayed := EloRating.gamesPlayed rating;
              LeaderboardEntry.wins := EloRating.wins rating;
              LeaderboardEntry.losses := EloRating.losses rating;
              LeaderboardEntry.draws := EloRating.draws rating;
              LeaderboardEntry.winRate := winRate;
              LeaderboardEntry.tier := Tier.name tier;
              LeaderboardEntry.tierColor := Tier.color tier;
              LeaderboardEntry.lastUpdated := EloRating.lastUpdated rating |}
  end.

(** [.filter(entry => entry !== null)] *)
Fixpoint keepEntries {A : Type} (l : list (option A)) : list A :=
  match l with
  | [] => []
  | Some x :: rest => x :: keepEntries rest
  | None :: rest => keepEntries rest
  end.

(** [.sort((a, b) => b.rating - a.rating)]: the sort of the language is
    stable, so the result is the entries by descending rating, those
    of equal rating in the order they had; written as an insertion
    sort. *)
Fixpoint insertByRating (e : LeaderboardEntry.t) (sorted : list LeaderboardEntry.t)
    : list LeaderboardEntry.t :=
  match sorted with
  | [] => [e]
  | x :: rest =>
      if Rle_dec (LeaderboardEntry.rating x) (LeaderboardEntry.rating e)
      then e :: x :: rest
      else x :: insertByRating e rest
  end.

Definition sortByRatingDescending (l : list LeaderboardEntry.t)
    : list LeaderboardEntry.t :=
  fold_right insertByRating [] l.

Definition loadLeaderboard (gameId : string) (st : Storage)
    : list LeaderboardEntry.t :=
  let players := getPlayers st in
  let ratings := getEloRatings st in
  let gameRatings :=
    List.filter (fun rating => String.eqb (EloRating.gameId rating) gameId) ratings in
  sortByRatingDescending
    (keepEntries (map (leaderboardEntry players) gameRatings)).

(* ================================================================= *)
(** ** Submitting a match *)

(** The store together with the number of ids generated and of clock
    readings made so far. *)
Record World := {
  storage : Storage;
  idCalls : nat;
  clockReads : nat
}.

(** What the handler ends with: the validation errors shown, the name
    that is not well formed, no game chosen, an exception caught, or
    the match recorded. *)
Inductive SubmitOutcome :=
| Rejected (errors : list string)
| InvalidPlayerName (playerName : string)
| NoGameSelected
| SubmitFailed
| Submitted (m : Match.t).

(** [x?.field || 0] on a counter. *)
Definition counterOf (field : EloRating.t -> Z) (x : option EloRating.t) : Z :=
  match x with
  | Some r => field r
  | None => 0%Z
  end.

(** [array.map(f)] when [f] may throw: all the results, or nothing. *)
Fixpoint allOrNothing {A : Type} (l : list (option A)) : option (list A) :=
  match l with
  | [] => Some []
  | None :: _ => None
  | Some x :: rest =>
      match allOrNothing rest with
      | Some xs => Some (x :: xs)
      | None => None
      end
  end.

(** [data.notes?.trim() || undefined] *)
Definition submittedNotes (notes : option string) : option string :=
  match notes with
  | Some n => if String.eqb (trim n) "" then None else Some (trim n)
  | None => None
  end.

Section MatchSubmission.

(** The name check of the utilities, the id that the n-th call of
    [generateId] gives and the n-th reading of the clock. *)
Variable isValidPlayerName : string -> bool.
Variable generateId : nat -> string.
Variable clock : nat -> Date.

(** [storage.addPlayer(name)]: an id is generated and the clock is read
    only when the player is new. *)
Definition addPlayerIn (name : string) (w : World) : Player.t * World :=
  let added :=
    addPlayer (generateId (idCalls w)) (clock (clockReads w)) name (storage w) in
  let isNew :=
    match findPlayerByName (getPlayers (storage w)) name with
    | Some _ => false
    | None => true
    end in
  (fst added,
   {| storage := snd added;
      idCalls := if isNew then S (idCalls w) else idCalls w;
      clockReads := if isNew then S (clockReads w) else clockReads w |}).

(** [names.map(name => storage.addPlayer(name))] *)
Fixpoint addPlayers (names : list string) (w : World) : list Player.t * World :=
  match names with
  | [] => ([], w)
  | name :: rest =>
      let (player, w1) := addPlayerIn name w in
      let (players, w2) := addPlayers rest w1 in
      (player :: players, w2)
  end.

(** The callback of [players.map] that builds [currentRatings]; nothing
    when [find] gives [undefined], which the source dereferences. *)
Definition currentRatingOf (game : Game.t) (playerResults : list Entry.t)
    (st : Storage) (player : Player.t) : option Participant.t :=
  let rating := getPlayerRating (Player.id player) (Game.id game) st in
  match List.find
          (fun r => String.eqb (toLowerCase (trim (Entry.playerName r)))
                               (toLowerCase (Player.name player)))
          playerResults with
  | None => None
  | Some own =>
      Some {| Participant.playerId := Player.id player;
              Participant.position := Entry.position own;
              Participant.currentRating :=
                match rating with
                | Some r => orElse (EloRating.rating r) (Game.defaultRating game)
                | None => Game.defaultRating game
                end |}
  end.

(** The updates written for one result of the engine. *)
Definition ratingUpdatesFor (currentRatings : list Participant.t)
    (position : Z) (currentRating : option EloRating.t) (result : Result.t)
    : RatingUpdates.t :=
  let o := tallyOutcomes currentRatings (Result.playerId result) position in
  {| RatingUpdates.playerId := None;
     RatingUpdates.gameId := None;
     RatingUpdates.rating := Some (Result.newRating result);
     RatingUpdates.gamesPlayed :=
       Some (counterOf EloRating.gamesPlayed currentRating + 1)%Z;
     RatingUpdates.wins :=
       Some (counterOf EloRating.wins currentRating + Outcomes.wins o)%Z;
     RatingUpdates.losses :=
       Some (counterOf EloRating.losses currentRating + Outcomes.losses o)%Z;
     RatingUpdates.draws :=
       Some (counterOf EloRating.draws currentRating + Outcomes.draws o)%Z;
     RatingUpdates.lastUpdated := None |}.

(** The body of the loop over [eloResults]; nothing when one of the two
    [find]s gives [undefined]. *)
Definition recordResult (game : Game.t) (players : list Player.t)
    (currentRatings : list Participant.t) (result : Result.t)
    (w : World) (matchPlayerResults : list MatchPlayerResult.t)
    : option (World * list MatchPlayerResult.t) :=
  match List.find (fun p => String.eqb (Player.id p) (Result.playerId result))
                  players with
  | None => None
  | Some player =>
      match findParticipant currentRatings (Result.playerId result) with
      | None => None
      | Some own =>
          let position := Participant.position own in
          let currentRating :=
            getPlayerRating (Result.playerId result) (Game.id game) (storage w) in
          let updated :=
            updatePlayerRating (clock (clockReads w)) (Result.playerId result)
              (Game.id game)
              (ratingUpdatesFor currentRatings position currentRating result)
              (storage w) in
          Some ({| storage := snd updated;
                   idCalls := idCalls w;
                   clockReads := S (clockReads w) |},
                matchPlayerResults ++
                [ {| MatchPlayerResult.playerId := Result.playerId result;
                     MatchPlayerResult.playerName := Player.name player;
                     MatchPlayerResult.position := position;
                     MatchPlayerResult.previousRating := Result.previousRating result;
                     MatchPlayerResult.newRating := Result.newRating result;
                     MatchPlayerResult.ratingChange := Result.ratingChange result |} ])
      end
  end.

(** The loop over [eloResults]: it stops at the first exception, what
    was written before staying written. *)
Fixpoint recordResults (game : Game.t) (players : list Player.t)
    (currentRatings : list Participant.t) (eloResults : list Result.t)
    (w : World) (matchPlayerResults : list MatchPlayerResult.t)
    : World * option (list MatchPlayerResult.t) :=
  match eloResults with
  | [] => (w, Some matchPlayerResults)
  | result :: rest =>
      match recordResult game players currentRatings result w matchPlayerResults with
      | None => (w, None)
      | Some (w', matchPlayerResults') =>
          recordResults game players currentRatings rest w' matchPlayerResults'
      end
  end.

(** The submission handler of the match form; [games] is the list of
    games the form holds. *)
Definition onSubmit (games : list Game.t) (gameId : string)
    (playerResults : list Entry.t) (notes : option string) (w : World)
    : SubmitOutcome * World :=
  let validation := validateMatchResults playerResults in
  if negb (isValid validation) then (Rejected (errors validation), w)
  else
    match List.find (fun result => negb (isValidPlayerName (Entry.playerName result)))
                    playerResults with
    | Some result => (InvalidPlayerName (Entry.playerName result), w)
    | None =>
        match List.find (fun g => String.eqb (Game.id g) gameId) games with
        | None => (NoGameSelected, w)
        | Some game =>
            let (players, w1) :=
              addPlayers (map (fun result => trim (Entry.playerName result))
                              playerResults) w in
            match allOrNothing
                    (map (currentRatingOf game playerResults (storage w1)) players) with
            | None => (SubmitFailed, w1)
            | Some currentRatings =>
                let eloResults :=
                  calculateMultiPlayerElo currentRatings
                    {| kFactor := Game.kFactor game;
                       defaultRating := Game.defaultRating game |} in
                match recordResults game players currentRatings eloResults w1 [] with
                | (w2, None) => (SubmitFailed, w2)
                | (w2, Some matchPlayerResults) =>
                    let added :=
                      addMatch (generateId (idCalls w2)) (clock (clockReads w2))
                        (Game.id game) (Game.name game) matchPlayerResults
                        (submittedNotes notes) (storage w2) in
                    (Submitted (fst added),
                     {| storage := snd added;
                        idCalls := S (idCalls w2);
                        clockReads := S (clockReads w2) |})
                end
            end
        end
    end.

End MatchSubmission.

(** The entry of the match record written for one result of the
    engine, when its player and its participant are found. *)
Definition matchPlayerResultOf (players : list Player.t)
    (currentRatings : list Participant.t) (result : Result.t)
    : option MatchPlayerResult.t :=
  match List.find (fun p => String.eqb (Player.id p) (Result.playerId result))
                  players,
        findParticipant currentRatings (Result.playerId result) with
  | Some player, Some own =>
      Some {| MatchPlayerResult.playerId := Result.playerId result;
              MatchPlayerResult.playerName := Player.name player;
              MatchPlayerResult.position := Participant.position own;
              MatchPlayerResult.previousRating := Result.previousRating result;
              MatchPlayerResult.newRating := Result.newRating result;
              MatchPlayerResult.ratingChange := Result.ratingChange result |}
  | _, _ => None
  end.

(** The stored rating [after] is the stored rating [before] (if any)
    moved by one match: the new rating, one more game, and the wins,
    losses and draws of the match added. *)
Definition movedBy (newRating : R) (o : Outcomes.t)
    (before : option EloRating.t) (after : EloRating.t) : Prop :=
  EloRating.rating after = newRating /\
  EloRating.gamesPlayed after = (counterOf EloRating.gamesPlayed before + 1)%Z /\
  EloRating.wins after = (counterOf EloRating.wins before + Outcomes.wins o)%Z /\
  EloRating.losses after = (counterOf EloRating.losses before + Outcomes.losses o)%Z /\
  EloRating.draws after = (counterOf EloRating.draws before + Outcomes.draws o)%Z.

(** What is asked of [generateId]: the stored players have distinct
    ids, and the ids still to come are new and distinct. *)
Definition idsAreFresh (generateId : nat -> string) (w : World) : Prop :=
  NoDup (map Player.id (getPlayers (storage w))) /\
  (forall n, (idCalls w <= n)%nat ->
     ~ In (generateId n) (map Player.id (getPlayers (storage w)))) /\
  (forall n m, (idCalls w <= n)%nat -> (idCalls w <= m)%nat ->
     generateId n = generateId m -> n = m).

(** The entry of the match record for the participant [p] of
    [currentRatings], as the engine rates it. *)
Definition matchEntryFor (matchPlayers : list Player.t)
    (currentRatings : list Participant.t) (config : EloCalculationConfig)
    (p : Participant.t) : MatchPlayerResult.t :=
  {| MatchPlayerResult.playerId := Participant.playerId p;
     MatchPlayerResult.playerName :=
       match List.find (fun q => String.eqb (Player.id q) (Participant.playerId p))
                       matchPlayers with
       | Some player => Player.name player
       | None => ""
       end;
     MatchPlayerResult.position := Participant.position p;
     MatchPlayerResult.previousRating :=
       Result.previousRating (ratePlayer config currentRatings p);
     MatchPlayerResult.newRating :=
       Result.newRating (ratePlayer config currentRatings p);
     MatchPlayerResult.ratingChange :=
       Result.ratingChange (ratePlayer config currentRatings p) |}.

(* ================================================================= *)
(** ** Samples for the submission *)

(** A source of ids: the n-th id is n letters i before a #. *)
Fixpoint unaryId (n : nat) : string :=
  match n with
  | O => "#"
  | S k => String "i" (unaryId k)
  end.

(** The game of [sampleStorage]. *)
Definition chess : Game.t := Game.mk "g1" "Chess" None 32%R 1500%R 1%Z 1%Z.

(** [sampleStorage] before any id or date was asked for. *)
Definition sampleWorld : World :=
  {| storage := sampleStorage; idCalls := 0; clockReads := 0 |}.

(** Ann, who is stored, ahead of Cid, who is not. *)
Definition annThenCid : list Entry.t := [ Entry.mk " ann" 1%Z; Entry.mk "Cid" 2%Z ].

(** The two stored players as participants, with their stored ratings. *)
Definition annThenBob : list Participant.t :=
  [ Participant.mk "p1" 1%Z 1516%R; Participant.mk "p2" 2%Z 1484%R ].

(* ================================================================= *)
(** ** Creating and updating a game *)

(** [isValidGameName(name)], for a name of ASCII characters: the
    length is the number of characters. *)
Definition isValidGameName (name : string) : bool :=
  let trimmedName := trim name in
  (2 <=? String.length trimmedName)%nat && (String.length trimmedName <=? 50)%nat.

(** [addGame(gameData)]: the argument carries every field but [id],
    [createdAt] and [updatedAt]; the clock is read twice. *)
Definition addGame (newId : string) (createdAt updatedAt : Date)
    (name : string) (description : option string) (kFactor defaultRating : R)
    (st : Storage) : Game.t * Storage :=
  let games := getGames st in
  let newGame :=
    Game.mk newId name description kFactor defaultRating createdAt updatedAt in
  (newGame, saveGames (games ++ [newGame]) st).

(** [Partial<Omit<Game, 'id' | 'createdAt'>>]: the fields an update
    carries; a description that is carried may be [undefined]. *)
Module GameUpdates.
Record t := mk {
  name : option string;
  description : option (option string);
  kFactor : option R;
  defaultRating : option R;
  updatedAt : option Date
}.
End GameUpdates.

(** [{ ...game, ...updates, updatedAt: new Date() }] *)
Definition updatedGame (now : Date) (game : Game.t) (updates : GameUpdates.t)
    : Game.t :=
  {| Game.id := Game.id game;
     Game.name := default (Game.name game) (GameUpdates.name updates);
     Game.description :=
       default (Game.description game) (GameUpdates.description updates);
     Game.kFactor := default (Game.kFactor game) (GameUpdates.kFactor updates);
     Game.defaultRating :=
       default (Game.defaultRating game) (GameUpdates.defaultRating updates);
     Game.createdAt := Game.createdAt game;
     Game.updatedAt := now |}.

(** [updateGame(gameId, updates)]: [None] for [null]; the index that
    [findIndex] gives is within the list. *)
Definition updateGame (now : Date) (gameId : string) (updates : GameUpdates.t)
    (st : Storage) : option Game.t * Storage :=
  let games := getGames st in
  match findIndex (fun g => String.eqb (Game.id g) gameId) games with
  | None => (None, st)
  | Some gameIndex =>
      match games !! gameIndex with
      | Some game =>
          let games := <[gameIndex := updatedGame now game updates]> games in
          (games !! gameIndex, saveGames games st)
      | None => (None, st)
      end
  end.

(** What the handler of the game form ends with. *)
Inductive CreateOutcome :=
| InvalidGameName
| GameNameExists
| Created (g : Game.t).

Module GameForm.

(** The submission handler of the game form. *)
Definition onSubmit (generateId : nat -> string) (clock : nat -> Date)
    (name : string) (description : option string) (kFactor defaultRating : R)
    (w : World) : CreateOutcome * World :=
  if negb (isValidGameName name) then (InvalidGameName, w)
  else
    let existingGames := getGames (storage w) in
    let nameExists :=
      existsb (fun game => String.eqb (toLowerCase (Game.name game))
                                      (toLowerCase (trim name)))
              existingGames in
    if nameExists then (GameNameExists, w)
    else
      let added :=
        addGame (generateId (idCalls w)) (clock (clockReads w))
                (clock (S (clockReads w))) (trim name) (submittedNotes description)
                kFactor defaultRating (storage w) in
      (Created (fst added),
       {| storage := snd added;
          idCalls := S (idCalls w);
          clockReads := S (S (clockReads w)) |}).

End GameForm.

(* ================================================================= *)
(** ** Utilities *)

(** [calculatePercentage(value, total)], in exact arithmetic: at a
    half the number of the source may be rounded the other way. *)
Definition calculatePercentage (value total : R) : R :=
  if Req_dec_T total 0 then 0%R
  else Math_round ((value / total) * 100).

(** [Math.ceil(a / b)] for integers, [b] not 0. *)
Definition Math_ceil_div (a b : Z) : Z := (- ((- a) / b))%Z.

(** [array.slice(start, end)] for integers: a negative index counts
    from the end. *)
Definition slice {A : Type} (array : list A) (start finish : Z) : list A :=
  let len := Z.of_nat (length array) in
  let relative k := if (k <? 0)%Z then Z.max (len + k) 0 else Z.min k len in
  let from := relative start in
  let to := relative finish in
  firstn (Z.to_nat (to - from)) (skipn (Z.to_nat from) array).

Module Page.
Record t (A : Type) := mk {
  items : list A;
  totalPages : Z;
  currentPage : Z;
  totalItems : Z
}.
Arguments mk {A}.
Arguments items {A}.
Arguments totalPages {A}.
Arguments currentPage {A}.
Arguments totalItems {A}.
End Page.

(** [paginateArray(array, page, pageSize)] for an integer page and an
    integer page size other than 0. *)
Definition paginateArray {A : Type} (array : list A) (page pageSize : Z)
    : Page.t A :=
  let totalItems := Z.of_nat (length array) in
  let totalPages := Math_ceil_div totalItems pageSize in
  let currentPage := Z.max 1 (Z.min page totalPages) in
  let startIndex := ((currentPage - 1) * pageSize)%Z in
  let endIndex := (startIndex + pageSize)%Z in
  let items := slice array startIndex endIndex in
  {| Page.items := items;
     Page.totalPages := totalPages;
     Page.currentPage := currentPage;
     Page.totalItems := totalItems |}.

(** The page numbers 1 to [n]. *)
Definition pageNumbers (n : Z) : list Z :=
  map (fun k => Z.of_nat (S k)) (seq 0 (Z.to_nat n)).

(* ================================================================= *)
(** ** Adding a player to the match form *)

Module MatchForm.

(** The entry that [addPlayer] appends to the entries of the form:
    no name yet, and the position after the highest one.  For no entry
    at all the position would be [-Infinity], which is no position of
    the model. *)
Definition addPlayer (watchedPlayerResults : list Entry.t) : option Entry.t :=
  match Math_max_spread (map Entry.position watchedPlayerResults) with
  | NegInfinity => None
  | MaxOf highest =>
      let nextPosition := (highest + 1)%Z in
      Some (Entry.mk "" nextPosition)
  end.

End MatchForm.

(* ================================================================= *)
(** ** Rounding *)

Section Rounding.
Local Open Scope R_scope.

Lemma Math_round_spec (x : R) (z : Z) :
  IZR z <= x + / 2 < IZR z + 1 -> Math_round x = IZR z.
Proof.
  intros [Hlo Hhi]. unfold Math_round. f_equal. symmetry.
  apply Int_part_spec. split; lra.
Qed.

Lemma Math_round_bounds (x : R) :
  x - / 2 < Math_round x <= x + / 2.
Proof.
  unfold Math_round. destruct (base_Int_part (x + / 2)) as [Hle Hgt].
  split; lra.
Qed.

Lemma Math_round_IZR (z : Z) : Math_round (IZR z) = IZR z.
Proof. apply Math_round_spec. lra. Qed.

Lemma Math_round_0 : Math_round 0 = 0.
Proof. apply (Math_round_IZR 0). Qed.

(** Rounding commutes with adding an integer. *)
Lemma Math_round_plus_IZR (z : Z) (x : R) :
  Math_round (IZR z + x) = IZR z + Math_round x.
Proof.
  unfold Math_round at 2. rewrite <- plus_IZR. apply Math_round_spec.
  rewrite plus_IZR. destruct (base_Int_part (x + / 2)) as [Hle Hgt].
  split; lra.
Qed.

(** Halves go up on both sides of zero, so the roundings of [x] and of
    [- x] cancel except at a half, where they add up to one. *)
Lemma Math_round_opp (x : R) :
  Math_round x + Math_round (- x) = 0 \/ Math_round x + Math_round (- x) = 1.
Proof.
  unfold Math_round at 1 3.
  set (m := Int_part (x + / 2)).
  destruct (base_Int_part (x + / 2)) as [Hle Hgt]. fold m in Hle, Hgt.
  destruct (Req_dec (x + / 2) (IZR m)) as [Heq | Hne].
  - right. rewrite (Math_round_spec (- x) (1 - m)).
    + rewrite minus_IZR. lra.
    + rewrite minus_IZR. split; lra.
  - left. rewrite (Math_round_spec (- x) (- m)).
    + rewrite opp_IZR. lra.
    + rewrite opp_IZR. split; lra.
Qed.

Lemma Math_round_is_integer (x : R) : exists z, Math_round x = IZR z.
Proof. exists (Int_part (x + / 2)). reflexivity. Qed.

(** A number within a half of an integer is rounded to that integer,
    or to the next one when it is the half above. *)
Lemma Math_round_near (z : Z) (s : R) :
  IZR z - / 2 <= s <= IZR z + / 2 ->
  Math_round s = IZR z \/ Math_round s = IZR z + 1.
Proof.
  intros [Hlo Hhi]. destruct (Rlt_dec s (IZR z + / 2)) as [Hlt | Hge].
  - left. apply Math_round_spec. lra.
  - right. rewrite <- (plus_IZR z 1). apply Math_round_spec.
    rewrite plus_IZR. lra.
Qed.

Lemma Math_max_0_nonneg (x : R) : 0 <= Math_max 0 x.
Proof. apply Rmax_l. Qed.

Lemma Math_max_0_of_nonneg (x : R) : 0 <= x -> Math_max 0 x = x.
Proof. intros H. unfold Math_max. apply Rmax_right. exact H. Qed.

End Rounding.

(* ================================================================= *)
(** ** The two loops of the engine *)

Section EngineLoops.
Local Open Scope R_scope.

(** The outer loop pushes the records in input order. *)
Lemma push_loop_map {A B : Type} (f : A -> B) (l : list A) (acc : list B) :
  fold_left (fun results x => results ++ [f x]) l acc = acc ++ map f l.
Proof.
  revert acc. induction l as [| x l IH]; intros acc; simpl.
  - symmetry. apply app_nil_r.
  - rewrite IH, <- app_assoc. reflexivity.
Qed.

Lemma calculateMultiPlayerElo_map ps cfg :
  calculateMultiPlayerElo ps cfg = map (ratePlayer cfg ps) ps.
Proof.
  unfold calculateMultiPlayerElo.
  rewrite (push_loop_map (ratePlayer cfg ps)). reflexivity.
Qed.

Lemma in_calculateMultiPlayerElo ps cfg r :
  In r (calculateMultiPlayerElo ps cfg) <->
  exists p, In p ps /\ r = ratePlayer cfg ps p.
Proof.
  rewrite calculateMultiPlayerElo_map, in_map_iff.
  split; intros [p [H1 H2]]; exists p; split; auto.
Qed.

(** The inner loop, from any state of the accumulators. *)
Lemma inner_loop_from p l acc :
  let t := fold_left (compareWith p) l acc in
  totalExpectedScore t =
    totalExpectedScore acc + sumR (map (expectedAgainst p) (opponentsOf l p)) /\
  totalActualScore t =
    totalActualScore acc + sumR (map (actualAgainst p) (opponentsOf l p)) /\
  totalOpponents t = (totalOpponents acc + length (opponentsOf l p))%nat.
Proof.
  revert acc. induction l as [| q l IH]; intros acc; simpl.
  - repeat split; try lra; lia.
  - destruct (IH (compareWith p acc q)) as (IHe & IHa & IHn).
    rewrite IHe, IHa, IHn. clear IH IHe IHa IHn.
    unfold opponentsOf, compareWith, isOpponent. simpl.
    destruct (String.eqb (Participant.playerId p) (Participant.playerId q));
      simpl; repeat split; try lia;
      unfold expectedAgainst, actualAgainst; lra.
Qed.

Lemma opponentTotals_expected ps p :
  totalExpectedScore (opponentTotals ps p) =
  sumR (map (expectedAgainst p) (opponentsOf ps p)).
Proof.
  destruct (inner_loop_from p ps noTotals) as (H & _ & _).
  unfold opponentTotals. rewrite H. simpl. lra.
Qed.

Lemma opponentTotals_actual ps p :
  totalActualScore (opponentTotals ps p) =
  sumR (map (actualAgainst p) (opponentsOf ps p)).
Proof.
  destruct (inner_loop_from p ps noTotals) as (_ & H & _).
  unfold opponentTotals. rewrite H. simpl. lra.
Qed.

Lemma opponentTotals_count ps p :
  totalOpponents (opponentTotals ps p) = length (opponentsOf ps p).
Proof.
  destruct (inner_loop_from p ps noTotals) as (_ & _ & H).
  unfold opponentTotals. rewrite H. reflexivity.
Qed.

End EngineLoops.

(* ================================================================= *)
(** ** Shape of the output *)

Section EngineOutput.
Local Open Scope R_scope.

Lemma ratePlayer_playerId cfg ps p :
  Result.playerId (ratePlayer cfg ps p) = Participant.playerId p.
Proof.
  unfold ratePlayer.
  destruct (totalOpponents (opponentTotals ps p) =? 0)%nat; reflexivity.
Qed.

Lemma ratePlayer_previousRating cfg ps p :
  Result.previousRating (ratePlayer cfg ps p) = Participant.currentRating p.
Proof.
  unfold ratePlayer.
  destruct (totalOpponents (opponentTotals ps p) =? 0)%nat; reflexivity.
Qed.

(** A participant with an opponent is rated by the Elo formula. *)
Lemma ratePlayer_with_opponents cfg ps p :
  opponentsOf ps p <> [] ->
  ratePlayer cfg ps p =
    let c := unroundedChange cfg (opponentTotals ps p) in
    {| Result.playerId := Participant.playerId p;
       Result.previousRating := Participant.currentRating p;
       Result.newRating :=
         Math_max 0 (Math_round (Participant.currentRating p + c));
       Result.ratingChange := Math_round c |}.
Proof.
  intros Hne. unfold ratePlayer. rewrite opponentTotals_count.
  destruct (opponentsOf ps p) as [| q l]; [congruence |]. reflexivity.
Qed.

(** A participant without opponent keeps its rating. *)
Lemma ratePlayer_without_opponents cfg ps p :
  opponentsOf ps p = [] ->
  ratePlayer cfg ps p =
    {| Result.playerId := Participant.playerId p;
       Result.previousRating := Participant.currentRating p;
       Result.newRating := Participant.currentRating p;
       Result.ratingChange := 0 |}.
Proof.
  intros Hnil. unfold ratePlayer. rewrite opponentTotals_count, Hnil.
  reflexivity.
Qed.

Lemma opponentsOf_In ps p q :
  In q (opponentsOf ps p) <->
  In q ps /\ Participant.playerId p <> Participant.playerId q.
Proof.
  unfold opponentsOf, isOpponent. rewrite filter_In.
  destruct (String.eqb_spec (Participant.playerId p) (Participant.playerId q));
    simpl; intuition congruence.
Qed.

(** C7. The engine returns one record per input participant, in input
    order: the output has the length of the input and, at every index,
    the record carries the [playerId] of the participant at that index
    and its [currentRating] as [previousRating]. *)
Theorem calculateMultiPlayerElo_one_record_per_participant ps cfg :
  length (calculateMultiPlayerElo ps cfg) = length ps /\
  forall i : nat,
    option_map Result.playerId (nth_error (calculateMultiPlayerElo ps cfg) i)
      = option_map Participant.playerId (nth_error ps i) /\
    option_map Result.previousRating (nth_error (calculateMultiPlayerElo ps cfg) i)
      = option_map Participant.currentRating (nth_error ps i).
Proof.
  rewrite calculateMultiPlayerElo_map. split.
  - apply length_map.
  - intros i. rewrite nth_error_map.
    destruct (nth_error ps i) as [p |]; simpl; [| split; reflexivity].
    rewrite ratePlayer_playerId, ratePlayer_previousRating.
    split; reflexivity.
Qed.

(** C6. On a single participant the engine returns exactly one record,
    with [ratingChange = 0] and [newRating] equal to the participant's
    [currentRating]. *)
Theorem single_participant_unchanged p cfg :
  calculateMultiPlayerElo [p] cfg =
    [ {| Result.playerId := Participant.playerId p;
         Result.previousRating := Participant.currentRating p;
         Result.newRating := Participant.currentRating p;
         Result.ratingChange := 0 |} ].
Proof.
  rewrite calculateMultiPlayerElo_map. simpl. f_equal.
  apply ratePlayer_without_opponents.
  unfold opponentsOf, isOpponent. simpl.
  rewrite String.eqb_refl. reflexivity.
Qed.

End EngineOutput.

(* ================================================================= *)
(** ** Scores of one pairing *)

Section Pairing.
Local Open Scope R_scope.

Lemma Math_pow_10_pos (y : R) : 0 < Math_pow 10 y.
Proof. unfold Math_pow, Rpower. apply exp_pos. Qed.

(** Equal ratings: the expectation is one half. *)
Lemma calculateExpectedScore_equal (r : R) :
  calculateExpectedScore r r = 1 / 2.
Proof.
  unfold calculateExpectedScore, Math_pow.
  replace ((r - r) / 400) with 0 by lra.
  rewrite Rpower_O by lra. lra.
Qed.

(** The expectations of the two sides of a pairing add up to one. *)
Lemma calculateExpectedScore_sym (a b : R) :
  calculateExpectedScore a b + calculateExpectedScore b a = 1.
Proof.
  unfold calculateExpectedScore.
  replace ((a - b) / 400) with (- ((b - a) / 400)) by lra.
  unfold Math_pow at 2. rewrite Rpower_Ropp. fold (Math_pow 10 ((b - a) / 400)).
  pose proof (Math_pow_10_pos ((b - a) / 400)) as Hpos.
  field. split; lra.
Qed.

(** So do the actual scores. *)
Lemma calculateActualScore_sym (x y : Z) :
  calculateActualScore x y + calculateActualScore y x = 1.
Proof.
  unfold calculateActualScore.
  destruct (Z.ltb_spec x y), (Z.ltb_spec y x), (Z.eqb_spec x y), (Z.eqb_spec y x);
    try lia; lra.
Qed.

Lemma calculateActualScore_tie (x : Z) : calculateActualScore x x = 1 / 2.
Proof.
  unfold calculateActualScore. rewrite Z.ltb_irrefl, Z.eqb_refl. lra.
Qed.

(** The two records of a two-participant match. *)
Lemma two_participants p q cfg :
  Participant.playerId p <> Participant.playerId q ->
  let cp := kFactor cfg * (actualAgainst p q - expectedAgainst p q) in
  let cq := kFactor cfg * (actualAgainst q p - expectedAgainst q p) in
  calculateMultiPlayerElo [p; q] cfg =
    [ {| Result.playerId := Participant.playerId p;
         Result.previousRating := Participant.currentRating p;
         Result.newRating :=
           Math_max 0 (Math_round (Participant.currentRating p + cp));
         Result.ratingChange := Math_round cp |};
      {| Result.playerId := Participant.playerId q;
         Result.previousRating := Participant.currentRating q;
         Result.newRating :=
           Math_max 0 (Math_round (Participant.currentRating q + cq));
         Result.ratingChange := Math_round cq |} ].
Proof.
  intros Hne cp cq.
  assert (Hpq : String.eqb (Participant.playerId p) (Participant.playerId q) = false)
    by (apply String.eqb_neq; exact Hne).
  assert (Hqp : String.eqb (Participant.playerId q) (Participant.playerId p) = false)
    by (apply String.eqb_neq; congruence).
  unfold calculateMultiPlayerElo, ratePlayer, opponentTotals, compareWith.
  simpl. rewrite !String.eqb_refl, Hpq, Hqp. simpl.
  unfold unroundedChange. simpl.
  fold (expectedAgainst p q) (expectedAgainst q p)
       (actualAgainst p q) (actualAgainst q p).
  replace (kFactor cfg *
           ((0 + actualAgainst p q) / 1 - (0 + expectedAgainst p q) / 1))
    with cp by (unfold cp; field).
  replace (kFactor cfg *
           ((0 + actualAgainst q p) / 1 - (0 + expectedAgainst q p) / 1))
    with cq by (unfold cq; field).
  reflexivity.
Qed.

End Pairing.

(* ================================================================= *)
(** ** The sample matches, evaluated *)

Section Samples.
Local Open Scope R_scope.

(** Replace some [Math_round x] of the goal by the integer [z] it is. *)
Ltac round_to z :=
  match goal with
  | |- context [Math_round ?x] =>
      rewrite (Math_round_spec x z) by (split; lra)
  end.
Ltac clamp_pos := unfold Math_max; rewrite Rmax_right by lra.
Ltac clamp_neg := unfold Math_max; rewrite Rmax_left by lra.

(** The example of the specification: 16 points move from B to A. *)
Lemma evenMatch_result :
  calculateMultiPlayerElo evenMatch config32 =
    [ Result.mk "A" 1500 1516 16; Result.mk "B" 1500 1484 (-16) ].
Proof.
  unfold evenMatch. rewrite two_participants by discriminate.
  unfold actualAgainst, expectedAgainst, calculateActualScore. simpl.
  rewrite calculateExpectedScore_equal.
  round_to 16%Z. round_to 1516%Z. round_to (-16)%Z. round_to 1484%Z.
  clamp_pos. clamp_pos. reflexivity.
Qed.

(** With [kFactor = 1] the half point of A goes up to 1 and the half
    point of B goes up to 0. *)
Lemma evenMatch_result_k1 :
  calculateMultiPlayerElo evenMatch config1 =
    [ Result.mk "A" 1500 1501 1; Result.mk "B" 1500 1500 0 ].
Proof.
  unfold evenMatch. rewrite two_participants by discriminate.
  unfold actualAgainst, expectedAgainst, calculateActualScore. simpl.
  rewrite calculateExpectedScore_equal.
  round_to 1%Z. round_to 1501%Z. round_to 0%Z. round_to 1500%Z.
  clamp_pos. clamp_pos. reflexivity.
Qed.

(** The loser at 10 would go to -6 and is held at 0. *)
Lemma lowRatedMatch_result :
  calculateMultiPlayerElo lowRatedMatch config32 =
    [ Result.mk "A" 10 0 (-16); Result.mk "B" 10 26 16 ].
Proof.
  unfold lowRatedMatch. rewrite two_participants by discriminate.
  unfold actualAgainst, expectedAgainst, calculateActualScore. simpl.
  rewrite calculateExpectedScore_equal.
  round_to (-16)%Z. round_to (-6)%Z. round_to 16%Z. round_to 26%Z.
  clamp_neg. clamp_pos. reflexivity.
Qed.

(** 1500.5 + 16 is rounded up to 1517. *)
Lemma fractionalMatch_result :
  calculateMultiPlayerElo fractionalMatch config32 =
    [ Result.mk "A" 1500.5 1517 16; Result.mk "B" 1500.5 1485 (-16) ].
Proof.
  unfold fractionalMatch. rewrite two_participants by discriminate.
  unfold actualAgainst, expectedAgainst, calculateActualScore. simpl.
  rewrite calculateExpectedScore_equal.
  round_to 16%Z. round_to 1517%Z. round_to (-16)%Z. round_to 1485%Z.
  clamp_pos. clamp_pos. reflexivity.
Qed.

(** A tie between 1500 and 1900: the expectation of A is 1/11, and
    13 points move from B to A. *)
Lemma unevenTie_result :
  calculateMultiPlayerElo unevenTie config32 =
    [ Result.mk "A" 1500 1513 13; Result.mk "B" 1900 1887 (-13) ].
Proof.
  unfold unevenTie. rewrite two_participants by discriminate.
  unfold actualAgainst, expectedAgainst, calculateActualScore. simpl.
  assert (HA : calculateExpectedScore 1500 1900 = 1 / 11).
  { unfold calculateExpectedScore, Math_pow.
    replace ((1900 - 1500) / 400) with 1 by lra.
    rewrite Rpower_1 by lra. lra. }
  assert (HB : calculateExpectedScore 1900 1500 = 10 / 11).
  { pose proof (calculateExpectedScore_sym 1500 1900). lra. }
  rewrite HA, HB.
  round_to 13%Z. round_to 1513%Z. round_to (-13)%Z. round_to 1887%Z.
  clamp_pos. clamp_pos. reflexivity.
Qed.

Lemma loneNegative_result :
  calculateMultiPlayerElo loneNegative config32 = [ Result.mk "A" (-5) (-5) 0 ].
Proof.
  rewrite calculateMultiPlayerElo_map. simpl.
  rewrite ratePlayer_without_opponents by reflexivity. reflexivity.
Qed.

End Samples.

(* ================================================================= *)
(** ** New rating against previous rating and change *)

Section NewRating.
Local Open Scope R_scope.

(** C1, as stated, fails.  In [lowRatedMatch] the loser has
    [previousRating = 10] and [ratingChange = -16] and is held at
    [newRating = 0], not -6; in [fractionalMatch] the winner has
    [previousRating = 1500.5] and [ratingChange = 16] and gets
    [newRating = 1517], not 1516.5.  In both matches the [playerId]s are
    distinct. *)
Lemma newRating_differs_from_sum :
  (NoDup (map Participant.playerId lowRatedMatch) /\
   calculateMultiPlayerElo lowRatedMatch config32 =
     [ Result.mk "A" 10 0 (-16); Result.mk "B" 10 26 16 ] /\
   exists r, In r (calculateMultiPlayerElo lowRatedMatch config32) /\
             Result.newRating r <> Result.previousRating r + Result.ratingChange r) /\
  (NoDup (map Participant.playerId fractionalMatch) /\
   calculateMultiPlayerElo fractionalMatch config32 =
     [ Result.mk "A" 1500.5 1517 16; Result.mk "B" 1500.5 1485 (-16) ] /\
   exists r, In r (calculateMultiPlayerElo fractionalMatch config32) /\
             Result.newRating r <> Result.previousRating r + Result.ratingChange r).
Proof.
  split; (split; [compute_done | split]).
  - apply lowRatedMatch_result.
  - exists (Result.mk "A" 10 0 (-16)). rewrite lowRatedMatch_result.
    split; [left; reflexivity | simpl; lra].
  - apply fractionalMatch_result.
  - exists (Result.mk "A" 1500.5 1517 16). rewrite fractionalMatch_result.
    split; [left; reflexivity | simpl; lra].
Qed.

(** C1, amended.  For a record returned by the engine whose
    [previousRating] is an integer and for which
    [previousRating + ratingChange] is not negative, [newRating] is
    [previousRating + ratingChange] or one more.  The two roundings are
    made apart: [ratingChange] is the rounding of the change and
    [newRating] that of the rating plus the change, a sum that lies
    within a half of [previousRating + ratingChange] and so is rounded
    to it or, at the half above, to the next integer.  (In exact
    arithmetic the half above is not reached; in the numbers of the
    source it is, when the change comes out just below a half.)  The
    two bounds keep the integers and halves involved among the numbers
    that the source carries exactly. *)
Theorem newRating_is_previous_plus_change ps cfg r :
  In r (calculateMultiPlayerElo ps cfg) ->
  (exists z : Z, Result.previousRating r = IZR z) ->
  Rabs (Result.previousRating r) <= 10 ^ 15 ->
  Rabs (kFactor cfg) <= 10 ^ 15 ->
  0 <= Result.previousRating r + Result.ratingChange r ->
  Result.newRating r = Result.previousRating r + Result.ratingChange r \/
  Result.newRating r = Result.previousRating r + Result.ratingChange r + 1.
Proof.
  intros Hin [z Hz] _ _ Hnonneg.
  apply in_calculateMultiPlayerElo in Hin. destruct Hin as [p [_ ->]].
  destruct (opponentsOf ps p) as [| q l] eqn:Hopp.
  - left. rewrite ratePlayer_without_opponents by exact Hopp. simpl. lra.
  - assert (Hne : opponentsOf ps p <> []) by (rewrite Hopp; discriminate).
    rewrite ratePlayer_with_opponents in Hz, Hnonneg |- * by exact Hne.
    simpl in *.
    set (c := unroundedChange cfg (opponentTotals ps p)) in *.
    destruct (Math_round_is_integer c) as [n Hn].
    pose proof (Math_round_bounds c) as Hc.
    rewrite Hz, Hn in *.
    destruct (Math_round_near (z + n) (IZR z + c)) as [Hround | Hround].
    + rewrite plus_IZR. lra.
    + left. rewrite Hround, plus_IZR.
      apply Math_max_0_of_nonneg. exact Hnonneg.
    + right. rewrite Hround, plus_IZR.
      apply Math_max_0_of_nonneg. lra.
Qed.

(** The amended C1 at the winner of [evenMatch]: 1500 + 16 = 1516. *)
Lemma newRating_is_previous_plus_change_witness :
  In (Result.mk "A" 1500 1516 16) (calculateMultiPlayerElo evenMatch config32) /\
  (exists z : Z, Result.previousRating (Result.mk "A" 1500 1516 16) = IZR z) /\
  Rabs (Result.previousRating (Result.mk "A" 1500 1516 16)) <= 10 ^ 15 /\
  Rabs (kFactor config32) <= 10 ^ 15 /\
  0 <= Result.previousRating (Result.mk "A" 1500 1516 16)
       + Result.ratingChange (Result.mk "A" 1500 1516 16) /\
  (Result.newRating (Result.mk "A" 1500 1516 16) =
     Result.previousRating (Result.mk "A" 1500 1516 16)
     + Result.ratingChange (Result.mk "A" 1500 1516 16) \/
   Result.newRating (Result.mk "A" 1500 1516 16) =
     Result.previousRating (Result.mk "A" 1500 1516 16)
     + Result.ratingChange (Result.mk "A" 1500 1516 16) + 1).
Proof.
  assert (Hin : In (Result.mk "A" 1500 1516 16)
                   (calculateMultiPlayerElo evenMatch config32))
    by (rewrite evenMatch_result; left; reflexivity).
  assert (Hint : exists z : Z,
            Result.previousRating (Result.mk "A" 1500 1516 16) = IZR z)
    by (exists 1500%Z; reflexivity).
  assert (Hprev : Rabs (Result.previousRating (Result.mk "A" 1500 1516 16))
                  <= 10 ^ 15)
    by (simpl; rewrite Rabs_pos_eq by lra; lra).
  assert (Hk : Rabs (kFactor config32) <= 10 ^ 15)
    by (simpl; rewrite Rabs_pos_eq by lra; lra).
  assert (Hnonneg : 0 <= Result.previousRating (Result.mk "A" 1500 1516 16)
                         + Result.ratingChange (Result.mk "A" 1500 1516 16))
    by (simpl; lra).
  repeat (split; [assumption |]).
  exact (newRating_is_previous_plus_change evenMatch config32
           (Result.mk "A" 1500 1516 16) Hin Hint Hprev Hk Hnonneg).
Defined.

(** C5, as stated, fails.  A participant without opponent keeps its
    rating, negative or not: the single player of [loneNegative] comes
    back with [newRating = -5]. *)
Lemma newRating_negative_without_opponent :
  calculateMultiPlayerElo loneNegative config32 = [ Result.mk "A" (-5) (-5) 0 ] /\
  exists r, In r (calculateMultiPlayerElo loneNegative config32) /\
            Result.newRating r < 0.
Proof.
  split; [apply loneNegative_result |].
  exists (Result.mk "A" (-5) (-5) 0). rewrite loneNegative_result.
  split; [left; reflexivity | simpl; lra].
Qed.

(** C5, amended.  For every input and every K-factor, a record returned
    by the engine satisfies [newRating >= 0] as soon as its participant
    has an opponent (a participant of the input with another
    [playerId]) or its [previousRating] is not negative. *)
Theorem newRating_nonneg ps cfg r :
  In r (calculateMultiPlayerElo ps cfg) ->
  (exists q, In q ps /\ Participant.playerId q <> Result.playerId r) \/
    0 <= Result.previousRating r ->
  0 <= Result.newRating r.
Proof.
  intros Hin Hcase.
  apply in_calculateMultiPlayerElo in Hin. destruct Hin as [p [_ ->]].
  rewrite ratePlayer_playerId, ratePlayer_previousRating in Hcase.
  destruct (opponentsOf ps p) as [| q' l] eqn:Hopp.
  - rewrite ratePlayer_without_opponents by exact Hopp. simpl.
    destruct Hcase as [[q [Hq Hne]] | Hprev]; [| exact Hprev].
    assert (Hq' : In q (opponentsOf ps p))
      by (apply opponentsOf_In; split; [exact Hq | congruence]).
    rewrite Hopp in Hq'. destruct Hq'.
  - rewrite ratePlayer_with_opponents by (rewrite Hopp; discriminate).
    simpl. apply Math_max_0_nonneg.
Qed.

(** The amended C5 at the loser of [lowRatedMatch], held at 0. *)
Lemma newRating_nonneg_witness :
  In (Result.mk "A" 10 0 (-16)) (calculateMultiPlayerElo lowRatedMatch config32) /\
  ((exists q, In q lowRatedMatch /\
              Participant.playerId q <> Result.playerId (Result.mk "A" 10 0 (-16))) \/
   0 <= Result.previousRating (Result.mk "A" 10 0 (-16))) /\
  0 <= Result.newRating (Result.mk "A" 10 0 (-16)).
Proof.
  assert (Hin : In (Result.mk "A" 10 0 (-16))
                   (calculateMultiPlayerElo lowRatedMatch config32))
    by (rewrite lowRatedMatch_result; left; reflexivity).
  assert (Hopp : (exists q, In q lowRatedMatch /\
                    Participant.playerId q <>
                    Result.playerId (Result.mk "A" 10 0 (-16))) \/
                 0 <= Result.previousRating (Result.mk "A" 10 0 (-16))).
  { left. exists (Participant.mk "B" 1 10).
    split; [right; left; reflexivity | discriminate]. }
  repeat (split; [assumption |]).
  exact (newRating_nonneg lowRatedMatch config32 (Result.mk "A" 10 0 (-16)) Hin Hopp).
Defined.

End NewRating.

(* ================================================================= *)
(** ** Two participants *)

Section TwoParticipants.
Local Open Scope R_scope.




End TwoParticipants.

(* ================================================================= *)
(** ** Sums over the participants *)

Section Sums.
Local Open Scope R_scope.

Lemma sumR_map_ext_in {A : Type} (f g : A -> R) (l : list A) :
  (forall x, In x l -> f x = g x) -> sumR (map f l) = sumR (map g l).
Proof.
  intros Hfg. f_equal. apply map_ext_in. exact Hfg.
Qed.

Lemma sumR_map_const {A : Type} (c : R) (l : list A) :
  sumR (map (fun _ => c) l) = INR (length l) * c.
Proof.
  induction l as [| x l IH].
  - simpl. lra.
  - change (sumR (map (fun _ => c) (x :: l)))
      with (c + sumR (map (fun _ => c) l)).
    rewrite IH. change (length (x :: l)) with (S (length l)).
    rewrite S_INR. lra.
Qed.

Lemma sumR_map_plus {A : Type} (f g : A -> R) (l : list A) :
  sumR (map (fun x => f x + g x) l) = sumR (map f l) + sumR (map g l).
Proof.
  induction l as [| x l IH]; simpl; [lra | rewrite IH; lra].
Qed.

Lemma sumR_map_affine {A : Type} (a b : R) (f : A -> R) (l : list A) :
  sumR (map (fun x => a * f x + b) l) = a * sumR (map f l) + INR (length l) * b.
Proof.
  induction l as [| x l IH].
  - simpl. lra.
  - change (length (x :: l)) with (S (length l)). rewrite S_INR.
    simpl. rewrite IH. lra.
Qed.

(** A sum over the kept elements is a sum over all, the others
    counting for nothing. *)
Lemma sumR_map_filter {A : Type} (keep : A -> bool) (f : A -> R) (l : list A) :
  sumR (map f (List.filter keep l)) =
  sumR (map (fun x => if keep x then f x else 0) l).
Proof.
  induction l as [| x l IH]; simpl; [reflexivity |].
  destruct (keep x); simpl; rewrite IH; lra.
Qed.

(** The two orders of summation over a pair of lists agree. *)
Lemma sumR_exchange {A B : Type} (F : A -> B -> R) (l1 : list A) (l2 : list B) :
  sumR (map (fun x => sumR (map (fun y => F x y) l2)) l1) =
  sumR (map (fun y => sumR (map (fun x => F x y) l1)) l2).
Proof.
  induction l1 as [| x l1 IH].
  - simpl. induction l2 as [| y l2 IH2]; simpl; [reflexivity | lra].
  - simpl. rewrite IH. rewrite <- sumR_map_plus. reflexivity.
Qed.

(** Rounding each term moves the sum by at most half the number of
    terms. *)
Lemma sumR_round_bounds (l : list R) :
  sumR l - INR (length l) / 2 <= sumR (map Math_round l)
    <= sumR l + INR (length l) / 2.
Proof.
  induction l as [| x l IH].
  - simpl. lra.
  - change (length (x :: l)) with (S (length l)). rewrite S_INR. simpl.
    pose proof (Math_round_bounds x). lra.
Qed.

Lemma sumR_round_is_integer (l : list R) :
  exists z : Z, sumR (map Math_round l) = IZR z.
Proof.
  induction l as [| x l [z IH]]; [exists 0%Z; reflexivity |].
  destruct (Math_round_is_integer x) as [m Hm].
  exists (m + z)%Z. simpl. rewrite IH, Hm, plus_IZR. reflexivity.
Qed.

(** The roundings of terms whose sum is less than a half away from 0
    add up to an integer of magnitude at most half their number. *)
Lemma sumR_round_near_zero (l : list R) :
  Rabs (sumR l) < / 2 ->
  Rabs (sumR (map Math_round l)) <= INR (length l) / 2.
Proof.
  intros Hsmall. apply Rabs_def2 in Hsmall. destruct Hsmall as [Hup Hdown].
  destruct (sumR_round_is_integer l) as [z Hz].
  pose proof (sumR_round_bounds l) as [Hlo Hhi].
  rewrite Hz in *. rewrite INR_IZR_INZ in *.
  set (n := Z.of_nat (length l)) in *.
  assert (H1 : (2 * z < n + 1)%Z)
    by (apply lt_IZR; rewrite mult_IZR, plus_IZR; lra).
  assert (H2 : (- n - 1 < 2 * z)%Z)
    by (apply lt_IZR; rewrite mult_IZR, minus_IZR, opp_IZR; lra).
  assert (H3 : IZR (2 * z) <= IZR n) by (apply IZR_le; lia).
  assert (H4 : IZR (- n) <= IZR (2 * z)) by (apply IZR_le; lia).
  rewrite mult_IZR in H3, H4. rewrite opp_IZR in H4.
  apply Rabs_le. lra.
Qed.

End Sums.

(* ================================================================= *)
(** ** A match where everybody is tied *)

Section AllTied.
Local Open Scope R_scope.

(** C2, as stated, fails.  In [unevenTie] A (1500) and B (1900) are
    tied for first, with distinct [playerId]s; A was expected to score
    1/11 and scores 1/2, and 13 points move from B to A. *)
Lemma tie_with_unequal_ratings_changes :
  NoDup (map Participant.playerId unevenTie) /\
  (forall p q, In p unevenTie -> In q unevenTie ->
               Participant.position p = Participant.position q) /\
  calculateMultiPlayerElo unevenTie config32 =
    [ Result.mk "A" 1500 1513 13; Result.mk "B" 1900 1887 (-13) ] /\
  exists r, In r (calculateMultiPlayerElo unevenTie config32) /\
            Result.ratingChange r <> 0.
Proof.
  split; [compute_done |]. split; [| split].
  - intros p q [<- | [<- | []]] [<- | [<- | []]]; reflexivity.
  - apply unevenTie_result.
  - exists (Result.mk "A" 1500 1513 13). rewrite unevenTie_result.
    split; [left; reflexivity | simpl; lra].
Qed.

(** C2, amended.  If every participant has the same position and the
    same [currentRating], then every [ratingChange] returned by the
    engine is 0, for every K-factor. *)
Theorem all_tied_equal_ratings_no_change ps cfg pos0 rating0 :
  (forall p, In p ps ->
     Participant.position p = pos0 /\ Participant.currentRating p = rating0) ->
  forall r, In r (calculateMultiPlayerElo ps cfg) -> Result.ratingChange r = 0.
Proof.
  intros Hsame r Hin.
  apply in_calculateMultiPlayerElo in Hin. destruct Hin as [p [Hp ->]].
  destruct (opponentsOf ps p) as [| q l] eqn:Hopp.
  - rewrite ratePlayer_without_opponents by exact Hopp. reflexivity.
  - rewrite ratePlayer_with_opponents by (rewrite Hopp; discriminate).
    simpl. unfold unroundedChange.
    rewrite opponentTotals_expected, opponentTotals_actual.
    assert (Heq : sumR (map (actualAgainst p) (opponentsOf ps p)) =
                  sumR (map (expectedAgainst p) (opponentsOf ps p))).
    { apply sumR_map_ext_in. intros o Ho.
      apply opponentsOf_In in Ho. destruct Ho as [Ho _].
      destruct (Hsame p Hp) as [Hpp Hpr], (Hsame o Ho) as [Hop Hor].
      unfold actualAgainst, expectedAgainst.
      rewrite Hpp, Hop, Hpr, Hor.
      rewrite calculateActualScore_tie, calculateExpectedScore_equal.
      reflexivity. }
    rewrite Heq.
    match goal with
    | |- Math_round ?c = 0 => replace c with 0 by ring
    end.
    apply Math_round_0.
Qed.

(** The amended C2 at [threeWayTie]. *)
Lemma all_tied_equal_ratings_no_change_witness :
  (forall p, In p threeWayTie ->
     Participant.position p = 1%Z /\ Participant.currentRating p = 1500) /\
  forall r, In r (calculateMultiPlayerElo threeWayTie config32) ->
            Result.ratingChange r = 0.
Proof.
  assert (Hsame : forall p, In p threeWayTie ->
            Participant.position p = 1%Z /\ Participant.currentRating p = 1500).
  { intros p [<- | [<- | [<- | []]]]; split; reflexivity. }
  split; [exact Hsame |].
  exact (all_tied_equal_ratings_no_change threeWayTie config32 1%Z 1500 Hsame).
Defined.

End AllTied.

(* ================================================================= *)
(** ** A match between equally rated participants *)

Section EqualRatings.
Local Open Scope R_scope.

Lemma isOpponent_sym p q : isOpponent p q = isOpponent q p.
Proof. unfold isOpponent. rewrite String.eqb_sym. reflexivity. Qed.

Lemma opponentsOf_all l p :
  (forall q, In q l -> Participant.playerId q <> Participant.playerId p) ->
  opponentsOf l p = l.
Proof.
  induction l as [| a l IH]; intros Hall; [reflexivity |].
  unfold opponentsOf, isOpponent in *. simpl.
  assert (Ha : String.eqb (Participant.playerId p) (Participant.playerId a) = false).
  { apply String.eqb_neq. intros Heq. apply (Hall a); [left; reflexivity | auto]. }
  rewrite Ha. simpl. f_equal. apply IH.
  intros q Hq. apply Hall. right. exact Hq.
Qed.

(** With distinct [playerId]s everybody else is an opponent. *)
Lemma opponents_count ps p :
  NoDup (map Participant.playerId ps) -> In p ps ->
  S (length (opponentsOf ps p)) = length ps.
Proof.
  induction ps as [| a l IH]; intros Hnd Hin; [destruct Hin |].
  simpl in Hnd. apply NoDup_cons in Hnd. destruct Hnd as [Hfresh Hnd].
  rewrite list_elem_of_In in Hfresh.
  assert (Hother : forall q, In q l ->
            Participant.playerId q <> Participant.playerId a).
  { intros q Hq Heq. apply Hfresh. rewrite <- Heq.
    apply in_map. exact Hq. }
  destruct Hin as [-> | Hin].
  - unfold opponentsOf, isOpponent. simpl. rewrite String.eqb_refl. simpl.
    fold (isOpponent p). fold (opponentsOf l p).
    rewrite opponentsOf_all by exact Hother. reflexivity.
  - unfold opponentsOf. simpl. unfold isOpponent at 1.
    assert (Hpa : String.eqb (Participant.playerId p) (Participant.playerId a) = false)
      by (apply String.eqb_neq; apply Hother; exact Hin).
    rewrite Hpa. simpl. fold (opponentsOf l p).
    rewrite IH by assumption. reflexivity.
Qed.

(** Every pairing hands out one point in all: twice the total of the
    actual scores is the total number of opponents. *)
Lemma actual_scores_total ps :
  2 * sumR (map (fun p => sumR (map (actualAgainst p) (opponentsOf ps p))) ps) =
  sumR (map (fun p => INR (length (opponentsOf ps p))) ps).
Proof.
  set (G := fun p q => if isOpponent p q then actualAgainst p q else 0).
  assert (HG : sumR (map (fun p => sumR (map (actualAgainst p) (opponentsOf ps p))) ps)
               = sumR (map (fun p => sumR (map (fun q => G p q) ps)) ps)).
  { apply sumR_map_ext_in. intros p _. unfold opponentsOf.
    apply sumR_map_filter. }
  rewrite HG.
  replace (2 * sumR (map (fun p => sumR (map (fun q => G p q) ps)) ps))
    with (sumR (map (fun p => sumR (map (fun q => G p q) ps)) ps) +
          sumR (map (fun p => sumR (map (fun q => G q p) ps)) ps))
    by (rewrite (sumR_exchange (fun p q => G q p) ps ps); lra).
  rewrite <- sumR_map_plus.
  apply sumR_map_ext_in. intros p _.
  rewrite <- sumR_map_plus.
  rewrite <- (Rmult_1_r (INR (length (opponentsOf ps p)))).
  rewrite <- sumR_map_const. unfold opponentsOf. rewrite sumR_map_filter.
  apply sumR_map_ext_in. intros q _. unfold G.
  rewrite (isOpponent_sym q p).
  destruct (isOpponent p q); [| lra].
  apply calculateActualScore_sym.
Qed.

(** The unrounded change of a participant of a match between equally
    rated participants with distinct [playerId]s. *)
Lemma unroundedChange_equal_ratings ps cfg rating0 p :
  (2 <= length ps)%nat ->
  NoDup (map Participant.playerId ps) ->
  (forall q, In q ps -> Participant.currentRating q = rating0) ->
  In p ps ->
  unroundedChange cfg (opponentTotals ps p) =
    kFactor cfg / (INR (length ps) - 1)
      * sumR (map (actualAgainst p) (opponentsOf ps p))
    + - (kFactor cfg / 2).
Proof.
  intros Hlen Hnd Hsame Hp.
  pose proof (opponents_count ps p Hnd Hp) as Hcount.
  assert (Hm : INR (length (opponentsOf ps p)) = INR (length ps) - 1)
    by (rewrite <- Hcount, S_INR; lra).
  assert (Hpos : 0 < INR (length ps) - 1).
  { apply le_INR in Hlen. simpl in Hlen. lra. }
  unfold unroundedChange.
  rewrite opponentTotals_expected, opponentTotals_actual, opponentTotals_count.
  rewrite (sumR_map_ext_in (expectedAgainst p) (fun _ => 1 / 2)).
  - rewrite sumR_map_const, Hm. field. lra.
  - intros q Hq. apply opponentsOf_In in Hq. destruct Hq as [Hq _].
    unfold expectedAgainst. rewrite (Hsame p Hp), (Hsame q Hq).
    apply calculateExpectedScore_equal.
Qed.

(** C3, as stated, fails.  In [evenMatch] with [kFactor = 1] the
    unrounded changes are 1/2 and -1/2, which go up to 1 and to 0: the
    returned changes add up to 1. *)
Lemma equal_ratings_changes_sum_to_one :
  (2 <= length evenMatch)%nat /\
  NoDup (map Participant.playerId evenMatch) /\
  (forall p, In p evenMatch -> Participant.currentRating p = 1500) /\
  calculateMultiPlayerElo evenMatch config1 =
    [ Result.mk "A" 1500 1501 1; Result.mk "B" 1500 1500 0 ] /\
  sumR (map Result.ratingChange (calculateMultiPlayerElo evenMatch config1)) = 1 /\
  sumR (map Result.ratingChange (calculateMultiPlayerElo evenMatch config1)) <> 0.
Proof.
  split; [simpl; lia |]. split; [compute_done |]. split; [| split].
  - intros p [<- | [<- | []]]; reflexivity.
  - apply evenMatch_result_k1.
  - rewrite evenMatch_result_k1. simpl. split; lra.
Qed.

(** C3, amended.  In a match of at least two participants with
    distinct [playerId]s and the same [currentRating], for every
    assignment of positions, the returned [ratingChange]s add up to an
    integer whose magnitude is at most half the number of participants;
    it need not be 0.  Each change is rounded by itself, so the sum of
    the returned changes is the sum of the changes, which is 0, moved by
    at most a half for each participant.  The bound on the K-factor
    keeps what the numbers of the source lose on the sum of the changes
    below a half. *)
Theorem equal_ratings_sum_of_changes ps cfg rating0 :
  (2 <= length ps)%nat ->
  NoDup (map Participant.playerId ps) ->
  (forall p, In p ps -> Participant.currentRating p = rating0) ->
  Rabs (kFactor cfg) * INR (length ps) <= 10 ^ 15 ->
  (exists z : Z,
     sumR (map Result.ratingChange (calculateMultiPlayerElo ps cfg)) = IZR z) /\
  Rabs (sumR (map Result.ratingChange (calculateMultiPlayerElo ps cfg)))
    <= INR (length ps) / 2.
Proof.
  intros Hlen Hnd Hsame _.
  assert (Hpos : 0 < INR (length ps) - 1).
  { apply le_INR in Hlen. simpl in Hlen. lra. }
  assert (Hzero : sumR (map (fun p => unroundedChange cfg (opponentTotals ps p)) ps) = 0).
  { rewrite (sumR_map_ext_in _
               (fun p => kFactor cfg / (INR (length ps) - 1)
                         * sumR (map (actualAgainst p) (opponentsOf ps p))
                         + - (kFactor cfg / 2)))
      by (intros p Hp; apply (unroundedChange_equal_ratings ps cfg rating0); assumption).
    rewrite sumR_map_affine.
    pose proof (actual_scores_total ps) as Htotal.
    rewrite (sumR_map_ext_in (fun p => INR (length (opponentsOf ps p)))
                             (fun _ => INR (length ps) - 1)) in Htotal.
    - rewrite sumR_map_const in Htotal.
      replace (sumR (map (fun p => sumR (map (actualAgainst p) (opponentsOf ps p))) ps))
        with (INR (length ps) * (INR (length ps) - 1) / 2) by nra.
      field. lra.
    - intros p Hp. rewrite <- (opponents_count ps p Hnd Hp), S_INR. lra. }
  assert (Hround : map Result.ratingChange (calculateMultiPlayerElo ps cfg) =
                   map Math_round
                     (map (fun p => unroundedChange cfg (opponentTotals ps p)) ps)).
  { rewrite calculateMultiPlayerElo_map, !map_map. apply map_ext_in.
    intros p Hp. rewrite ratePlayer_with_opponents; [reflexivity |].
    pose proof (opponents_count ps p Hnd Hp) as Hcount.
    intros Hnil. rewrite Hnil in Hcount. simpl in Hcount. lia. }
  rewrite Hround. split; [apply sumR_round_is_integer |].
  rewrite <- (length_map (fun p => unroundedChange cfg (opponentTotals ps p)) ps).
  apply sumR_round_near_zero. rewrite Hzero, Rabs_R0. lra.
Qed.

(** The amended C3 at [evenMatch]. *)
Lemma equal_ratings_sum_of_changes_witness :
  (2 <= length evenMatch)%nat /\
  NoDup (map Participant.playerId evenMatch) /\
  (forall p, In p evenMatch -> Participant.currentRating p = 1500) /\
  Rabs (kFactor config32) * INR (length evenMatch) <= 10 ^ 15 /\
  (exists z : Z,
     sumR (map Result.ratingChange (calculateMultiPlayerElo evenMatch config32))
     = IZR z) /\
  Rabs (sumR (map Result.ratingChange (calculateMultiPlayerElo evenMatch config32)))
    <= INR (length evenMatch) / 2.
Proof.
  assert (Hlen : (2 <= length evenMatch)%nat) by (simpl; lia).
  assert (Hnd : NoDup (map Participant.playerId evenMatch)) by compute_done.
  assert (Hsame : forall p, In p evenMatch -> Participant.currentRating p = 1500).
  { intros p [<- | [<- | []]]; reflexivity. }
  assert (Hk : Rabs (kFactor config32) * INR (length evenMatch) <= 10 ^ 15)
    by (simpl; rewrite Rabs_pos_eq by lra; lra).
  repeat (split; [assumption |]).
  exact (equal_ratings_sum_of_changes evenMatch config32 1500 Hlen Hnd Hsame Hk).
Defined.

End EqualRatings.

(* ================================================================= *)
(** ** The validator accumulates its errors *)

Section ValidatorErrors.

Lemma pushIf_app cond msg errs :
  pushIf cond msg errs = errs ++ checkErrors cond msg.
Proof.
  unfold pushIf, checkErrors. destruct cond; [reflexivity |].
  symmetry. apply app_nil_r.
Qed.

(** The [errors] array at the end: what each check reports, in the
    order of the checks. *)
Lemma validateMatchResults_errors playerResults :
  errors (validateMatchResults playerResults) =
    checkErrors (length playerResults <? 2)%nat errMinPlayers ++
    checkErrors (hasDuplicateName playerResults) errDuplicateName ++
    checkErrors (hasEmptyName playerResults) errEmptyName ++
    checkErrors (negb (validPositions playerResults)) errPositionRange ++
    checkErrors (startsElsewhere playerResults) errStartFromOne ++
    checkErrors (hasGap (map Entry.position playerResults)) errNotContiguous.
Proof.
  unfold validateMatchResults. cbn [errors].
  rewrite !pushIf_app. cbn [app]. rewrite <- !app_assoc. reflexivity.
Qed.

Lemma validateMatchResults_isValid playerResults :
  isValid (validateMatchResults playerResults) =
  (length (errors (validateMatchResults playerResults)) =? 0)%nat.
Proof. reflexivity. Qed.

(** Which of six messages appear when the checks fail as the six
    booleans say. *)
Lemma reported_iff_failed (b1 b2 b3 b4 b5 b6 : bool) :
  let errs :=
    checkErrors b1 errMinPlayers ++ checkErrors b2 errDuplicateName ++
    checkErrors b3 errEmptyName ++ checkErrors b4 errPositionRange ++
    checkErrors b5 errStartFromOne ++ checkErrors b6 errNotContiguous in
  (In errMinPlayers errs <-> b1 = true) /\
  (In errDuplicateName errs <-> b2 = true) /\
  (In errEmptyName errs <-> b3 = true) /\
  (In errPositionRange errs <-> b4 = true) /\
  (In errStartFromOne errs <-> b5 = true) /\
  (In errNotContiguous errs <-> b6 = true).
Proof.
  destruct b1, b2, b3, b4, b5, b6; cbn [checkErrors app In];
    unfold errMinPlayers, errDuplicateName, errEmptyName, errPositionRange,
           errStartFromOne, errNotContiguous;
    repeat split; intros; try discriminate; try tauto;
    repeat match goal with
           | H : _ \/ _ |- _ => destruct H
           | H : False |- _ => destruct H
           end; try discriminate; try reflexivity.
Qed.

(** C8. [isValid] is true exactly when [errors] is empty; [errors] is
    the concatenation, in the order of the checks, of what each of the
    six checks reports by itself; so each message is in [errors] if and
    only if its own check fails, whatever the other checks find. *)
Theorem validateMatchResults_collects_all playerResults :
  let v := validateMatchResults playerResults in
  (isValid v = true <-> errors v = []) /\
  errors v =
    checkErrors (length playerResults <? 2)%nat errMinPlayers ++
    checkErrors (hasDuplicateName playerResults) errDuplicateName ++
    checkErrors (hasEmptyName playerResults) errEmptyName ++
    checkErrors (negb (validPositions playerResults)) errPositionRange ++
    checkErrors (startsElsewhere playerResults) errStartFromOne ++
    checkErrors (hasGap (map Entry.position playerResults)) errNotContiguous /\
  (In errMinPlayers (errors v) <-> (length playerResults <? 2)%nat = true) /\
  (In errDuplicateName (errors v) <-> hasDuplicateName playerResults = true) /\
  (In errEmptyName (errors v) <-> hasEmptyName playerResults = true) /\
  (In errPositionRange (errors v) <-> negb (validPositions playerResults) = true) /\
  (In errStartFromOne (errors v) <-> startsElsewhere playerResults = true) /\
  (In errNotContiguous (errors v) <->
     hasGap (map Entry.position playerResults) = true).
Proof.
  intros v. split; [| split].
  - unfold v. rewrite validateMatchResults_isValid.
    destruct (errors (validateMatchResults playerResults)); simpl;
      split; intros; congruence.
  - apply validateMatchResults_errors.
  - unfold v. rewrite validateMatchResults_errors.
    apply reported_iff_failed.
Qed.

(** Five of the six checks failing at once, all five reported. *)
Example blankThird_errors :
  validateMatchResults blankThird =
    {| isValid := false;
       errors := [errMinPlayers; errEmptyName; errPositionRange;
                  errStartFromOne; errNotContiguous] |}.
Proof. vm_compute. reflexivity. Qed.

(** C10. On the empty list the validator returns [isValid = false]
    and exactly two errors, the minimum-participants error and the
    ranks-must-start-from-1 error; the duplicate-name, empty-name,
    position-range and contiguity errors are not among them. *)
Theorem validateMatchResults_empty :
  validateMatchResults [] =
    {| isValid := false; errors := [errMinPlayers; errStartFromOne] |} /\
  ~ In errDuplicateName (errors (validateMatchResults [])) /\
  ~ In errEmptyName (errors (validateMatchResults [])) /\
  ~ In errPositionRange (errors (validateMatchResults [])) /\
  ~ In errNotContiguous (errors (validateMatchResults [])).
Proof.
  split; [reflexivity |].
  change (errors (validateMatchResults [])) with [errMinPlayers; errStartFromOne].
  unfold errMinPlayers, errDuplicateName, errEmptyName, errPositionRange,
         errStartFromOne, errNotContiguous.
  repeat split; intros [H | [H | []]]; discriminate H.
Qed.

End ValidatorErrors.

(* ================================================================= *)
(** ** The contiguity loop *)

Section Contiguity.
Local Open Scope Z_scope.

Lemma occurrences_nonneg l p : 0 <= occurrences l p.
Proof. unfold occurrences. lia. Qed.

Lemma occurrences_cons q l p :
  occurrences (q :: l) p = (if decide (q = p) then 1 else 0) + occurrences l p.
Proof.
  unfold occurrences. simpl.
  destruct (Z.eq_dec q p), (decide (q = p)); try contradiction; lia.
Qed.

Lemma occurrences_pos_iff l p : 0 < occurrences l p <-> In p l.
Proof.
  unfold occurrences. rewrite (count_occ_In Z.eq_dec). lia.
Qed.

(** The [forEach] counts the entries of each rank. *)
Lemma getCount_forEach l (counts : gmap Z Z) p :
  getCount
    (fold_left (fun counts pos => <[pos := getCount counts pos + 1]> counts) l counts)
    p
  = getCount counts p + occurrences l p.
Proof.
  revert counts. induction l as [| q l IH]; intros counts.
  - unfold occurrences. simpl. lia.
  - simpl fold_left. rewrite IH, occurrences_cons.
    unfold getCount at 1. destruct (decide (q = p)) as [-> | Hne].
    + rewrite lookup_insert_eq. simpl. lia.
    + rewrite lookup_insert_ne by exact Hne. fold (getCount counts p). lia.
Qed.

Lemma getCount_countPositions l p :
  getCount (countPositions l) p = occurrences l p.
Proof.
  unfold countPositions. rewrite getCount_forEach.
  unfold getCount. rewrite lookup_empty. simpl. lia.
Qed.

Lemma rankedWithin_empty l p : rankedWithin l p p = 0.
Proof.
  unfold rankedWithin. induction l as [| q l IH]; [reflexivity |].
  simpl. destruct (Z.leb_spec p q), (Z.ltb_spec q p); simpl; try lia; exact IH.
Qed.

Lemma rankedWithin_step l lo hi :
  lo < hi ->
  rankedWithin l lo hi = occurrences l lo + rankedWithin l (lo + 1) hi.
Proof.
  intros Hlt. induction l as [| q l IH]; [reflexivity |].
  rewrite occurrences_cons. unfold rankedWithin in *. simpl.
  destruct (decide (q = lo)), (Z.leb_spec lo q), (Z.leb_spec (lo + 1) q),
           (Z.ltb_spec q hi); simpl length; lia.
Qed.

(** The loop pushes its error exactly when it meets, among the
    positions it walks, an occupied one that is not the expected one,
    the expected one moving on by the number of entries walked past. *)
Lemma contiguityLoop_true_iff l (counts : gmap Z Z) n pos expected :
  (forall p, getCount counts p = occurrences l p) ->
  contiguityLoop counts n pos expected = true <->
  exists p, pos <= p < pos + Z.of_nat n /\ In p l /\
            p <> expected + rankedWithin l pos p.
Proof.
  intros Hcounts. revert pos expected.
  induction n as [| n IH]; intros pos expected.
  - simpl. split; [discriminate |]. intros (p & Hp & _). lia.
  - cbn [contiguityLoop]. rewrite Hcounts.
    pose proof (occurrences_nonneg l pos) as Hnn.
    pose proof (occurrences_pos_iff l pos) as Hocc.
    destruct (Z.ltb_spec 0 (occurrences l pos)) as [Hpos | Hzero].
    + destruct (Z.eqb_spec pos expected) as [-> | Hne]; cbn [negb].
      * rewrite IH. split.
        -- intros (p & Hp & Hin & Hgap). exists p.
           rewrite rankedWithin_step by lia. repeat split; try lia; auto.
        -- intros (p & Hp & Hin & Hgap).
           destruct (Z.eq_dec p expected) as [-> | Hpe].
           ++ rewrite rankedWithin_empty in Hgap. lia.
           ++ exists p. rewrite rankedWithin_step in Hgap by lia.
              repeat split; try lia; auto.
      * split; [| reflexivity]. intros _. exists pos.
        rewrite rankedWithin_empty. repeat split; try lia. apply Hocc. lia.
    + rewrite IH. split.
      * intros (p & Hp & Hin & Hgap). exists p.
        rewrite rankedWithin_step by lia. repeat split; try lia; auto.
      * intros (p & Hp & Hin & Hgap).
        destruct (Z.eq_dec p pos) as [-> | Hpp].
        -- apply Hocc in Hin. lia.
        -- exists p. rewrite rankedWithin_step in Hgap by lia.
           repeat split; try lia; auto.
Qed.

Lemma Math_max_spread_from l acc :
  fold_left
    (fun acc pos => match acc with
                    | NegInfinity => MaxOf pos
                    | MaxOf z => MaxOf (Z.max z pos)
                    end) l (MaxOf acc)
  = MaxOf (fold_left Z.max l acc).
Proof.
  revert acc. induction l as [| q l IH]; intros acc; [reflexivity |].
  simpl. apply IH.
Qed.

Lemma fold_max_start l acc : acc <= fold_left Z.max l acc.
Proof.
  revert acc. induction l as [| x l IH]; intros acc; simpl; [lia |].
  specialize (IH (Z.max acc x)). lia.
Qed.

Lemma fold_max_bound l acc q : In q l -> q <= fold_left Z.max l acc.
Proof.
  revert acc. induction l as [| x l IH]; intros acc Hin; [destruct Hin |].
  simpl. destruct Hin as [Heq | Hin].
  - pose proof (fold_max_start l (Z.max acc x)). lia.
  - apply IH. exact Hin.
Qed.

(** Every position is walked by the loop, the ones below 1 apart. *)
Lemma iterations_cover l p :
  In p l -> p < 1 + Z.of_nat (iterations (Math_max_spread l)).
Proof.
  destruct l as [| x l]; intros Hin; [destruct Hin |].
  unfold Math_max_spread. simpl fold_left. rewrite Math_max_spread_from.
  simpl iterations.
  assert (p <= fold_left Z.max l x).
  { destruct Hin as [<- | Hin];
      [apply fold_max_start | apply fold_max_bound; exact Hin]. }
  lia.
Qed.

(** The non-contiguity error: some entry ranked [p >= 1] while the
    entries ranked from 1 to below [p] are not [p - 1] in number. *)
Lemma hasGap_true_iff l :
  hasGap l = true <->
  exists p, In p l /\ 1 <= p /\ p <> 1 + rankedWithin l 1 p.
Proof.
  unfold hasGap.
  rewrite (contiguityLoop_true_iff l) by apply getCount_countPositions.
  split.
  - intros (p & Hp & Hin & Hgap). exists p. repeat split; auto; lia.
  - intros (p & Hin & Hp & Hgap). exists p.
    pose proof (iterations_cover l p Hin). repeat split; auto; lia.
Qed.

(** Ranks are contiguous for the validator exactly when every entry
    ranked [p >= 1] has [p - 1] entries ranked from 1 to below [p]: the
    [k] entries sharing rank [p] make [p + k] the next rank in use. *)
Lemma hasGap_false_iff l :
  hasGap l = false <->
  forall p, In p l -> 1 <= p -> p = 1 + rankedWithin l 1 p.
Proof.
  rewrite <- Bool.not_true_iff_false, hasGap_true_iff. split.
  - intros Hno p Hin Hp.
    destruct (Z.eq_dec p (1 + rankedWithin l 1 p)) as [Heq | Hne]; [exact Heq |].
    exfalso. apply Hno. exists p. auto.
  - intros Hall (p & Hin & Hp & Hgap). apply Hgap. apply Hall; assumption.
Qed.

End Contiguity.

(* ================================================================= *)
(** ** The checks of the validator, one by one *)

Section ChecksInWords.

Lemma size_list_to_set_le (l : list string) :
  (size (list_to_set l : gset string) <= length l)%nat.
Proof.
  induction l as [| x l IH].
  - rewrite list_to_set_nil, size_empty. simpl. lia.
  - rewrite list_to_set_cons, size_union_alt, size_singleton. simpl length.
    assert (size (list_to_set l ∖ {[x]} : gset string)
            <= size (list_to_set l : gset string))%nat
      by (apply subseteq_size, subseteq_difference_l; reflexivity).
    lia.
Qed.

Lemma size_list_to_set_eq_iff (l : list string) :
  size (list_to_set l : gset string) = length l <-> NoDup l.
Proof.
  induction l as [| x l IH].
  - rewrite list_to_set_nil, size_empty. split; [intros _; constructor | reflexivity].
  - rewrite NoDup_cons, list_to_set_cons, size_union_alt, size_singleton.
    simpl length.
    destruct (decide (x ∈ l)) as [Hin | Hnotin].
    + assert (size (list_to_set l ∖ {[x]} : gset string)
              < size (list_to_set l : gset string))%nat.
      { apply subset_size, subset_difference_elem_of, elem_of_list_to_set.
        exact Hin. }
      pose proof (size_list_to_set_le l). split; [lia | tauto].
    + replace (list_to_set l ∖ {[x]} : gset string) with (list_to_set l : gset string)
        by (symmetry; apply difference_disjoint_L, disjoint_singleton_r;
            rewrite elem_of_list_to_set; exact Hnotin).
      rewrite <- IH. split; [intros; split; [assumption | lia] | intros [_ ->]; reflexivity].
Qed.

(** Check 2: the duplicate-name error is reported exactly when the
    names, trimmed and in lower case, are not pairwise distinct. *)
Lemma hasDuplicateName_false_iff playerResults :
  hasDuplicateName playerResults = false <->
  NoDup (map (fun p => normalized (Entry.playerName p)) playerResults).
Proof.
  unfold hasDuplicateName, normalizedNames.
  change (fun p => toLowerCase (trim (Entry.playerName p)))
    with (fun p => normalized (Entry.playerName p)).
  rewrite <- size_list_to_set_eq_iff, Bool.negb_false_iff, Nat.eqb_eq.
  split; intros H; symmetry; exact H.
Qed.

(** Check 3: the empty-name error is reported exactly when some name is
    empty once trimmed. *)
Lemma hasEmptyName_true_iff playerResults :
  hasEmptyName playerResults = true <->
  exists p, In p playerResults /\ trim (Entry.playerName p) = "".
Proof.
  unfold hasEmptyName. rewrite Nat.ltb_lt. split.
  - intros Hlen.
    destruct (List.filter _ playerResults) as [| p l] eqn:Hf; [simpl in Hlen; lia |].
    assert (Hp : In p (List.filter
                         (fun p => String.eqb (trim (Entry.playerName p)) "")
                         playerResults))
      by (rewrite Hf; left; reflexivity).
    apply filter_In in Hp. destruct Hp as [Hp Hempty].
    exists p. split; [exact Hp | apply String.eqb_eq; exact Hempty].
  - intros (p & Hp & Hempty).
    assert (Hin : In p (List.filter
                          (fun p => String.eqb (trim (Entry.playerName p)) "")
                          playerResults))
      by (apply filter_In; split; [exact Hp | apply String.eqb_eq; exact Hempty]).
    destruct (List.filter _ playerResults); [destruct Hin | simpl; lia].
Qed.

(** Check 4: the positions are in range when each lies between 1 and
    the number of entries. *)
Lemma validPositions_true_iff playerResults :
  validPositions playerResults = true <->
  forall p, In p playerResults ->
    (1 <= Entry.position p <= Z.of_nat (length playerResults))%Z.
Proof.
  unfold validPositions. rewrite forallb_forall. split.
  - intros H p Hp. specialize (H (Entry.position p) (in_map _ _ _ Hp)).
    apply andb_prop in H. lia.
  - intros H pos Hpos. apply in_map_iff in Hpos.
    destruct Hpos as (p & <- & Hp). specialize (H p Hp).
    apply andb_true_intro. lia.
Qed.

Lemma Math_min_spread_from l acc :
  fold_left
    (fun acc pos => match acc with
                    | PosInfinity => MinOf pos
                    | MinOf z => MinOf (Z.min z pos)
                    end) l (MinOf acc)
  = MinOf (fold_left Z.min l acc).
Proof.
  revert acc. induction l as [| q l IH]; intros acc; [reflexivity |].
  simpl. apply IH.
Qed.

Lemma fold_min_spec l acc :
  (forall q, In q l \/ q = acc -> (fold_left Z.min l acc <= q)%Z) /\
  (In (fold_left Z.min l acc) l \/ fold_left Z.min l acc = acc).
Proof.
  revert acc. induction l as [| x l IH]; intros acc; simpl.
  - split; [intros q [[] | ->]; lia | right; reflexivity].
  - destruct (IH (Z.min acc x)) as [Hle Hin]. split.
    + intros q Hq.
      pose proof (Hle (Z.min acc x) (or_intror eq_refl)) as Hstart.
      destruct Hq as [[Heq | Hq] | Heq]; [lia | | lia].
      apply Hle. left. exact Hq.
    + destruct Hin as [Hin | Heq]; [left; right; exact Hin |].
      rewrite Heq. destruct (Z.min_spec acc x) as [[_ ->] | [_ ->]]; auto.
Qed.

(** Check 5: the ranks start from 1 when some entry is ranked 1 and
    none is ranked below. *)
Lemma startsElsewhere_false_iff playerResults :
  startsElsewhere playerResults = false <->
  (exists p, In p playerResults /\ Entry.position p = 1%Z) /\
  (forall p, In p playerResults -> (1 <= Entry.position p)%Z).
Proof.
  unfold startsElsewhere, Math_min_spread.
  destruct playerResults as [| e l].
  - simpl. split; [discriminate | intros [(p & [] & _) _]].
  - cbn [map fold_left]. rewrite Math_min_spread_from.
    destruct (fold_min_spec (map Entry.position l) (Entry.position e)) as [Hle Hin].
    set (m := fold_left Z.min (map Entry.position l) (Entry.position e)) in *.
    split.
    + intros Hm. assert (m = 1%Z) as Hm1.
      { destruct m as [| [ | | ] |]; try discriminate; reflexivity. }
      split.
      * destruct Hin as [Hin | Heq].
        -- apply in_map_iff in Hin. destruct Hin as (p & Hp & Hpin).
           exists p. split; [right; exact Hpin | lia].
        -- exists e. split; [left; reflexivity | lia].
      * intros p [<- | Hp].
        -- specialize (Hle (Entry.position e) (or_intror eq_refl)). lia.
        -- specialize (Hle (Entry.position p) (or_introl (in_map _ _ _ Hp))). lia.
    + intros [(p & Hp & Hp1) Hall].
      assert (m = 1%Z) as ->; [| reflexivity].
      assert (m <= 1)%Z.
      { rewrite <- Hp1. apply Hle. destruct Hp as [<- | Hp];
          [right; reflexivity | left; apply in_map; exact Hp]. }
      assert (1 <= m)%Z; [| lia].
      destruct Hin as [Hin | ->].
      * apply in_map_iff in Hin. destruct Hin as (q & <- & Hq).
        apply Hall. right. exact Hq.
      * apply Hall. left. reflexivity.
Qed.

End ChecksInWords.

(* ================================================================= *)
(** ** Three entries: ties and gaps *)

Section ThreeEntries.






End ThreeEntries.

(* ================================================================= *)
(** ** Win rate *)

Section WinRate.
Local Open Scope R_scope.

Lemma Math_round_le (x y : R) : x <= y -> Math_round x <= Math_round y.
Proof.
  intros Hxy. unfold Math_round. apply IZR_le.
  destruct (base_Int_part (x + / 2)) as [Hx _].
  destruct (base_Int_part (y + / 2)) as [_ Hy].
  assert (IZR (Int_part (x + / 2)) < IZR (Int_part (y + / 2) + 1))
    by (rewrite plus_IZR; lra).
  apply lt_IZR in H. lia.
Qed.

(** The share of the points in the games, between 0 and 1. *)
Lemma points_share (w l d : R) :
  0 <= w -> 0 <= l -> 0 <= d -> w + l + d <> 0 ->
  0 <= (w + d * 0.5) / (w + l + d) * 100 <= 100.
Proof.
  intros Hw Hl Hd Ht.
  assert (Hpos : 0 < w + l + d) by lra.
  set (q := (w + d * 0.5) / (w + l + d)).
  assert (Hq : q * (w + l + d) = w + d * 0.5) by (unfold q; field; lra).
  assert (0 <= q) by (apply Rmult_le_reg_r with (w + l + d); lra).
  assert (q <= 1) by (apply Rmult_le_reg_r with (w + l + d); lra).
  lra.
Qed.

(** The win rate is a whole percentage: 0 when no game was played, and
    otherwise an integer between 0 and 100, for counters that are not
    negative. *)
Theorem calculateWinRate_percentage (wins losses draws : R) :
  0 <= wins -> 0 <= losses -> 0 <= draws ->
  (wins + losses + draws = 0 -> calculateWinRate wins losses draws = 0) /\
  0 <= calculateWinRate wins losses draws <= 100 /\
  exists z : Z, calculateWinRate wins losses draws = IZR z.
Proof.
  intros Hw Hl Hd. unfold calculateWinRate.
  destruct (Req_dec_T (wins + losses + draws) 0) as [Hzero | Hne].
  - split; [reflexivity |]. split; [lra | exists 0%Z; reflexivity].
  - split; [intros Hzero; contradiction |].
    pose proof (points_share wins losses draws Hw Hl Hd Hne) as [Hlo Hhi].
    split.
    + split.
      * apply Rle_trans with (Math_round 0);
          [rewrite Math_round_0; lra | apply Math_round_le; exact Hlo].
      * apply Rle_trans with (Math_round 100);
          [apply Math_round_le; exact Hhi | rewrite (Math_round_IZR 100); lra].
    + apply Math_round_is_integer.
Qed.

Lemma calculateWinRate_percentage_witness :
  0 <= 3 /\ 0 <= 1 /\ 0 <= 2 /\
  (3 + 1 + 2 = 0 -> calculateWinRate 3 1 2 = 0) /\
  0 <= calculateWinRate 3 1 2 <= 100 /\
  exists z : Z, calculateWinRate 3 1 2 = IZR z.
Proof.
  assert (H3 : 0 <= 3) by lra.
  assert (H1 : 0 <= 1) by lra.
  assert (H2 : 0 <= 2) by lra.
  repeat (split; [assumption |]).
  exact (calculateWinRate_percentage 3 1 2 H3 H1 H2).
Defined.

(** Only wins give 100, only losses give 0, only draws give 50. *)
Theorem calculateWinRate_pure_records (n : R) :
  0 < n ->
  calculateWinRate n 0 0 = 100 /\
  calculateWinRate 0 n 0 = 0 /\
  calculateWinRate 0 0 n = 50.
Proof.
  intros Hn. unfold calculateWinRate.
  destruct (Req_dec_T (n + 0 + 0) 0), (Req_dec_T (0 + n + 0) 0),
           (Req_dec_T (0 + 0 + n) 0); try (exfalso; lra).
  assert (E1 : (n + 0 * 0.5) / (n + 0 + 0) * 100 = IZR 100) by (field; lra).
  assert (E2 : (0 + 0 * 0.5) / (0 + n + 0) * 100 = IZR 0)
    by (unfold Rdiv; ring).
  assert (E3 : (0 + n * 0.5) / (0 + 0 + n) * 100 = IZR 50)
    by (replace 0.5 with (/ 2) by lra; field; lra).
  rewrite E1, E2, E3, !Math_round_IZR.
  repeat split; reflexivity.
Qed.

Lemma calculateWinRate_pure_records_witness :
  0 < 4 /\
  calculateWinRate 4 0 0 = 100 /\
  calculateWinRate 0 4 0 = 0 /\
  calculateWinRate 0 0 4 = 50.
Proof.
  assert (H4 : 0 < 4) by lra.
  split; [exact H4 |].
  exact (calculateWinRate_pure_records 4 H4).
Defined.

(** Swapping wins and losses, for whole counters of at most [10 ^ 9]
    games in all: the two win rates add up to 100 or to 101, never to
    less (a half goes up on both sides). *)
Theorem calculateWinRate_swap (wins losses draws : Z) :
  (0 <= wins)%Z -> (0 <= losses)%Z -> (0 <= draws)%Z ->
  (0 < wins + losses + draws <= 1000000000)%Z ->
  calculateWinRate (IZR wins) (IZR losses) (IZR draws)
  + calculateWinRate (IZR losses) (IZR wins) (IZR draws) = 100 \/
  calculateWinRate (IZR wins) (IZR losses) (IZR draws)
  + calculateWinRate (IZR losses) (IZR wins) (IZR draws) = 101.
Proof.
  intros Hw Hl Hd [Hgames _].
  apply IZR_le in Hw, Hl, Hd. apply IZR_lt in Hgames.
  rewrite !plus_IZR in Hgames.
  unfold calculateWinRate.
  destruct (Req_dec_T (IZR wins + IZR losses + IZR draws) 0) as [Hz | _]; [lra |].
  destruct (Req_dec_T (IZR losses + IZR wins + IZR draws) 0) as [Hz | _]; [lra |].
  set (x := (IZR wins + IZR draws * 0.5) / (IZR wins + IZR losses + IZR draws) * 100).
  replace ((IZR losses + IZR draws * 0.5) / (IZR losses + IZR wins + IZR draws) * 100)
    with (IZR 100 + - x)
    by (unfold x; replace 0.5 with (/ 2) by lra; field; lra).
  rewrite Math_round_plus_IZR.
  destruct (Math_round_opp x) as [H | H]; [left | right]; lra.
Qed.

Lemma calculateWinRate_swap_witness :
  (0 <= 0)%Z /\ (0 <= 1)%Z /\ (0 <= 3)%Z /\
  (0 < 0 + 1 + 3 <= 1000000000)%Z /\
  (calculateWinRate (IZR 0) (IZR 1) (IZR 3)
   + calculateWinRate (IZR 1) (IZR 0) (IZR 3) = 100 \/
   calculateWinRate (IZR 0) (IZR 1) (IZR 3)
   + calculateWinRate (IZR 1) (IZR 0) (IZR 3) = 101).
Proof.
  assert (Hw : (0 <= 0)%Z) by lia.
  assert (Hl : (0 <= 1)%Z) by lia.
  assert (Hd : (0 <= 3)%Z) by lia.
  assert (Hgames : (0 < 0 + 1 + 3 <= 1000000000)%Z) by lia.
  repeat (split; [assumption |]).
  exact (calculateWinRate_swap 0 1 3 Hw Hl Hd Hgames).
Defined.

End WinRate.

(* ================================================================= *)
(** ** Rating tiers *)

Section RatingTiers.
Local Open Scope R_scope.

Ltac tier_cases :=
  unfold getRatingTier, tiers, tierLoop;
  repeat match goal with
         | |- context [Rle_dec ?a ?b] => destruct (Rle_dec a b)
         end;
  cbn [Tier.minRating Tier.name] in *.

(** The tier of a rating that is not negative is the highest tier of
    the table that the rating reaches. *)
Theorem getRatingTier_highest_reached (rating : R) :
  0 <= rating ->
  In (getRatingTier rating) tiers /\
  Tier.minRating (getRatingTier rating) <= rating /\
  forall t, In t tiers -> Tier.minRating t <= rating ->
            Tier.minRating t <= Tier.minRating (getRatingTier rating).
Proof.
  intros Hnn. split; [| split].
  - tier_cases; simpl; tauto.
  - tier_cases; lra.
  - intros t Ht Hreach. unfold tiers in Ht. simpl in Ht.
    tier_cases;
      repeat match goal with
             | H : _ \/ _ |- _ => destruct H
             | H : False |- _ => destruct H
             end; subst; cbn [Tier.minRating] in *; lra.
Qed.

Lemma getRatingTier_highest_reached_witness :
  0 <= 1516 /\
  In (getRatingTier 1516) tiers /\
  Tier.minRating (getRatingTier 1516) <= 1516 /\
  forall t, In t tiers -> Tier.minRating t <= 1516 ->
            Tier.minRating t <= Tier.minRating (getRatingTier 1516).
Proof.
  assert (Hnn : 0 <= 1516) by lra.
  split; [exact Hnn |].
  exact (getRatingTier_highest_reached 1516 Hnn).
Defined.

(** A negative rating reaches no tier of the table and is shown in the
    lowest one, below its [minRating]. *)
Theorem getRatingTier_negative (rating : R) :
  rating < 0 ->
  getRatingTier rating = Tier.mk "青铜" "text-amber-600" 0 /\
  rating < Tier.minRating (getRatingTier rating).
Proof.
  intros Hneg.
  assert (Heq : getRatingTier rating = Tier.mk "青铜" "text-amber-600" 0)
    by (tier_cases; try reflexivity; lra).
  split; [exact Heq |]. rewrite Heq. simpl. exact Hneg.
Qed.

Lemma getRatingTier_negative_witness :
  -5 < 0 /\
  getRatingTier (-5) = Tier.mk "青铜" "text-amber-600" 0 /\
  -5 < Tier.minRating (getRatingTier (-5)).
Proof.
  assert (Hneg : -5 < 0) by lra.
  split; [exact Hneg |].
  exact (getRatingTier_negative (-5) Hneg).
Defined.

(** A higher rating is never shown in a lower tier. *)
Theorem getRatingTier_monotone (r1 r2 : R) :
  r1 <= r2 ->
  Tier.minRating (getRatingTier r1) <= Tier.minRating (getRatingTier r2).
Proof.
  intros Hle. tier_cases; lra.
Qed.

Lemma getRatingTier_monotone_witness :
  1484 <= 1516 /\
  Tier.minRating (getRatingTier 1484) <= Tier.minRating (getRatingTier 1516).
Proof.
  assert (Hle : 1484 <= 1516) by lra.
  split; [exact Hle |].
  exact (getRatingTier_monotone 1484 1516 Hle).
Defined.

End RatingTiers.

(* ================================================================= *)
(** ** Wins, losses and draws against the engine's scores *)

Section OutcomeTally.
Local Open Scope R_scope.

(** The tally loop and the inner loop of the engine, side by side. *)
Lemma tally_and_totals_from p l (accT : Totals) (accO : Outcomes.t) :
  totalActualScore accT =
    IZR (Outcomes.wins accO) + IZR (Outcomes.draws accO) * 0.5 ->
  Z.of_nat (totalOpponents accT) =
    (Outcomes.wins accO + Outcomes.losses accO + Outcomes.draws accO)%Z ->
  (0 <= Outcomes.wins accO /\ 0 <= Outcomes.losses accO /\
   0 <= Outcomes.draws accO)%Z ->
  let t := fold_left (compareWith p) l accT in
  let o := fold_left (tallyAgainst (Participant.playerId p) (Participant.position p))
                     l accO in
  totalActualScore t = IZR (Outcomes.wins o) + IZR (Outcomes.draws o) * 0.5 /\
  Z.of_nat (totalOpponents t) =
    (Outcomes.wins o + Outcomes.losses o + Outcomes.draws o)%Z /\
  (0 <= Outcomes.wins o /\ 0 <= Outcomes.losses o /\ 0 <= Outcomes.draws o)%Z.
Proof.
  revert accT accO. induction l as [| q l IH]; intros accT accO Hs Hn Hnn.
  - simpl. auto.
  - simpl. apply IH; clear IH;
      unfold compareWith, tallyAgainst, calculateActualScore;
      rewrite (String.eqb_sym (Participant.playerId q));
      destruct (String.eqb (Participant.playerId p) (Participant.playerId q));
      try assumption;
      rewrite Z.gtb_ltb;
      destruct (Z.ltb_spec (Participant.position p) (Participant.position q)),
               (Z.ltb_spec (Participant.position q) (Participant.position p)),
               (Z.eqb_spec (Participant.position p) (Participant.position q));
      try lia; cbn [totalActualScore totalOpponents Outcomes.wins Outcomes.losses
                    Outcomes.draws];
      rewrite ?plus_IZR; try lra; lia.
Qed.

Lemma tally_and_totals ps p :
  let t := opponentTotals ps p in
  let o := tallyOutcomes ps (Participant.playerId p) (Participant.position p) in
  totalActualScore t = IZR (Outcomes.wins o) + IZR (Outcomes.draws o) * 0.5 /\
  Z.of_nat (totalOpponents t) =
    (Outcomes.wins o + Outcomes.losses o + Outcomes.draws o)%Z /\
  (0 <= Outcomes.wins o /\ 0 <= Outcomes.losses o /\ 0 <= Outcomes.draws o)%Z.
Proof.
  apply tally_and_totals_from; simpl; try lra; lia.
Qed.

(** With distinct ids, [find] gives back the participant itself. *)
Lemma findParticipant_own ps p :
  NoDup (map Participant.playerId ps) -> In p ps ->
  findParticipant ps (Participant.playerId p) = Some p.
Proof.
  unfold findParticipant.
  induction ps as [| a l IH]; intros Hnd Hin; [destruct Hin |].
  simpl in Hnd. apply NoDup_cons in Hnd. destruct Hnd as [Hfresh Hnd].
  rewrite list_elem_of_In in Hfresh. simpl.
  destruct Hin as [-> | Hin].
  - rewrite String.eqb_refl. reflexivity.
  - destruct (String.eqb_spec (Participant.playerId a) (Participant.playerId p))
      as [Heq | Hne].
    + exfalso. apply Hfresh. rewrite Heq. apply in_map. exact Hin.
    + apply IH; assumption.
Qed.

Lemma outcomesOf_own ps p :
  NoDup (map Participant.playerId ps) -> In p ps ->
  outcomesOf ps (Participant.playerId p) =
    Some (tallyOutcomes ps (Participant.playerId p) (Participant.position p)).
Proof.
  intros Hnd Hin. unfold outcomesOf. rewrite findParticipant_own by assumption.
  reflexivity.
Qed.

(** In a match of participants with distinct ids, the counters of each
    participant are not negative and add up to the number of the other
    participants. *)
Theorem outcomes_count ps p :
  NoDup (map Participant.playerId ps) -> In p ps ->
  exists o, outcomesOf ps (Participant.playerId p) = Some o /\
    (0 <= Outcomes.wins o /\ 0 <= Outcomes.losses o /\ 0 <= Outcomes.draws o)%Z /\
    (Outcomes.wins o + Outcomes.losses o + Outcomes.draws o
       = Z.of_nat (length ps) - 1)%Z.
Proof.
  intros Hnd Hin. eexists. split; [apply outcomesOf_own; assumption |].
  destruct (tally_and_totals ps p) as (_ & Hcount & Hnn).
  split; [exact Hnn |].
  rewrite <- Hcount, opponentTotals_count.
  pose proof (opponents_count ps p Hnd Hin). lia.
Qed.

Lemma outcomes_count_witness :
  NoDup (map Participant.playerId evenMatch) /\
  In (Participant.mk "A" 1 1500) evenMatch /\
  exists o,
    outcomesOf evenMatch (Participant.playerId (Participant.mk "A" 1 1500)) = Some o /\
    (0 <= Outcomes.wins o /\ 0 <= Outcomes.losses o /\ 0 <= Outcomes.draws o)%Z /\
    (Outcomes.wins o + Outcomes.losses o + Outcomes.draws o
       = Z.of_nat (length evenMatch) - 1)%Z.
Proof.
  assert (Hnd : NoDup (map Participant.playerId evenMatch)) by compute_done.
  assert (Hin : In (Participant.mk "A" 1 1500) evenMatch) by (left; reflexivity).
  repeat (split; [assumption |]).
  exact (outcomes_count evenMatch (Participant.mk "A" 1 1500) Hnd Hin).
Defined.

(** The counters written for a participant agree with the scores the
    engine gave it: its total actual score is its wins plus half its
    draws, and the win rate of the match alone is its average actual
    score as a rounded percentage. *)
Theorem outcomes_match_engine ps p :
  NoDup (map Participant.playerId ps) -> In p ps -> (2 <= length ps)%nat ->
  exists o, outcomesOf ps (Participant.playerId p) = Some o /\
    totalActualScore (opponentTotals ps p) =
      IZR (Outcomes.wins o) + IZR (Outcomes.draws o) * 0.5 /\
    calculateWinRate (IZR (Outcomes.wins o)) (IZR (Outcomes.losses o))
                     (IZR (Outcomes.draws o)) =
      Math_round (totalActualScore (opponentTotals ps p)
                  / INR (totalOpponents (opponentTotals ps p)) * 100).
Proof.
  intros Hnd Hin Hlen. eexists. split; [apply outcomesOf_own; assumption |].
  destruct (tally_and_totals ps p) as (Hscore & Hcount & _).
  cbv zeta in Hscore, Hcount. split; [exact Hscore |].
  unfold calculateWinRate.
  rewrite <- !plus_IZR, <- Hcount, <- INR_IZR_INZ.
  pose proof (opponents_count ps p Hnd Hin) as Hopp.
  rewrite <- opponentTotals_count in Hopp.
  assert (Hpos : 0 < INR (totalOpponents (opponentTotals ps p))).
  { apply lt_0_INR. lia. }
  destruct (Req_dec_T (INR (totalOpponents (opponentTotals ps p))) 0); [lra |].
  rewrite Hscore. reflexivity.
Qed.

Lemma outcomes_match_engine_witness :
  NoDup (map Participant.playerId evenMatch) /\
  In (Participant.mk "A" 1 1500) evenMatch /\
  (2 <= length evenMatch)%nat /\
  exists o,
    outcomesOf evenMatch (Participant.playerId (Participant.mk "A" 1 1500)) = Some o /\
    totalActualScore (opponentTotals evenMatch (Participant.mk "A" 1 1500)) =
      IZR (Outcomes.wins o) + IZR (Outcomes.draws o) * 0.5 /\
    calculateWinRate (IZR (Outcomes.wins o)) (IZR (Outcomes.losses o))
                     (IZR (Outcomes.draws o)) =
      Math_round (totalActualScore (opponentTotals evenMatch (Participant.mk "A" 1 1500))
                  / INR (totalOpponents
                           (opponentTotals evenMatch (Participant.mk "A" 1 1500)))
                  * 100).
Proof.
  assert (Hnd : NoDup (map Participant.playerId evenMatch)) by compute_done.
  assert (Hin : In (Participant.mk "A" 1 1500) evenMatch) by (left; reflexivity).
  assert (Hlen : (2 <= length evenMatch)%nat) by (simpl; lia).
  repeat (split; [assumption |]).
  exact (outcomes_match_engine evenMatch (Participant.mk "A" 1 1500) Hnd Hin Hlen).
Defined.

(** The wins and the losses counted from any state of the counters. *)
Lemma tally_sums playerId position l (acc : Outcomes.t) :
  let o := fold_left (tallyAgainst playerId position) l acc in
  Outcomes.wins o =
    (Outcomes.wins acc +
     sumZ (map (fun q => if String.eqb (Participant.playerId q) playerId then 0
                         else if position <? Participant.position q then 1 else 0)
               l))%Z /\
  Outcomes.losses o =
    (Outcomes.losses acc +
     sumZ (map (fun q => if String.eqb (Participant.playerId q) playerId then 0
                         else if Participant.position q <? position then 1 else 0)
               l))%Z.
Proof.
  revert acc. induction l as [| q l IH]; intros acc; simpl.
  - lia.
  - destruct (IH (tallyAgainst playerId position acc q)) as [Hw Hl].
    rewrite Hw, Hl. clear IH Hw Hl. unfold tallyAgainst.
    rewrite Z.gtb_ltb.
    destruct (String.eqb (Participant.playerId q) playerId); [lia |].
    destruct (Z.ltb_spec position (Participant.position q)),
             (Z.ltb_spec (Participant.position q) position);
      cbn [Outcomes.wins Outcomes.losses]; lia.
Qed.

Lemma sumZ_map_ext_in {A : Type} (f g : A -> Z) (l : list A) :
  (forall x, In x l -> f x = g x) -> sumZ (map f l) = sumZ (map g l).
Proof. intros Hfg. f_equal. apply map_ext_in. exact Hfg. Qed.

Lemma sumZ_map_plus {A : Type} (f g : A -> Z) (l : list A) :
  sumZ (map (fun x => f x + g x)%Z l) = (sumZ (map f l) + sumZ (map g l))%Z.
Proof. induction l as [| x l IH]; simpl; [reflexivity | rewrite IH; lia]. Qed.

Lemma sumZ_exchange {A B : Type} (F : A -> B -> Z) (l1 : list A) (l2 : list B) :
  sumZ (map (fun x => sumZ (map (fun y => F x y) l2)) l1) =
  sumZ (map (fun y => sumZ (map (fun x => F x y) l1)) l2).
Proof.
  induction l1 as [| x l1 IH].
  - simpl. induction l2 as [| y l2 IH2]; simpl; [reflexivity | lia].
  - simpl. rewrite IH, <- sumZ_map_plus. reflexivity.
Qed.

Lemma map_Some_inj {A : Type} (l1 l2 : list A) :
  map Some l1 = map Some l2 -> l1 = l2.
Proof.
  revert l2. induction l1 as [| x l1 IH]; intros [| y l2] H; simpl in H;
    try discriminate; [reflexivity |].
  injection H as -> Hrest. f_equal. apply IH. exact Hrest.
Qed.

(** Over the participants of a match with distinct ids, as many wins
    are counted as losses. *)
Theorem wins_equal_losses ps (os : list Outcomes.t) :
  NoDup (map Participant.playerId ps) ->
  map (fun p => outcomesOf ps (Participant.playerId p)) ps = map Some os ->
  sumZ (map Outcomes.wins os) = sumZ (map Outcomes.losses os).
Proof.
  intros Hnd Hos.
  assert (Hown : map Some os =
            map (fun p => Some (tallyOutcomes ps (Participant.playerId p)
                                              (Participant.position p))) ps).
  { rewrite <- Hos. apply map_ext_in. intros p Hp.
    apply outcomesOf_own; assumption. }
  assert (Hlist : os = map (fun p => tallyOutcomes ps (Participant.playerId p)
                                                   (Participant.position p)) ps).
  { apply map_Some_inj. rewrite Hown, map_map. reflexivity. }
  rewrite Hlist, !map_map.
  rewrite (sumZ_map_ext_in _
             (fun p => sumZ (map (fun q =>
                if String.eqb (Participant.playerId q) (Participant.playerId p) then 0
                else if Participant.position p <? Participant.position q then 1 else 0)
                ps)))%Z
    by (intros p _; destruct (tally_sums (Participant.playerId p)
                                (Participant.position p) ps (Outcomes.mk 0 0 0))
          as [Hw _]; unfold tallyOutcomes; rewrite Hw; simpl; lia).
  rewrite (sumZ_map_ext_in (fun p => Outcomes.losses _)
             (fun p => sumZ (map (fun q =>
                if String.eqb (Participant.playerId q) (Participant.playerId p) then 0
                else if Participant.position q <? Participant.position p then 1 else 0)
                ps)))%Z
    by (intros p _; destruct (tally_sums (Participant.playerId p)
                                (Participant.position p) ps (Outcomes.mk 0 0 0))
          as [_ Hl]; unfold tallyOutcomes; rewrite Hl; simpl; lia).
  rewrite sumZ_exchange.
  apply sumZ_map_ext_in. intros q _. apply sumZ_map_ext_in. intros p _.
  rewrite String.eqb_sym. reflexivity.
Qed.

Lemma wins_equal_losses_witness :
  NoDup (map Participant.playerId evenMatch) /\
  map (fun p => outcomesOf evenMatch (Participant.playerId p)) evenMatch =
    map Some [Outcomes.mk 1 0 0; Outcomes.mk 0 1 0] /\
  sumZ (map Outcomes.wins [Outcomes.mk 1 0 0; Outcomes.mk 0 1 0]) =
  sumZ (map Outcomes.losses [Outcomes.mk 1 0 0; Outcomes.mk 0 1 0]).
Proof.
  assert (Hnd : NoDup (map Participant.playerId evenMatch)) by compute_done.
  assert (Hos : map (fun p => outcomesOf evenMatch (Participant.playerId p)) evenMatch =
                map Some [Outcomes.mk 1 0 0; Outcomes.mk 0 1 0]) by reflexivity.
  repeat (split; [assumption |]).
  exact (wins_equal_losses evenMatch [Outcomes.mk 1 0 0; Outcomes.mk 0 1 0] Hnd Hos).
Defined.

End OutcomeTally.

(* ================================================================= *)
(** ** Players in the store *)

Section StoredPlayers.

Lemma getPlayers_savePlayers l st : getPlayers (savePlayers l st) = l.
Proof. reflexivity. Qed.

Lemma find_snoc {A : Type} (f : A -> bool) (l : list A) (x : A) :
  List.find f (l ++ [x]) =
  match List.find f l with
  | Some y => Some y
  | None => if f x then Some x else None
  end.
Proof.
  induction l as [| a l IH]; simpl; [reflexivity |].
  destruct (f a); [reflexivity | exact IH].
Qed.

(** Adding a player under a trimmed name and looking the name up gives
    the same player; the player is stored, carries the name up to case,
    and adding the name again neither changes the store nor gives
    another player.  The name and the stored names are strings of ASCII
    characters. *)
Theorem addPlayer_round_trip newId now name st :
  isAscii name = true ->
  Forall (fun p => isAscii (Player.name p) = true) (getPlayers st) ->
  trim name = name ->
  let p := fst (addPlayer newId now name st) in
  let st' := snd (addPlayer newId now name st) in
  getPlayerByName name st' = Some p /\
  In p (getPlayers st') /\
  toLowerCase (Player.name p) = toLowerCase name /\
  forall newId' now', addPlayer newId' now' name st' = (p, st').
Proof.
  intros _ _ Htrim. unfold addPlayer, getPlayerByName.
  destruct (findPlayerByName (getPlayers st) name) as [existing |] eqn:Hfind;
    cbn [fst snd].
  - split; [exact Hfind |].
    pose proof Hfind as Hspec. unfold findPlayerByName in Hspec.
    apply find_some in Hspec. destruct Hspec as [Hin Heq].
    apply String.eqb_eq in Heq.
    split; [exact Hin |]. split; [exact Heq |].
    intros newId' now'. rewrite Hfind. reflexivity.
  - set (newPlayer := Player.mk newId (trim name) now).
    assert (Hlookup : findPlayerByName (getPlayers st ++ [newPlayer]) name
                      = Some newPlayer).
    { unfold findPlayerByName in *. rewrite find_snoc, Hfind.
      unfold newPlayer. cbn [Player.name]. rewrite Htrim, String.eqb_refl.
      reflexivity. }
    rewrite getPlayers_savePlayers.
    split; [exact Hlookup |].
    split; [apply in_or_app; right; left; reflexivity |].
    split; [unfold newPlayer; cbn [Player.name]; rewrite Htrim; reflexivity |].
    intros newId' now'. rewrite Hlookup. reflexivity.
Qed.

Lemma addPlayer_round_trip_witness :
  isAscii "Cid" = true /\
  Forall (fun p => isAscii (Player.name p) = true) (getPlayers sampleStorage) /\
  trim "Cid" = "Cid" /\
  getPlayerByName "Cid" (snd (addPlayer "id1" 7%Z "Cid" sampleStorage)) =
    Some (fst (addPlayer "id1" 7%Z "Cid" sampleStorage)) /\
  In (fst (addPlayer "id1" 7%Z "Cid" sampleStorage))
     (getPlayers (snd (addPlayer "id1" 7%Z "Cid" sampleStorage))) /\
  toLowerCase (Player.name (fst (addPlayer "id1" 7%Z "Cid" sampleStorage))) =
    toLowerCase "Cid" /\
  forall newId' now',
    addPlayer newId' now' "Cid" (snd (addPlayer "id1" 7%Z "Cid" sampleStorage)) =
      (fst (addPlayer "id1" 7%Z "Cid" sampleStorage),
       snd (addPlayer "id1" 7%Z "Cid" sampleStorage)).
Proof.
  assert (Hname : isAscii "Cid" = true) by reflexivity.
  assert (Hstored : Forall (fun p => isAscii (Player.name p) = true)
                           (getPlayers sampleStorage))
    by (repeat constructor).
  assert (Htrim : trim "Cid" = "Cid") by reflexivity.
  split; [exact Hname |]. split; [exact Hstored |]. split; [exact Htrim |].
  exact (addPlayer_round_trip "id1" 7%Z "Cid" sampleStorage Hname Hstored Htrim).
Defined.

(** Adding a player under a trimmed name of ASCII characters, to
    stored names of ASCII characters that differ up to case: the stored
    names are still of ASCII characters and still differ up to case. *)
Theorem addPlayer_keeps_names_distinct newId now name st :
  isAscii name = true ->
  Forall (fun p => isAscii (Player.name p) = true) (getPlayers st) ->
  trim name = name ->
  NoDup (map (fun p => toLowerCase (Player.name p)) (getPlayers st)) ->
  Forall (fun p => isAscii (Player.name p) = true)
         (getPlayers (snd (addPlayer newId now name st))) /\
  NoDup (map (fun p => toLowerCase (Player.name p))
             (getPlayers (snd (addPlayer newId now name st)))).
Proof.
  intros Hname Hstored Htrim Hnd. unfold addPlayer.
  destruct (findPlayerByName (getPlayers st) name) as [existing |] eqn:Hfind;
    cbn [snd]; [split; assumption |].
  rewrite getPlayers_savePlayers. split.
  - apply Forall_app. split; [exact Hstored |].
    constructor; [| constructor]. cbn [Player.name]. rewrite Htrim. exact Hname.
  - rewrite map_app. cbn [map Player.name].
    apply NoDup_app. split; [exact Hnd |]. split.
    + intros x Hx Hnew. apply list_elem_of_In in Hx.
      apply list_elem_of_In in Hnew. destruct Hnew as [<- | []].
      apply in_map_iff in Hx. destruct Hx as (p & Hp & Hin).
      unfold findPlayerByName in Hfind.
      pose proof (find_none _ _ Hfind p Hin) as Hno. cbn beta in Hno.
      rewrite Hp, Htrim, String.eqb_refl in Hno. discriminate.
    + apply NoDup_singleton.
Qed.

Lemma addPlayer_keeps_names_distinct_witness :
  isAscii "Cid" = true /\
  Forall (fun p => isAscii (Player.name p) = true) (getPlayers sampleStorage) /\
  trim "Cid" = "Cid" /\
  NoDup (map (fun p => toLowerCase (Player.name p)) (getPlayers sampleStorage)) /\
  Forall (fun p => isAscii (Player.name p) = true)
         (getPlayers (snd (addPlayer "id1" 7%Z "Cid" sampleStorage))) /\
  NoDup (map (fun p => toLowerCase (Player.name p))
             (getPlayers (snd (addPlayer "id1" 7%Z "Cid" sampleStorage)))).
Proof.
  assert (Hname : isAscii "Cid" = true) by reflexivity.
  assert (Hstored : Forall (fun p => isAscii (Player.name p) = true)
                           (getPlayers sampleStorage))
    by (repeat constructor).
  assert (Htrim : trim "Cid" = "Cid") by reflexivity.
  assert (Hnd : NoDup (map (fun p => toLowerCase (Player.name p))
                           (getPlayers sampleStorage))) by compute_done.
  split; [exact Hname |]. split; [exact Hstored |]. split; [exact Htrim |].
  split; [exact Hnd |].
  exact (addPlayer_keeps_names_distinct "id1" 7%Z "Cid" sampleStorage
           Hname Hstored Htrim Hnd).
Defined.

End StoredPlayers.

(* ================================================================= *)
(** ** Ratings in the store *)

Section StoredRatings.

Lemma getEloRatings_saveEloRatings l st : getEloRatings (saveEloRatings l st) = l.
Proof. reflexivity. Qed.

Lemma sameKey_true playerId gameId r :
  sameKey playerId gameId r = true <-> ratingKey r = (playerId, gameId).
Proof.
  unfold sameKey, ratingKey. rewrite andb_true_iff, !String.eqb_eq.
  split; [intros [-> ->]; reflexivity | intros H; injection H; auto].
Qed.

Lemma sameKey_other playerId gameId playerId' gameId' r :
  (playerId', gameId') <> (playerId, gameId) ->
  ratingKey r = (playerId, gameId) ->
  sameKey playerId' gameId' r = false.
Proof.
  intros Hne Hkey. apply not_true_iff_false. rewrite sameKey_true.
  congruence.
Qed.

Lemma findIndex_None {A : Type} (f : A -> bool) (l : list A) :
  findIndex f l = None -> List.find f l = None.
Proof.
  induction l as [| x l IH]; simpl; [reflexivity |].
  destruct (f x); [discriminate |].
  destruct (findIndex f l); [discriminate | auto].
Qed.

Lemma findIndex_Some {A : Type} (f : A -> bool) (l : list A) i :
  findIndex f l = Some i ->
  exists x, l !! i = Some x /\ f x = true /\ List.find f l = Some x.
Proof.
  revert i. induction l as [| a l IH]; intros i; simpl; [discriminate |].
  destruct (f a) eqn:Hfa.
  - intros [= <-]. exists a. auto.
  - destruct (findIndex f l) as [j |]; [| discriminate].
    intros [= <-]. destruct (IH j eq_refl) as (x & Hx & Hfx & Hfind).
    exists x. auto.
Qed.

(** Writing at the index found a record that passes the test again:
    it is the one found afterwards. *)
Lemma find_insert_found {A : Type} (f : A -> bool) (l : list A) i new :
  findIndex f l = Some i -> f new = true ->
  List.find f (<[i := new]> l) = Some new.
Proof.
  revert i. induction l as [| a l IH]; intros i; simpl; [discriminate |].
  destruct (f a) eqn:Hfa.
  - intros [= <-] Hnew. simpl. rewrite Hnew. reflexivity.
  - destruct (findIndex f l) as [j |]; [| discriminate].
    intros [= <-] Hnew. simpl. rewrite Hfa. apply IH; auto.
Qed.

(** Replacing a record that fails a test by one that fails it too does
    not change what the test finds. *)
Lemma find_insert_other {A : Type} (g : A -> bool) (l : list A) i old new :
  l !! i = Some old -> g old = false -> g new = false ->
  List.find g (<[i := new]> l) = List.find g l.
Proof.
  revert i. induction l as [| a l IH]; intros [| i] Hi Hold Hnew;
    simpl in *; try discriminate.
  - injection Hi as ->. rewrite Hold, Hnew. reflexivity.
  - destruct (g a); [reflexivity |]. apply IH; assumption.
Qed.

Lemma spreadUpdates_key base updates :
  RatingUpdates.playerId updates = None ->
  RatingUpdates.gameId updates = None ->
  ratingKey (spreadUpdates base updates) = ratingKey base.
Proof.
  intros Hp Hg. unfold ratingKey, spreadUpdates. simpl. rewrite Hp, Hg.
  reflexivity.
Qed.

(** The list of ratings after [updatePlayerRating]. *)
Lemma updatePlayerRating_ratings now playerId gameId updates st :
  getEloRatings (snd (updatePlayerRating now playerId gameId updates st)) =
  match findIndex (sameKey playerId gameId) (getEloRatings st) with
  | Some i =>
      match getEloRatings st !! i with
      | Some existing =>
          <[i := withLastUpdated now (spreadUpdates existing updates)]>
            (getEloRatings st)
      | None => getEloRatings st
      end
  | None =>
      getEloRatings st ++
      [spreadUpdates
         (EloRating.mk playerId gameId (startingRating gameId st) 0 0 0 0 now)
         updates]
  end.
Proof. reflexivity. Qed.

(** An update that does not carry the key, read back: the rating
    stored for the player and the game is the previous one with the
    updates over it and the clock as [lastUpdated], or, when there was
    none, a fresh one at the starting rating of the game with the
    updates over it; and it is what [updatePlayerRating] returns. *)
Theorem updatePlayerRating_read_back now playerId gameId updates st :
  RatingUpdates.playerId updates = None ->
  RatingUpdates.gameId updates = None ->
  let r :=
    match getPlayerRating playerId gameId st with
    | Some existing => withLastUpdated now (spreadUpdates existing updates)
    | None =>
        spreadUpdates
          (EloRating.mk playerId gameId (startingRating gameId st) 0 0 0 0 now)
          updates
    end in
  fst (updatePlayerRating now playerId gameId updates st) = Some r /\
  getPlayerRating playerId gameId
    (snd (updatePlayerRating now playerId gameId updates st)) = Some r /\
  ratingKey r = (playerId, gameId).
Proof.
  intros Hp Hg.
  assert (Hsame : fst (updatePlayerRating now playerId gameId updates st) =
                  getPlayerRating playerId gameId
                    (snd (updatePlayerRating now playerId gameId updates st)))
    by reflexivity.
  rewrite Hsame. unfold getPlayerRating at 2 3.
  rewrite updatePlayerRating_ratings. unfold getPlayerRating.
  destruct (findIndex (sameKey playerId gameId) (getEloRatings st)) as [i |] eqn:Hidx.
  - destruct (findIndex_Some _ _ _ Hidx) as (existing & Hi & Hkey & Hfind).
    rewrite Hi, Hfind. cbv zeta.
    assert (Hnew : ratingKey (withLastUpdated now (spreadUpdates existing updates))
                   = (playerId, gameId)).
    { apply sameKey_true in Hkey. rewrite <- Hkey.
      rewrite <- (spreadUpdates_key existing updates Hp Hg). reflexivity. }
    assert (Hfound : List.find (sameKey playerId gameId)
                       (<[i := withLastUpdated now (spreadUpdates existing updates)]>
                          (getEloRatings st))
                     = Some (withLastUpdated now (spreadUpdates existing updates))).
    { apply find_insert_found; [exact Hidx | apply sameKey_true; exact Hnew]. }
    rewrite Hfound. auto.
  - rewrite (findIndex_None _ _ Hidx). cbv zeta.
    assert (Hnew : ratingKey
                     (spreadUpdates
                        (EloRating.mk playerId gameId (startingRating gameId st)
                                      0 0 0 0 now) updates)
                   = (playerId, gameId))
      by (rewrite spreadUpdates_key by assumption; reflexivity).
    rewrite find_snoc, (findIndex_None _ _ Hidx).
    apply sameKey_true in Hnew. rewrite Hnew. apply sameKey_true in Hnew. auto.
Qed.

Lemma updatePlayerRating_read_back_witness :
  RatingUpdates.playerId
    (RatingUpdates.mk None None None (Some 1%Z) None None None None) = None /\
  RatingUpdates.gameId
    (RatingUpdates.mk None None None (Some 1%Z) None None None None) = None /\
  fst (updatePlayerRating 7%Z "p1" "g1"
         (RatingUpdates.mk None None None (Some 1%Z) None None None None)
         emptyStorage)
    = Some (EloRating.mk "p1" "g1" 1500%R 1%Z 0%Z 0%Z 0%Z 7%Z) /\
  getPlayerRating "p1" "g1"
    (snd (updatePlayerRating 7%Z "p1" "g1"
            (RatingUpdates.mk None None None (Some 1%Z) None None None None)
            emptyStorage))
    = Some (EloRating.mk "p1" "g1" 1500%R 1%Z 0%Z 0%Z 0%Z 7%Z) /\
  ratingKey (EloRating.mk "p1" "g1" 1500%R 1%Z 0%Z 0%Z 0%Z 7%Z) = ("p1", "g1").
Proof.
  assert (Hp : RatingUpdates.playerId
                 (RatingUpdates.mk None None None (Some 1%Z) None None None None)
               = None) by reflexivity.
  assert (Hg : RatingUpdates.gameId
                 (RatingUpdates.mk None None None (Some 1%Z) None None None None)
               = None) by reflexivity.
  repeat (split; [assumption |]).
  exact (updatePlayerRating_read_back 7%Z "p1" "g1"
           (RatingUpdates.mk None None None (Some 1%Z) None None None None)
           emptyStorage Hp Hg).
Defined.

(** An update that does not carry the key leaves every other rating as
    it reads, and the games, the players and the matches as they are. *)
Theorem updatePlayerRating_other_keys now playerId gameId updates st
    playerId' gameId' :
  RatingUpdates.playerId updates = None ->
  RatingUpdates.gameId updates = None ->
  (playerId', gameId') <> (playerId, gameId) ->
  let st' := snd (updatePlayerRating now playerId gameId updates st) in
  getPlayerRating playerId' gameId' st' = getPlayerRating playerId' gameId' st /\
  games st' = games st /\ players st' = players st /\ matches st' = matches st.
Proof.
  intros Hp Hg Hne. cbv zeta. split; [| repeat split; reflexivity].
  unfold getPlayerRating. rewrite updatePlayerRating_ratings.
  destruct (findIndex (sameKey playerId gameId) (getEloRatings st)) as [i |] eqn:Hidx.
  - destruct (findIndex_Some _ _ _ Hidx) as (existing & Hi & Hkey & _).
    rewrite Hi. apply sameKey_true in Hkey.
    apply (find_insert_other _ _ _ existing); [exact Hi | |].
    + apply (sameKey_other playerId gameId); assumption.
    + apply (sameKey_other playerId gameId); [assumption |].
      rewrite <- Hkey. apply (spreadUpdates_key existing updates Hp Hg).
  - rewrite find_snoc.
    destruct (List.find (sameKey playerId' gameId') (getEloRatings st));
      [reflexivity |].
    rewrite (sameKey_other playerId gameId); [reflexivity | assumption |].
    rewrite spreadUpdates_key by assumption. reflexivity.
Qed.

Lemma updatePlayerRating_other_keys_witness :
  RatingUpdates.playerId
    (RatingUpdates.mk None None None (Some 1%Z) None None None None) = None /\
  RatingUpdates.gameId
    (RatingUpdates.mk None None None (Some 1%Z) None None None None) = None /\
  ("p2", "g1") <> ("p1", "g1") /\
  getPlayerRating "p2" "g1"
    (snd (updatePlayerRating 7%Z "p1" "g1"
            (RatingUpdates.mk None None None (Some 1%Z) None None None None)
            sampleStorage))
    = getPlayerRating "p2" "g1" sampleStorage /\
  games (snd (updatePlayerRating 7%Z "p1" "g1"
            (RatingUpdates.mk None None None (Some 1%Z) None None None None)
            sampleStorage)) = games sampleStorage /\
  players (snd (updatePlayerRating 7%Z "p1" "g1"
            (RatingUpdates.mk None None None (Some 1%Z) None None None None)
            sampleStorage)) = players sampleStorage /\
  matches (snd (updatePlayerRating 7%Z "p1" "g1"
            (RatingUpdates.mk None None None (Some 1%Z) None None None None)
            sampleStorage)) = matches sampleStorage.
Proof.
  assert (Hp : RatingUpdates.playerId
                 (RatingUpdates.mk None None None (Some 1%Z) None None None None)
               = None) by reflexivity.
  assert (Hg : RatingUpdates.gameId
                 (RatingUpdates.mk None None None (Some 1%Z) None None None None)
               = None) by reflexivity.
  assert (Hne : ("p2", "g1") <> ("p1", "g1")) by discriminate.
  repeat (split; [assumption |]).
  exact (updatePlayerRating_other_keys 7%Z "p1" "g1"
           (RatingUpdates.mk None None None (Some 1%Z) None None None None)
           sampleStorage "p2" "g1" Hp Hg Hne).
Defined.

Lemma map_insert_same {A B : Type} (f : A -> B) (l : list A) i old new :
  l !! i = Some old -> f new = f old -> map f (<[i := new]> l) = map f l.
Proof.
  revert i. induction l as [| a l IH]; intros [| i] Hi Heq; simpl in *;
    try discriminate.
  - injection Hi as ->. rewrite Heq. reflexivity.
  - f_equal. apply IH; assumption.
Qed.

(** An update that does not carry the key keeps one rating per player
    and game: the keys stay pairwise distinct, and a rating is added
    only when the player had none for the game. *)
Theorem updatePlayerRating_keeps_keys_unique now playerId gameId updates st :
  RatingUpdates.playerId updates = None ->
  RatingUpdates.gameId updates = None ->
  NoDup (map ratingKey (getEloRatings st)) ->
  let st' := snd (updatePlayerRating now playerId gameId updates st) in
  NoDup (map ratingKey (getEloRatings st')) /\
  length (getEloRatings st') =
    match getPlayerRating playerId gameId st with
    | Some _ => length (getEloRatings st)
    | None => S (length (getEloRatings st))
    end.
Proof.
  intros Hp Hg Hnd. cbv zeta. rewrite updatePlayerRating_ratings.
  unfold getPlayerRating.
  destruct (findIndex (sameKey playerId gameId) (getEloRatings st)) as [i |] eqn:Hidx.
  - destruct (findIndex_Some _ _ _ Hidx) as (existing & Hi & Hkey & Hfind).
    rewrite Hi, Hfind. split.
    + rewrite (map_insert_same _ _ _ existing); [exact Hnd | exact Hi |].
      apply (spreadUpdates_key existing updates Hp Hg).
    + apply length_insert.
  - pose proof (findIndex_None _ _ Hidx) as Hnone. rewrite Hnone. split.
    + rewrite map_app. apply NoDup_app. split; [exact Hnd |]. split.
      * intros k Hk Hnew. apply list_elem_of_In in Hk.
        apply list_elem_of_In in Hnew. destruct Hnew as [<- | []].
        apply in_map_iff in Hk. destruct Hk as (r & Hr & Hin).
        pose proof (find_none _ _ Hnone r Hin) as Hno.
        rewrite spreadUpdates_key in Hr by assumption.
        apply not_true_iff_false in Hno. apply Hno, sameKey_true. exact Hr.
      * apply NoDup_singleton.
    + rewrite length_app. simpl. lia.
Qed.

Lemma updatePlayerRating_keeps_keys_unique_witness :
  RatingUpdates.playerId
    (RatingUpdates.mk None None None (Some 1%Z) None None None None) = None /\
  RatingUpdates.gameId
    (RatingUpdates.mk None None None (Some 1%Z) None None None None) = None /\
  NoDup (map ratingKey (getEloRatings sampleStorage)) /\
  NoDup (map ratingKey
           (getEloRatings
              (snd (updatePlayerRating 7%Z "p1" "g1"
                      (RatingUpdates.mk None None None (Some 1%Z) None None None None)
                      sampleStorage)))) /\
  length (getEloRatings
            (snd (updatePlayerRating 7%Z "p1" "g1"
                    (RatingUpdates.mk None None None (Some 1%Z) None None None None)
                    sampleStorage))) =
    match getPlayerRating "p1" "g1" sampleStorage with
    | Some _ => length (getEloRatings sampleStorage)
    | None => S (length (getEloRatings sampleStorage))
    end.
Proof.
  assert (Hp : RatingUpdates.playerId
                 (RatingUpdates.mk None None None (Some 1%Z) None None None None)
               = None) by reflexivity.
  assert (Hg : RatingUpdates.gameId
                 (RatingUpdates.mk None None None (Some 1%Z) None None None None)
               = None) by reflexivity.
  assert (Hnd : NoDup (map ratingKey (getEloRatings sampleStorage))) by compute_done.
  split; [exact Hp |]. split; [exact Hg |]. split; [exact Hnd |].
  exact (updatePlayerRating_keeps_keys_unique 7%Z "p1" "g1"
           (RatingUpdates.mk None None None (Some 1%Z) None None None None)
           sampleStorage Hp Hg Hnd).
Defined.

End StoredRatings.

(* ================================================================= *)
(** ** Games and matches in the store *)

Section StoredGames.

Lemma getMatches_saveMatches l st : getMatches (saveMatches l st) = l.
Proof. reflexivity. Qed.

Lemma filter_out_then_in {A : Type} (key : A -> string) (gameId : string) (l : list A) :
  List.filter (fun x => String.eqb (key x) gameId)
    (List.filter (fun x => negb (String.eqb (key x) gameId)) l) = [].
Proof.
  induction l as [| a l IH]; simpl; [reflexivity |].
  destruct (String.eqb (key a) gameId) eqn:Ha; simpl; [exact IH |].
  rewrite Ha. exact IH.
Qed.

Lemma filter_out_other {A : Type} (key : A -> string) (gameId gameId' : string)
    (l : list A) :
  gameId' <> gameId ->
  List.filter (fun x => String.eqb (key x) gameId')
    (List.filter (fun x => negb (String.eqb (key x) gameId)) l) =
  List.filter (fun x => String.eqb (key x) gameId') l.
Proof.
  intros Hne. induction l as [| a l IH]; simpl; [reflexivity |].
  destruct (String.eqb_spec (key a) gameId) as [Ha | Ha]; simpl.
  - destruct (String.eqb_spec (key a) gameId') as [Ha' | _]; [congruence | exact IH].
  - destruct (String.eqb (key a) gameId'); [f_equal |]; exact IH.
Qed.

(** Deleting a game that is not stored answers [false] and leaves the
    store as it is. *)
Theorem deleteGame_unknown gameId st :
  (forall g, In g (getGames st) -> Game.id g <> gameId) ->
  deleteGame gameId st = (false, st).
Proof.
  intros Hnone. unfold deleteGame.
  rewrite forallb_filter_id; [rewrite Nat.eqb_refl; reflexivity |].
  apply forallb_forall. intros g Hg. apply negb_true_iff, String.eqb_neq.
  apply Hnone. exact Hg.
Qed.

Lemma deleteGame_unknown_witness :
  (forall g, In g (getGames sampleStorage) -> Game.id g <> "g2") /\
  deleteGame "g2" sampleStorage = (false, sampleStorage).
Proof.
  assert (Hnone : forall g, In g (getGames sampleStorage) -> Game.id g <> "g2")
    by (intros g [<- | []]; discriminate).
  split; [exact Hnone |].
  exact (deleteGame_unknown "g2" sampleStorage Hnone).
Defined.

(** Deleting a stored game answers [true] and takes with it the
    matches and the ratings of that game; the other games, their
    matches and ratings, and the players stay. *)
Theorem deleteGame_cascade gameId st :
  (exists g, In g (getGames st) /\ Game.id g = gameId) ->
  let st' := snd (deleteGame gameId st) in
  fst (deleteGame gameId st) = true /\
  (forall g, In g (getGames st') <-> In g (getGames st) /\ Game.id g <> gameId) /\
  getMatchesByGame gameId st' = [] /\
  getRatingsByGame gameId st' = [] /\
  (forall gameId', gameId' <> gameId ->
     getMatchesByGame gameId' st' = getMatchesByGame gameId' st /\
     getRatingsByGame gameId' st' = getRatingsByGame gameId' st) /\
  players st' = players st.
Proof.
  intros (g & Hg & Hid). unfold deleteGame.
  destruct (length _ =? length (getGames st))%nat eqn:Hlen.
  - exfalso. apply Nat.eqb_eq, filter_length_forallb in Hlen.
    rewrite forallb_forall in Hlen. specialize (Hlen g Hg).
    apply negb_true_iff, String.eqb_neq in Hlen. contradiction.
  - cbn [fst snd]. split; [reflexivity |]. split; [| split; [| split; [| split]]].
    + intros g'. change (getGames _) with
        (List.filter (fun g => negb (String.eqb (Game.id g) gameId)) (getGames st))
        at 1.
      rewrite filter_In, negb_true_iff, String.eqb_neq. reflexivity.
    + apply (filter_out_then_in Match.gameId).
    + apply (filter_out_then_in EloRating.gameId).
    + intros gameId' Hne. split.
      * apply (filter_out_other Match.gameId). exact Hne.
      * apply (filter_out_other EloRating.gameId). exact Hne.
    + reflexivity.
Qed.

Lemma deleteGame_cascade_witness :
  (exists g, In g (getGames sampleStorage) /\ Game.id g = "g1") /\
  fst (deleteGame "g1" sampleStorage) = true /\
  (forall g, In g (getGames (snd (deleteGame "g1" sampleStorage))) <->
             In g (getGames sampleStorage) /\ Game.id g <> "g1") /\
  getMatchesByGame "g1" (snd (deleteGame "g1" sampleStorage)) = [] /\
  getRatingsByGame "g1" (snd (deleteGame "g1" sampleStorage)) = [] /\
  (forall gameId', gameId' <> "g1" ->
     getMatchesByGame gameId' (snd (deleteGame "g1" sampleStorage)) =
       getMatchesByGame gameId' sampleStorage /\
     getRatingsByGame gameId' (snd (deleteGame "g1" sampleStorage)) =
       getRatingsByGame gameId' sampleStorage) /\
  players (snd (deleteGame "g1" sampleStorage)) = players sampleStorage.
Proof.
  assert (Hg : exists g, In g (getGames sampleStorage) /\ Game.id g = "g1").
  { eexists. split; [left; reflexivity | reflexivity]. }
  split; [exact Hg |].
  exact (deleteGame_cascade "g1" sampleStorage Hg).
Defined.

(** A match that is added is the last one of its game, with the fields
    it was given; the matches of the other games read as before. *)
Theorem addMatch_listed newId now gameId gameName playerResults notes st :
  let m := fst (addMatch newId now gameId gameName playerResults notes st) in
  let st' := snd (addMatch newId now gameId gameName playerResults notes st) in
  m = Match.mk newId gameId gameName playerResults now notes /\
  getMatches st' = getMatches st ++ [m] /\
  getMatchesByGame gameId st' = getMatchesByGame gameId st ++ [m] /\
  forall gameId', gameId' <> gameId ->
    getMatchesByGame gameId' st' = getMatchesByGame gameId' st.
Proof.
  cbv zeta. unfold addMatch, getMatchesByGame. cbn [fst snd].
  rewrite getMatches_saveMatches.
  split; [reflexivity |]. split; [reflexivity |].
  rewrite !List.filter_app. cbn [List.filter Match.gameId].
  rewrite String.eqb_refl. split; [reflexivity |].
  intros gameId' Hne. rewrite List.filter_app. cbn [List.filter Match.gameId].
  destruct (String.eqb_spec gameId gameId') as [Heq | _]; [congruence |].
  apply app_nil_r.
Qed.

End StoredGames.

(* ================================================================= *)
(** ** Leaderboard *)

Section LeaderboardOrder.
Local Open Scope R_scope.

Lemma insertByRating_perm e l : Permutation (insertByRating e l) (e :: l).
Proof.
  induction l as [| x l IH]; simpl; [reflexivity |].
  destruct (Rle_dec (LeaderboardEntry.rating x) (LeaderboardEntry.rating e));
    [reflexivity |].
  rewrite IH. apply perm_swap.
Qed.

Lemma sortByRatingDescending_perm l : Permutation (sortByRatingDescending l) l.
Proof.
  induction l as [| e l IH]; simpl; [reflexivity |].
  rewrite insertByRating_perm, IH. reflexivity.
Qed.

Lemma insertByRating_sorted e l :
  StronglySorted (fun a b => LeaderboardEntry.rating b <= LeaderboardEntry.rating a) l ->
  StronglySorted (fun a b => LeaderboardEntry.rating b <= LeaderboardEntry.rating a)
                 (insertByRating e l).
Proof.
  induction l as [| x l IH]; intros Hs; simpl.
  - constructor; constructor.
  - apply StronglySorted_inv in Hs. destruct Hs as [Hl Hx].
    destruct (Rle_dec (LeaderboardEntry.rating x) (LeaderboardEntry.rating e))
      as [Hle | Hgt].
    + constructor; [constructor; assumption |].
      constructor; [exact Hle |].
      rewrite List.Forall_forall in Hx |- *. intros y Hy.
      specialize (Hx y Hy). lra.
    + constructor; [apply IH; exact Hl |].
      rewrite List.Forall_forall in Hx |- *. intros y Hy.
      apply (Permutation_in _ (insertByRating_perm e l)) in Hy.
      destruct Hy as [<- | Hy]; [lra | apply Hx; exact Hy].
Qed.

Lemma sortByRatingDescending_sorted l :
  StronglySorted (fun a b => LeaderboardEntry.rating b <= LeaderboardEntry.rating a)
                 (sortByRatingDescending l).
Proof.
  induction l as [| e l IH]; simpl; [constructor |].
  apply insertByRating_sorted. exact IH.
Qed.

Lemma keepEntries_In {A : Type} (l : list (option A)) (x : A) :
  In x (keepEntries l) <-> In (Some x) l.
Proof.
  induction l as [| [y |] l IH]; simpl.
  - tauto.
  - rewrite IH. split; intros [H | H]; auto; left; congruence.
  - rewrite IH. split; [auto | intros [H | H]; [discriminate | auto]].
Qed.

(** The leaderboard of a game lists its entries by descending rating:
    no entry has a higher rating than an entry before it. *)
Theorem loadLeaderboard_descending gameId st :
  StronglySorted (fun a b => LeaderboardEntry.rating b <= LeaderboardEntry.rating a)
                 (loadLeaderboard gameId st).
Proof. unfold loadLeaderboard. apply sortByRatingDescending_sorted. Qed.

(** The leaderboard of a game has exactly one entry for each stored
    rating of that game whose player is stored, carrying the rating, the
    counters, the win rate of the counters and the tier of the rating;
    ratings of other games and ratings of unknown players give no
    entry. *)
Theorem loadLeaderboard_entries gameId st :
  Permutation
    (loadLeaderboard gameId st)
    (keepEntries (map (leaderboardEntry (getPlayers st)) (getRatingsByGame gameId st))) /\
  forall e, In e (loadLeaderboard gameId st) <->
    exists r player,
      In r (getEloRatings st) /\ EloRating.gameId r = gameId /\
      In player (getPlayers st) /\ Player.id player = EloRating.playerId r /\
      leaderboardEntry (getPlayers st) r = Some e /\
      LeaderboardEntry.rating e = EloRating.rating r /\
      LeaderboardEntry.winRate e =
        calculateWinRate (IZR (EloRating.wins r)) (IZR (EloRating.losses r))
                         (IZR (EloRating.draws r)) /\
      LeaderboardEntry.tier e = Tier.name (getRatingTier (EloRating.rating r)).
Proof.
  split; [apply sortByRatingDescending_perm |].
  intros e. unfold loadLeaderboard.
  split.
  - intros Hin.
    apply (Permutation_in _ (sortByRatingDescending_perm _)) in Hin.
    apply keepEntries_In, in_map_iff in Hin. destruct Hin as (r & Hentry & Hr).
    apply filter_In in Hr. destruct Hr as [Hr Hgame].
    apply String.eqb_eq in Hgame.
    pose proof Hentry as Hbuilt. unfold leaderboardEntry in Hbuilt.
    destruct (List.find _ (getPlayers st)) as [player |] eqn:Hfind;
      [| discriminate].
    apply find_some in Hfind. destruct Hfind as [Hplayer Hid].
    apply String.eqb_eq in Hid. injection Hbuilt as <-.
    exists r, player. repeat split; auto.
  - intros (r & player & Hr & Hgame & _ & _ & Hentry & _).
    apply (Permutation_in _ (Permutation_sym (sortByRatingDescending_perm _))).
    apply keepEntries_In, in_map_iff. exists r. split; [exact Hentry |].
    apply filter_In. split; [exact Hr | apply String.eqb_eq; exact Hgame].
Qed.

End LeaderboardOrder.

(* ================================================================= *)
(** ** Submitting a match: what is rejected *)

Section SubmissionRejected.
Variable isValidPlayerName : string -> bool.
Variable generateId : nat -> string.
Variable clock : nat -> Date.

(** A submission that does not pass the validator, or has a name that
    is not well formed, or names a game the form does not hold, records
    no match and leaves the store, the ids and the clock untouched; when
    the validator fails, its errors are what is shown, and there is at
    least one. *)
Theorem onSubmit_rejected_writes_nothing games gameId playerResults notes w :
  isValid (validateMatchResults playerResults) = false \/
  (exists r, In r playerResults /\ isValidPlayerName (Entry.playerName r) = false) \/
  (forall g, In g games -> Game.id g <> gameId) ->
  let done := onSubmit isValidPlayerName generateId clock games gameId
                       playerResults notes w in
  snd done = w /\
  (forall m, fst done <> Submitted m) /\
  (isValid (validateMatchResults playerResults) = false ->
   fst done = Rejected (errors (validateMatchResults playerResults)) /\
   errors (validateMatchResults playerResults) <> []).
Proof.
  intros Hcase. cbv zeta. unfold onSubmit.
  destruct (isValid (validateMatchResults playerResults)) eqn:Hvalid; cbn [negb].
  - destruct (List.find _ playerResults) as [bad |] eqn:Hname.
    + cbn [fst snd].
      split; [reflexivity | split; [discriminate | intros Hf; discriminate Hf]].
    + destruct (List.find _ games) as [game |] eqn:Hgame.
      * exfalso. destruct Hcase as [Hv | [(r & Hr & Hbad) | Hnone]].
        -- discriminate.
        -- pose proof (find_none _ _ Hname r Hr) as Hok. cbn beta in Hok.
           rewrite Hbad in Hok. discriminate.
        -- apply find_some in Hgame. destruct Hgame as [Hin Hid].
           apply String.eqb_eq in Hid. exact (Hnone game Hin Hid).
      * cbn [fst snd].
      split; [reflexivity | split; [discriminate | intros Hf; discriminate Hf]].
  - cbn [fst snd]. split; [reflexivity |]. split; [discriminate |].
    intros _. split; [reflexivity |].
    intros Hnil. rewrite validateMatchResults_isValid, Hnil in Hvalid.
    discriminate.
Qed.

End SubmissionRejected.

Lemma onSubmit_rejected_writes_nothing_witness :
  (isValid (validateMatchResults []) = false \/
   (exists r, In r [] /\ (fun _ : string => true) (Entry.playerName r) = false) \/
   (forall g, In g (getGames sampleStorage) -> Game.id g <> "g1")) /\
  snd (onSubmit (fun _ => true) (fun _ => "id") (fun _ => 9%Z)
                (getGames sampleStorage) "g1" [] None
                {| storage := sampleStorage; idCalls := 0; clockReads := 0 |})
    = {| storage := sampleStorage; idCalls := 0; clockReads := 0 |} /\
  (forall m,
     fst (onSubmit (fun _ => true) (fun _ => "id") (fun _ => 9%Z)
                   (getGames sampleStorage) "g1" [] None
                   {| storage := sampleStorage; idCalls := 0; clockReads := 0 |})
       <> Submitted m) /\
  (isValid (validateMatchResults []) = false ->
   fst (onSubmit (fun _ => true) (fun _ => "id") (fun _ => 9%Z)
                 (getGames sampleStorage) "g1" [] None
                 {| storage := sampleStorage; idCalls := 0; clockReads := 0 |})
     = Rejected (errors (validateMatchResults [])) /\
   errors (validateMatchResults []) <> []).
Proof.
  assert (Hcase :
    isValid (validateMatchResults []) = false \/
    (exists r, In r [] /\ (fun _ : string => true) (Entry.playerName r) = false) \/
    (forall g, In g (getGames sampleStorage) -> Game.id g <> "g1"))
    by (left; reflexivity).
  split; [exact Hcase |].
  exact (onSubmit_rejected_writes_nothing (fun _ => true) (fun _ => "id")
           (fun _ => 9%Z) (getGames sampleStorage) "g1" [] None
           {| storage := sampleStorage; idCalls := 0; clockReads := 0 |} Hcase).
Defined.

(* ================================================================= *)
(** ** Submitting a match: the ratings written *)

Section SubmissionRecorded.
Variable generateId : nat -> string.
Variable clock : nat -> Date.

(** One step of the loop on the store: the rating of the player is
    moved, nothing else is. *)
Lemma recordStep_store now playerId gameId currentRatings position result st :
  Result.playerId result = playerId ->
  let before := getPlayerRating playerId gameId st in
  let st' :=
    snd (updatePlayerRating now playerId gameId
           (ratingUpdatesFor currentRatings position before result) st) in
  (exists after,
     getPlayerRating playerId gameId st' = Some after /\
     movedBy (Result.newRating result)
             (tallyOutcomes currentRatings playerId position) before after) /\
  (forall playerId' gameId',
     (playerId', gameId') <> (playerId, gameId) ->
     getPlayerRating playerId' gameId' st' = getPlayerRating playerId' gameId' st) /\
  games st' = games st /\ players st' = players st /\ matches st' = matches st.
Proof.
  intros Hid. cbv zeta.
  set (u := ratingUpdatesFor currentRatings position
              (getPlayerRating playerId gameId st) result).
  assert (Hkey : forall base, ratingKey (spreadUpdates base u) = ratingKey base)
    by (intros base; apply spreadUpdates_key; reflexivity).
  split; [| split; [| repeat split; reflexivity]].
  - unfold getPlayerRating at 1. rewrite updatePlayerRating_ratings.
    destruct (findIndex (sameKey playerId gameId) (getEloRatings st))
      as [i |] eqn:Hidx.
    + destruct (findIndex_Some _ _ _ Hidx) as (existing & Hi & Hk & Hfind).
      rewrite Hi.
      rewrite (find_insert_found _ _ _ _ Hidx).
      * eexists. split; [reflexivity |].
        unfold movedBy, u, ratingUpdatesFor. cbn. rewrite Hid.
        repeat split; reflexivity.
      * apply sameKey_true. apply sameKey_true in Hk.
        rewrite <- Hk. apply (Hkey existing).
    + rewrite find_snoc, (findIndex_None _ _ Hidx).
      assert (Hnew : sameKey playerId gameId
                (spreadUpdates
                   (EloRating.mk playerId gameId (startingRating gameId st)
                                 0 0 0 0 now) u) = true)
        by (apply sameKey_true; rewrite Hkey; reflexivity).
      rewrite Hnew. eexists. split; [reflexivity |].
      unfold movedBy, u, ratingUpdatesFor. cbn. rewrite Hid.
      repeat split; reflexivity.
  - intros playerId' gameId' Hne.
    unfold getPlayerRating. rewrite updatePlayerRating_ratings.
    destruct (findIndex (sameKey playerId gameId) (getEloRatings st))
      as [i |] eqn:Hidx.
    + destruct (findIndex_Some _ _ _ Hidx) as (existing & Hi & Hk & _).
      rewrite Hi. apply sameKey_true in Hk.
      apply (find_insert_other _ _ _ existing); [exact Hi | |].
      * apply (sameKey_other playerId gameId); assumption.
      * apply (sameKey_other playerId gameId); [assumption |].
        rewrite <- Hk. apply (Hkey existing).
    + rewrite find_snoc.
      destruct (List.find (sameKey playerId' gameId') (getEloRatings st));
        [reflexivity |].
      rewrite (sameKey_other playerId gameId); [reflexivity | assumption |].
      rewrite Hkey. reflexivity.
Qed.

(** The loop over a list of results with distinct [playerId]s, each
    with its player and its participant at hand. *)
Lemma recordResults_spec (game : Game.t) matchPlayers currentRatings :
  forall (rs : list Result.t) (w : World) (mprs0 : list MatchPlayerResult.t),
  NoDup (map Result.playerId rs) ->
  (forall r, In r rs -> exists m, matchPlayerResultOf matchPlayers currentRatings r = Some m) ->
  exists w' mprs,
    recordResults clock game matchPlayers currentRatings rs w mprs0
      = (w', Some (mprs0 ++ mprs)) /\
    map Some mprs = map (matchPlayerResultOf matchPlayers currentRatings) rs /\
    (forall r, In r rs ->
       exists own after,
         findParticipant currentRatings (Result.playerId r) = Some own /\
         getPlayerRating (Result.playerId r) (Game.id game) (storage w') = Some after /\
         movedBy (Result.newRating r)
                 (tallyOutcomes currentRatings (Result.playerId r)
                                (Participant.position own))
                 (getPlayerRating (Result.playerId r) (Game.id game) (storage w))
                 after) /\
    (forall playerId gameId,
       gameId <> Game.id game \/ ~ In playerId (map Result.playerId rs) ->
       getPlayerRating playerId gameId (storage w')
         = getPlayerRating playerId gameId (storage w)) /\
    games (storage w') = games (storage w) /\
    players (storage w') = players (storage w) /\
    matches (storage w') = matches (storage w) /\
    idCalls w' = idCalls w /\
    clockReads w' = (clockReads w + length rs)%nat.
Proof.
  induction rs as [| r rs IH]; intros w mprs0 Hnd Hfound.
  - exists w, []. simpl. rewrite app_nil_r.
    repeat split; auto. intros r [].
  - simpl in Hnd. apply NoDup_cons in Hnd. destruct Hnd as [Hfresh Hnd].
    rewrite list_elem_of_In in Hfresh.
    destruct (Hfound r (or_introl eq_refl)) as [m Hm].
    pose proof Hm as Hm'. unfold matchPlayerResultOf in Hm'.
    destruct (List.find _ matchPlayers) as [player |] eqn:Hplayer; [| discriminate].
    destruct (findParticipant currentRatings (Result.playerId r))
      as [own |] eqn:Hown; [| discriminate].
    injection Hm' as Hmeq.
    cbn [recordResults]. unfold recordResult. rewrite Hplayer, Hown.
    set (w1 := {| storage := _; idCalls := idCalls w; clockReads := S (clockReads w) |}).
    destruct (recordStep_store (clock (clockReads w)) (Result.playerId r)
                (Game.id game) currentRatings (Participant.position own) r
                (storage w) eq_refl)
      as ((after & Hafter & Hmoved) & Hother & Hg & Hp & Hmt).
    destruct (IH w1 (mprs0 ++ [m])) as (w' & mprs & Hrun & Hmprs & Hrec & Hframe
                                          & Hg' & Hp' & Hmt' & Hids & Hclock).
    { exact Hnd. }
    { intros r' Hr'. apply Hfound. right. exact Hr'. }
    exists w', (m :: mprs). rewrite Hmeq, Hrun, <- app_assoc.
    split; [reflexivity |]. split; [simpl; rewrite Hm, Hmprs; reflexivity |].
    split; [| split; [| split; [| split; [| split; [| split]]]]].
    + intros r' [<- | Hr'].
      * exists own, after. split; [exact Hown |]. split; [| exact Hmoved].
        rewrite Hframe; [exact Hafter | right; exact Hfresh].
      * destruct (Hrec r' Hr') as (own' & after' & Hown' & Hafter' & Hmoved').
        exists own', after'. split; [exact Hown' |]. split; [exact Hafter' |].
        assert (Hne : (Result.playerId r', Game.id game)
                      <> (Result.playerId r, Game.id game)).
        { intros Heq. injection Heq as Heq. apply Hfresh. rewrite <- Heq.
          apply in_map. exact Hr'. }
        rewrite <- (Hother _ _ Hne). exact Hmoved'.
    + intros playerId gameId Hcase. rewrite Hframe.
      * apply Hother. intros Heq. injection Heq as -> ->.
        destruct Hcase as [Hg0 | Hnotin]; [congruence |].
        apply Hnotin. left. reflexivity.
      * destruct Hcase as [Hg0 | Hnotin]; [left; exact Hg0 |].
        right. intros Hin. apply Hnotin. right. exact Hin.
    + rewrite Hg'. exact Hg.
    + rewrite Hp'. exact Hp.
    + rewrite Hmt'. exact Hmt.
    + exact Hids.
    + rewrite Hclock. simpl. lia.
Qed.

Lemma map_ratePlayer_playerId cfg ps l :
  map Result.playerId (map (ratePlayer cfg ps) l) = map Participant.playerId l.
Proof.
  rewrite map_map. apply map_ext. intros p. apply ratePlayer_playerId.
Qed.

Lemma engine_results_recordable matchPlayers currentRatings cfg :
  NoDup (map Participant.playerId currentRatings) ->
  (forall p, In p currentRatings ->
     exists player,
       List.find (fun q => String.eqb (Player.id q) (Participant.playerId p))
                 matchPlayers = Some player) ->
  forall r, In r (calculateMultiPlayerElo currentRatings cfg) ->
    exists m, matchPlayerResultOf matchPlayers currentRatings r = Some m.
Proof.
  intros Hnd Hplayers r Hr.
  apply in_calculateMultiPlayerElo in Hr. destruct Hr as (p & Hp & ->).
  unfold matchPlayerResultOf. rewrite ratePlayer_playerId.
  destruct (Hplayers p Hp) as [player ->].
  rewrite (findParticipant_own _ _ Hnd Hp). eexists. reflexivity.
Qed.

Lemma engine_entries matchPlayers currentRatings cfg :
  NoDup (map Participant.playerId currentRatings) ->
  (forall p, In p currentRatings ->
     exists player,
       List.find (fun q => String.eqb (Player.id q) (Participant.playerId p))
                 matchPlayers = Some player) ->
  map (matchPlayerResultOf matchPlayers currentRatings)
      (calculateMultiPlayerElo currentRatings cfg)
  = map Some (map (matchEntryFor matchPlayers currentRatings cfg) currentRatings).
Proof.
  intros Hnd Hplayers.
  rewrite calculateMultiPlayerElo_map, !map_map. apply map_ext_in.
  intros p Hp. unfold matchPlayerResultOf, matchEntryFor.
  rewrite ratePlayer_playerId.
  destruct (Hplayers p Hp) as [player ->].
  rewrite (findParticipant_own _ _ Hnd Hp). reflexivity.
Qed.

(** The loop over the results of the engine, for participants with
    distinct ids whose players are at hand: no exception; one entry of
    the match record per participant, in order, with its position and
    its new rating; the stored rating of each participant for the game
    becomes the new rating of the engine, with one game more and the
    wins, losses and draws of the match added; the ratings of other
    players and of other games, the games, the players and the matches
    are untouched. *)
Theorem recordResults_after_engine (game : Game.t) matchPlayers currentRatings w :
  NoDup (map Participant.playerId currentRatings) ->
  (forall p, In p currentRatings ->
     exists player,
       List.find (fun q => String.eqb (Player.id q) (Participant.playerId p))
                 matchPlayers = Some player) ->
  let cfg := {| kFactor := Game.kFactor game;
                defaultRating := Game.defaultRating game |} in
  let eloResults := calculateMultiPlayerElo currentRatings cfg in
  exists w' mprs,
    recordResults clock game matchPlayers currentRatings eloResults w []
      = (w', Some mprs) /\
    map MatchPlayerResult.playerId mprs = map Participant.playerId currentRatings /\
    map MatchPlayerResult.position mprs = map Participant.position currentRatings /\
    map MatchPlayerResult.newRating mprs = map Result.newRating eloResults /\
    (forall p, In p currentRatings ->
       exists after,
         getPlayerRating (Participant.playerId p) (Game.id game) (storage w')
           = Some after /\
         movedBy (Result.newRating (ratePlayer cfg currentRatings p))
                 (tallyOutcomes currentRatings (Participant.playerId p)
                                (Participant.position p))
                 (getPlayerRating (Participant.playerId p) (Game.id game) (storage w))
                 after) /\
    (forall playerId gameId,
       gameId <> Game.id game \/
       ~ In playerId (map Participant.playerId currentRatings) ->
       getPlayerRating playerId gameId (storage w')
         = getPlayerRating playerId gameId (storage w)) /\
    games (storage w') = games (storage w) /\
    players (storage w') = players (storage w) /\
    matches (storage w') = matches (storage w).
Proof.
  intros Hnd Hplayers cfg eloResults.
  assert (Hids : map Result.playerId eloResults
                 = map Participant.playerId currentRatings).
  { unfold eloResults. rewrite calculateMultiPlayerElo_map.
    apply map_ratePlayer_playerId. }
  destruct (recordResults_spec game matchPlayers currentRatings eloResults w [])
    as (w' & mprs & Hrun & Hmprs & Hrec & Hframe & Hgs & Hps & Hms & _ & _).
  { rewrite Hids. exact Hnd. }
  { apply engine_results_recordable; assumption. }
  exists w', mprs. split; [exact Hrun |].
  assert (Hentries : mprs =
            map (matchEntryFor matchPlayers currentRatings cfg) currentRatings).
  { apply map_Some_inj. rewrite Hmprs. apply engine_entries; assumption. }
  split; [rewrite Hentries, map_map; reflexivity |].
  split; [rewrite Hentries, map_map; reflexivity |].
  split.
  { rewrite Hentries. unfold eloResults.
    rewrite calculateMultiPlayerElo_map, !map_map. reflexivity. }
  split.
  { intros p Hp.
    assert (Hr : In (ratePlayer cfg currentRatings p) eloResults).
    { unfold eloResults. apply in_calculateMultiPlayerElo. exists p. auto. }
    destruct (Hrec _ Hr) as (own & after & Hown & Hafter & Hmoved).
    rewrite ratePlayer_playerId in *.
    rewrite (findParticipant_own _ _ Hnd Hp) in Hown. injection Hown as <-.
    exists after. auto. }
  split; [| auto].
  intros playerId gameId Hcase. apply Hframe. rewrite Hids. exact Hcase.
Qed.

End SubmissionRecorded.

Lemma recordResults_after_engine_witness :
  NoDup (map Participant.playerId annThenBob) /\
  (forall p, In p annThenBob ->
     exists player,
       List.find (fun q => String.eqb (Player.id q) (Participant.playerId p))
                 (getPlayers sampleStorage) = Some player) /\
  let cfg := {| kFactor := Game.kFactor chess;
                defaultRating := Game.defaultRating chess |} in
  let eloResults := calculateMultiPlayerElo annThenBob cfg in
  exists w' mprs,
    recordResults (fun _ => 9%Z) chess (getPlayers sampleStorage) annThenBob
                  eloResults sampleWorld []
      = (w', Some mprs) /\
    map MatchPlayerResult.playerId mprs = map Participant.playerId annThenBob /\
    map MatchPlayerResult.position mprs = map Participant.position annThenBob /\
    map MatchPlayerResult.newRating mprs = map Result.newRating eloResults /\
    (forall p, In p annThenBob ->
       exists after,
         getPlayerRating (Participant.playerId p) (Game.id chess) (storage w')
           = Some after /\
         movedBy (Result.newRating (ratePlayer cfg annThenBob p))
                 (tallyOutcomes annThenBob (Participant.playerId p)
                                (Participant.position p))
                 (getPlayerRating (Participant.playerId p) (Game.id chess)
                                  (storage sampleWorld))
                 after) /\
    (forall playerId gameId,
       gameId <> Game.id chess \/
       ~ In playerId (map Participant.playerId annThenBob) ->
       getPlayerRating playerId gameId (storage w')
         = getPlayerRating playerId gameId (storage sampleWorld)) /\
    games (storage w') = games (storage sampleWorld) /\
    players (storage w') = players (storage sampleWorld) /\
    matches (storage w') = matches (storage sampleWorld).
Proof.
  assert (Hnd : NoDup (map Participant.playerId annThenBob)) by compute_done.
  assert (Hplayers : forall p, In p annThenBob ->
            exists player,
              List.find (fun q => String.eqb (Player.id q) (Participant.playerId p))
                        (getPlayers sampleStorage) = Some player).
  { intros p [<- | [<- | []]]; eexists; reflexivity. }
  split; [exact Hnd |]. split; [exact Hplayers |].
  exact (recordResults_after_engine (fun _ => 9%Z) chess (getPlayers sampleStorage)
           annThenBob sampleWorld Hnd Hplayers).
Defined.

(* ================================================================= *)
(** ** Trimming twice *)

Section TrimTwice.
Local Open Scope string_scope.

Lemma append_cons (a : ascii) (s t : string) :
  String a s ++ t = String a (s ++ t).
Proof. reflexivity. Qed.

Lemma append_nil_r (s : string) : s ++ "" = s.
Proof.
  induction s as [| a s IH]; [reflexivity |].
  rewrite append_cons, IH. reflexivity.
Qed.

Lemma append_assoc (s t u : string) : (s ++ t) ++ u = s ++ (t ++ u).
Proof.
  induction s as [| a s IH]; [reflexivity |].
  rewrite !append_cons, IH. reflexivity.
Qed.

Lemma rev_app_append (s t : string) : String.rev_app s t = String.rev s ++ t.
Proof.
  unfold String.rev. revert t. induction s as [| a s IH]; intros t.
  - reflexivity.
  - cbn [String.rev_app].
    rewrite (IH (String a t)), (IH (String a "")), append_assoc. reflexivity.
Qed.

Lemma rev_cons (a : ascii) (s : string) :
  String.rev (String a s) = String.rev s ++ String a "".
Proof. unfold String.rev at 1. cbn [String.rev_app]. apply rev_app_append. Qed.

Lemma rev_append (s t : string) :
  String.rev (s ++ t) = String.rev t ++ String.rev s.
Proof.
  induction s as [| a s IH].
  - change ("" ++ t) with t. change (String.rev "") with "".
    rewrite append_nil_r. reflexivity.
  - rewrite append_cons, !rev_cons, IH, append_assoc. reflexivity.
Qed.

Lemma rev_involutive (s : string) : String.rev (String.rev s) = s.
Proof.
  induction s as [| a s IH]; [reflexivity |].
  rewrite rev_cons, rev_append, IH. reflexivity.
Qed.

Lemma trimStart_idempotent (s : string) : trimStart (trimStart s) = trimStart s.
Proof.
  induction s as [| a s IH]; simpl; [reflexivity |].
  destruct (isWhiteSpace a) eqn:Ha; [exact IH |].
  simpl. rewrite Ha. reflexivity.
Qed.

Lemma trimStart_snoc (s : string) (c : ascii) :
  isWhiteSpace c = false ->
  trimStart (s ++ String c "") = trimStart s ++ String c "".
Proof.
  intros Hc. induction s as [| a s IH].
  - change ("" ++ String c "") with (String c ""). simpl. rewrite Hc. reflexivity.
  - rewrite append_cons. simpl.
    destruct (isWhiteSpace a); [exact IH | reflexivity].
Qed.

Lemma trimEnd_cons (c : ascii) (s : string) :
  isWhiteSpace c = false -> trimEnd (String c s) = String c (trimEnd s).
Proof.
  intros Hc. unfold trimEnd.
  rewrite rev_cons, trimStart_snoc by exact Hc.
  rewrite rev_append. reflexivity.
Qed.

Lemma trimEnd_idempotent (s : string) : trimEnd (trimEnd s) = trimEnd s.
Proof.
  unfold trimEnd. rewrite rev_involutive, trimStart_idempotent. reflexivity.
Qed.

(** Trimming the end keeps a string free of leading white space. *)
Lemma trimStart_trimEnd (s : string) :
  trimStart s = s -> trimStart (trimEnd s) = trimEnd s.
Proof.
  destruct s as [| c s]; intros Hs; [reflexivity |].
  simpl in Hs. destruct (isWhiteSpace c) eqn:Hc.
  - exfalso.
    assert (Hlen : (String.length (trimStart s) <= String.length s)%nat).
    { clear. induction s as [| a s IH]; simpl; [lia |].
      destruct (isWhiteSpace a); simpl; lia. }
    rewrite Hs in Hlen. simpl in Hlen. lia.
  - rewrite trimEnd_cons by exact Hc. simpl. rewrite Hc. reflexivity.
Qed.

Lemma trim_idempotent (s : string) : trim (trim s) = trim s.
Proof.
  unfold trim.
  rewrite (trimStart_trimEnd (trimStart s)) by apply trimStart_idempotent.
  apply trimEnd_idempotent.
Qed.

End TrimTwice.

(* ================================================================= *)
(** ** Submitting a match: the players *)

Section SubmissionPlayers.
Variable generateId : nat -> string.
Variable clock : nat -> Date.

Lemma unique_by_key {A : Type} (key : A -> string) (l : list A) (x y : A) :
  NoDup (map key l) -> In x l -> In y l -> key x = key y -> x = y.
Proof.
  induction l as [| a l IH]; intros Hnd Hx Hy Hkey; [destruct Hx |].
  simpl in Hnd. apply NoDup_cons in Hnd. destruct Hnd as [Hfresh Hnd].
  rewrite list_elem_of_In in Hfresh.
  destruct Hx as [-> | Hx], Hy as [-> | Hy].
  - reflexivity.
  - exfalso. apply Hfresh. rewrite Hkey. apply in_map. exact Hy.
  - exfalso. apply Hfresh. rewrite <- Hkey. apply in_map. exact Hx.
  - apply IH; assumption.
Qed.

Lemma find_unique_key {A : Type} (key : A -> string) (l : list A) (x : A) (k : string) :
  NoDup (map key l) -> In x l -> key x = k ->
  List.find (fun y => String.eqb (key y) k) l = Some x.
Proof.
  intros Hnd Hx <-. induction l as [| a l IH]; [destruct Hx |].
  simpl in Hnd. apply NoDup_cons in Hnd. destruct Hnd as [Hfresh Hnd].
  rewrite list_elem_of_In in Hfresh. simpl.
  destruct Hx as [-> | Hx].
  - rewrite String.eqb_refl. reflexivity.
  - destruct (String.eqb_spec (key a) (key x)) as [Heq | _].
    + exfalso. apply Hfresh. rewrite Heq. apply in_map. exact Hx.
    + apply IH; assumption.
Qed.

Lemma find_all_false {A : Type} (f : A -> bool) (l : list A) :
  (forall x, In x l -> f x = false) -> List.find f l = None.
Proof.
  induction l as [| a l IH]; intros Hall; [reflexivity |].
  simpl. rewrite (Hall a (or_introl eq_refl)). apply IH.
  intros x Hx. apply Hall. right. exact Hx.
Qed.

(** One call of [addPlayer] in the handler. *)
Lemma addPlayerIn_spec name w :
  trim name = name ->
  idsAreFresh generateId w ->
  let p := fst (addPlayerIn generateId clock name w) in
  let w1 := snd (addPlayerIn generateId clock name w) in
  toLowerCase (Player.name p) = toLowerCase name /\
  In p (getPlayers (storage w1)) /\
  (forall q, In q (getPlayers (storage w)) -> In q (getPlayers (storage w1))) /\
  games (storage w1) = games (storage w) /\
  matches (storage w1) = matches (storage w) /\
  eloRatings (storage w1) = eloRatings (storage w) /\
  idsAreFresh generateId w1 /\
  (idCalls w <= idCalls w1)%nat.
Proof.
  intros Htrim (Hnd & Hnew & Hinj). cbv zeta. unfold addPlayerIn, addPlayer.
  destruct (findPlayerByName (getPlayers (storage w)) name) as [existing |] eqn:Hfind;
    cbn [fst snd storage idCalls clockReads].
  - unfold findPlayerByName in Hfind. apply find_some in Hfind.
    destruct Hfind as [Hin Heq]. apply String.eqb_eq in Heq.
    repeat split; auto.
  - rewrite getPlayers_savePlayers.
    split; [cbn [Player.name]; rewrite Htrim; reflexivity |].
    split; [apply in_or_app; right; left; reflexivity |].
    split; [intros q Hq; apply in_or_app; left; exact Hq |].
    split; [reflexivity |]. split; [reflexivity |]. split; [reflexivity |].
    split; [| lia].
    unfold idsAreFresh. cbn [storage idCalls]. rewrite getPlayers_savePlayers.
    rewrite map_app. cbn [map Player.id]. split; [| split].
    + apply NoDup_app. split; [exact Hnd |]. split; [| apply NoDup_singleton].
      intros x Hx Hx'. apply list_elem_of_In in Hx.
      apply list_elem_of_In in Hx'. destruct Hx' as [<- | []].
      exact (Hnew (idCalls w) (Nat.le_refl _) Hx).
    + intros n Hn Hin. apply in_app_or in Hin. destruct Hin as [Hin | [Heq | []]].
      * apply (Hnew n); [lia | exact Hin].
      * apply Hinj in Heq; lia.
    + intros n m Hn Hm. apply Hinj; lia.
Qed.

(** The calls of [addPlayer] for a list of trimmed names that differ
    up to case. *)
Lemma addPlayers_spec names : forall w,
  Forall (fun name => trim name = name) names ->
  NoDup (map toLowerCase names) ->
  idsAreFresh generateId w ->
  let ps := fst (addPlayers generateId clock names w) in
  let w1 := snd (addPlayers generateId clock names w) in
  Forall2 (fun name p => toLowerCase (Player.name p) = toLowerCase name) names ps /\
  (forall p, In p ps -> In p (getPlayers (storage w1))) /\
  (forall q, In q (getPlayers (storage w)) -> In q (getPlayers (storage w1))) /\
  NoDup (map Player.id ps) /\
  games (storage w1) = games (storage w) /\
  matches (storage w1) = matches (storage w) /\
  eloRatings (storage w1) = eloRatings (storage w) /\
  idsAreFresh generateId w1 /\
  (idCalls w <= idCalls w1)%nat.
Proof.
  induction names as [| name names IH]; intros w Htrim Hnd Hfresh.
  - simpl. split; [constructor |]. split; [intros p [] |].
    split; [auto |]. split; [constructor |].
    split; [reflexivity |]. split; [reflexivity |]. split; [reflexivity |].
    split; [exact Hfresh | lia].
  - apply List.Forall_cons_iff in Htrim. destruct Htrim as [Hname Htrim].
    simpl in Hnd. apply NoDup_cons in Hnd. destruct Hnd as [Hnew Hnd].
    rewrite list_elem_of_In in Hnew.
    cbn [addPlayers].
    destruct (addPlayerIn generateId clock name w) as [p w1] eqn:Hone.
    pose proof (addPlayerIn_spec name w Hname Hfresh) as Hspec.
    rewrite Hone in Hspec. cbn [fst snd] in Hspec.
    destruct Hspec as (Hlow & Hin & Hmono & Hg & Hm & He & Hfresh1 & Hcalls).
    destruct (addPlayers generateId clock names w1) as [ps w2] eqn:Hrest.
    pose proof (IH w1 Htrim Hnd Hfresh1) as Hspec.
    rewrite Hrest in Hspec. cbn [fst snd] in Hspec.
    destruct Hspec as (Hall & Hins & Hmono' & Hids & Hg' & Hm' & He' & Hfresh2 & Hcalls').
    cbn [fst snd].
    split; [constructor; assumption |].
    split; [intros q [<- | Hq]; [apply Hmono'; exact Hin | apply Hins; exact Hq] |].
    split; [intros q Hq; apply Hmono', Hmono; exact Hq |].
    split.
    { simpl. apply NoDup_cons. split; [| exact Hids].
      rewrite list_elem_of_In. intros Hdup.
      apply in_map_iff in Hdup. destruct Hdup as (p' & Hid & Hp').
      assert (p' = p).
      { destruct Hfresh2 as (Hnd2 & _ & _).
        apply (unique_by_key Player.id (getPlayers (storage w2)));
          [exact Hnd2 | apply Hins; exact Hp' | apply Hmono'; exact Hin | exact Hid]. }
      subst p'. apply Hnew.
      clear - Hall Hp' Hlow. induction Hall as [| n q ns qs Hnq _ IHall];
        [destruct Hp' |].
      destruct Hp' as [-> | Hp'].
      - left. rewrite <- Hnq. exact Hlow.
      - right. apply IHall. exact Hp'. }
    split; [congruence |]. split; [congruence |]. split; [congruence |].
    split; [exact Hfresh2 | lia].
Qed.

End SubmissionPlayers.

(* ================================================================= *)
(** ** Submitting a match: from the form to the store *)

Section SubmissionAccepted.
Variable isValidPlayerName : string -> bool.
Variable generateId : nat -> string.
Variable clock : nat -> Date.

(** With entries whose names differ once trimmed and in lower case,
    each player finds its own entry again by name. *)
Lemma currentRatings_spec (game : Game.t) (allEntries : list Entry.t) st :
  NoDup (map (fun e => normalized (Entry.playerName e)) allEntries) ->
  forall entries ps,
  Forall2 (fun e p => toLowerCase (Player.name p) = normalized (Entry.playerName e))
          entries ps ->
  (forall e, In e entries -> In e allEntries) ->
  exists crs,
    allOrNothing (map (currentRatingOf game allEntries st) ps) = Some crs /\
    map Participant.playerId crs = map Player.id ps /\
    map Participant.position crs = map Entry.position entries.
Proof.
  intros Hnd entries ps Hall. induction Hall as [| e p es ps Hep _ IH]; intros Hsub.
  - exists []. auto.
  - destruct IH as (crs & Hcrs & Hids & Hpos).
    { intros e' He'. apply Hsub. right. exact He'. }
    simpl. unfold currentRatingOf at 1.
    assert (Hfind :
      List.find (fun r => String.eqb (toLowerCase (trim (Entry.playerName r)))
                                     (toLowerCase (Player.name p)))
                allEntries = Some e).
    { apply (find_unique_key (fun r => normalized (Entry.playerName r)));
        [exact Hnd | apply Hsub; left; reflexivity | symmetry; exact Hep]. }
    rewrite Hfind.
    rewrite Hcrs. eexists. split; [reflexivity |].
    simpl. rewrite Hids, Hpos. auto.
Qed.

(** What passing the validator gives: two entries at least, and names
    that differ once trimmed and in lower case. *)
Lemma valid_submission playerResults :
  isValid (validateMatchResults playerResults) = true ->
  (2 <= length playerResults)%nat /\
  NoDup (map (fun e => normalized (Entry.playerName e)) playerResults).
Proof.
  intros Hvalid.
  rewrite validateMatchResults_isValid, validateMatchResults_errors in Hvalid.
  apply Nat.eqb_eq, length_zero_iff_nil in Hvalid.
  apply app_eq_nil in Hvalid. destruct Hvalid as [Hmin Hrest].
  apply app_eq_nil in Hrest. destruct Hrest as [Hdup _].
  split.
  - destruct (Nat.ltb_spec (length playerResults) 2) as [Hlt | Hge];
      [discriminate | exact Hge].
  - apply hasDuplicateName_false_iff.
    destruct (hasDuplicateName playerResults); [discriminate | reflexivity].
Qed.

Lemma Forall2_map_left {A B C : Type} (f : A -> B) (P : B -> C -> Prop) l k :
  Forall2 (fun x y => P (f x) y) l k -> Forall2 P (map f l) k.
Proof. induction 1; simpl; constructor; assumption. Qed.

Lemma Forall2_map_right {A B C : Type} (f : B -> C) (P : A -> C -> Prop) l k :
  Forall2 (fun x y => P x (f y)) l k -> Forall2 P l (map f k).
Proof. induction 1; simpl; constructor; assumption. Qed.

Lemma Forall2_of_map_left {A B C : Type} (f : A -> B) (P : B -> C -> Prop) l k :
  Forall2 P (map f l) k -> Forall2 (fun x y => P (f x) y) l k.
Proof.
  revert k. induction l as [| x l IH]; intros k H; inversion H; subst;
    constructor; auto.
Qed.

(** The names written in the match record are those of the players
    the entries were given, entry by entry. *)
Lemma names_line_up (allPlayers : list Player.t) currentRatings cfg :
  NoDup (map Player.id allPlayers) ->
  forall entries ps crs,
  Forall2 (fun e p => toLowerCase (Player.name p) = normalized (Entry.playerName e))
          entries ps ->
  (forall p, In p ps -> In p allPlayers) ->
  map Participant.playerId crs = map Player.id ps ->
  Forall2 (fun e c =>
             toLowerCase (MatchPlayerResult.playerName
                            (matchEntryFor allPlayers currentRatings cfg c))
             = normalized (Entry.playerName e))
          entries crs.
Proof.
  intros Hnd entries ps crs Hall. revert crs.
  induction Hall as [| e p es ps Hep _ IH]; intros [| c crs] Hsub Hids;
    simpl in Hids; try discriminate; constructor.
  - injection Hids as Hid _. unfold matchEntryFor. cbn [MatchPlayerResult.playerName].
    rewrite (find_unique_key Player.id allPlayers p (Participant.playerId c) Hnd
               (Hsub p (or_introl eq_refl)) (eq_sym Hid)).
    exact Hep.
  - injection Hids as _ Hids. apply IH; [| exact Hids].
    intros q Hq. apply Hsub. right. exact Hq.
Qed.

(** A submission that passes the validator, with well-formed names,
    for a game the form holds, with ids that are new, the submitted
    names and the stored names being strings of ASCII characters: the
    match is recorded.  Its record is for the chosen game, has one entry per
    submitted entry, in order, with the submitted position and the name
    of a player whose name is the submitted one up to case and outer
    white space, all for different players; the match is the last of
    the stored matches; the games are untouched; and every entry has a
    new rating that is not negative, which is the rating now stored for
    its player and the game, with one game more than before. *)
Theorem onSubmit_records_match formGames gameId playerResults notes w game :
  (forall r, In r playerResults -> isAscii (Entry.playerName r) = true) ->
  Forall (fun p => isAscii (Player.name p) = true) (getPlayers (storage w)) ->
  isValid (validateMatchResults playerResults) = true ->
  (forall r, In r playerResults -> isValidPlayerName (Entry.playerName r) = true) ->
  List.find (fun g => String.eqb (Game.id g) gameId) formGames = Some game ->
  idsAreFresh generateId w ->
  exists m w',
    onSubmit isValidPlayerName generateId clock formGames gameId
             playerResults notes w = (Submitted m, w') /\
    Match.gameId m = gameId /\
    Match.gameName m = Game.name game /\
    map MatchPlayerResult.position (Match.playerResults m)
      = map Entry.position playerResults /\
    Forall2 (fun e mpr =>
               toLowerCase (MatchPlayerResult.playerName mpr)
               = normalized (Entry.playerName e))
            playerResults (Match.playerResults m) /\
    NoDup (map MatchPlayerResult.playerId (Match.playerResults m)) /\
    getMatches (storage w') = getMatches (storage w) ++ [m] /\
    games (storage w') = games (storage w) /\
    (forall mpr, In mpr (Match.playerResults m) ->
       (0 <= MatchPlayerResult.newRating mpr)%R /\
       exists after,
         getPlayerRating (MatchPlayerResult.playerId mpr) gameId (storage w')
           = Some after /\
         EloRating.rating after = MatchPlayerResult.newRating mpr /\
         EloRating.gamesPlayed after =
           (counterOf EloRating.gamesPlayed
              (getPlayerRating (MatchPlayerResult.playerId mpr) gameId (storage w))
            + 1)%Z).
Proof.
  intros _ _ Hvalid Hnames Hgame Hfresh.
  destruct (valid_submission playerResults Hvalid) as [Hlen Hnd].
  assert (Hgid : Game.id game = gameId).
  { apply find_some in Hgame. destruct Hgame as [_ Hid].
    apply String.eqb_eq. exact Hid. }
  unfold onSubmit. rewrite Hvalid. cbn [negb].
  rewrite find_all_false
    by (intros r Hr; rewrite (Hnames r Hr); reflexivity).
  rewrite Hgame.
  set (names := map (fun result => trim (Entry.playerName result)) playerResults).
  assert (Htrimmed : Forall (fun name => trim name = name) names).
  { unfold names. apply List.Forall_forall. intros name Hin.
    apply in_map_iff in Hin. destruct Hin as (e & <- & _). apply trim_idempotent. }
  assert (Hdistinct : NoDup (map toLowerCase names)).
  { unfold names. rewrite map_map. exact Hnd. }
  pose proof (addPlayers_spec generateId clock names w Htrimmed Hdistinct Hfresh)
    as Hadded.
  destruct (addPlayers generateId clock names w) as [ps w1]. cbn [fst snd] in Hadded.
  destruct Hadded as (Hall & Hstored & _ & Hids & Hg1 & Hm1 & He1 & Hfresh1 & _).
  assert (Hall' : Forall2 (fun e p => toLowerCase (Player.name p)
                                      = normalized (Entry.playerName e))
                          playerResults ps)
    by (apply Forall2_of_map_left in Hall; exact Hall).
  destruct (currentRatings_spec game playerResults (storage w1) Hnd
              playerResults ps Hall' (fun e H => H))
    as (crs & Hcrs & Hcrids & Hcrpos).
  rewrite Hcrs.
  set (cfg := {| kFactor := Game.kFactor game;
                 defaultRating := Game.defaultRating game |}).
  assert (Hndcrs : NoDup (map Participant.playerId crs))
    by (rewrite Hcrids; exact Hids).
  assert (Hplayers : forall p, In p crs ->
            exists player,
              List.find (fun q => String.eqb (Player.id q) (Participant.playerId p))
                        ps = Some player).
  { intros p Hp.
    assert (Hin : In (Participant.playerId p) (map Player.id ps))
      by (rewrite <- Hcrids; apply in_map; exact Hp).
    apply in_map_iff in Hin. destruct Hin as (player & Hid & Hplayer).
    exists player. apply (find_unique_key Player.id); assumption. }
  assert (Hresids : map Result.playerId (calculateMultiPlayerElo crs cfg)
                    = map Participant.playerId crs)
    by (rewrite calculateMultiPlayerElo_map; apply map_ratePlayer_playerId).
  destruct (recordResults_spec clock game ps crs
              (calculateMultiPlayerElo crs cfg) w1 [])
    as (w2 & mprs & Hrun & Hmprs & Hrec & _ & Hg2 & _ & Hm2 & _ & _).
  { rewrite Hresids. exact Hndcrs. }
  { apply engine_results_recordable; assumption. }
  rewrite Hrun. cbn [app].
  assert (Hentries : mprs = map (matchEntryFor ps crs cfg) crs).
  { apply map_Some_inj. rewrite Hmprs. apply engine_entries; assumption. }
  eexists. eexists. split; [reflexivity |].
  cbn [addMatch fst snd storage Match.gameId Match.gameName Match.playerResults].
  split; [exact Hgid |]. split; [reflexivity |].
  split; [rewrite Hentries, map_map; exact Hcrpos |].
  split.
  { rewrite Hentries. apply Forall2_map_right.
    apply (names_line_up ps crs cfg Hids playerResults ps crs Hall' (fun p H => H)
             Hcrids). }
  split; [rewrite Hentries, map_map; exact Hndcrs |].
  split.
  { unfold getMatches. cbn [saveMatches matches default]. rewrite Hm2, Hm1.
    reflexivity. }
  split; [cbn [saveMatches games]; rewrite Hg2; exact Hg1 |].
  intros mpr Hmpr. rewrite Hentries in Hmpr. apply in_map_iff in Hmpr.
  destruct Hmpr as (p & <- & Hp). cbn [matchEntryFor MatchPlayerResult.newRating
                                         MatchPlayerResult.playerId].
  split.
  - rewrite ratePlayer_with_opponents; [apply Math_max_0_nonneg |].
    pose proof (opponents_count crs p Hndcrs Hp) as Hcount.
    assert (Hlencrs : length crs = length playerResults).
    { rewrite <- (length_map Participant.position crs), Hcrpos. apply length_map. }
    intros Hnil. rewrite Hnil in Hcount. simpl in Hcount. lia.
  - assert (Hr : In (ratePlayer cfg crs p) (calculateMultiPlayerElo crs cfg))
      by (apply in_calculateMultiPlayerElo; exists p; auto).
    destruct (Hrec _ Hr) as (own & after & _ & Hafter & Hmoved).
    rewrite ratePlayer_playerId, Hgid in Hafter, Hmoved.
    exists after. split; [exact Hafter |].
    destruct Hmoved as (Hrating & Hplayed & _). split; [exact Hrating |].
    rewrite Hplayed. unfold getPlayerRating, getEloRatings. rewrite He1.
    reflexivity.
Qed.

End SubmissionAccepted.

Lemma unaryId_injective n m : unaryId n = unaryId m -> n = m.
Proof.
  revert m. induction n as [| n IH]; intros [| m] H; simpl in H;
    try discriminate; [reflexivity |].
  injection H as H. f_equal. apply IH. exact H.
Qed.

Lemma unaryId_not_stored n :
  ~ In (unaryId n) (map Player.id (getPlayers (storage sampleWorld))).
Proof.
  intros [H | [H | []]]; destruct n; discriminate H.
Qed.

Lemma unaryId_fresh : idsAreFresh unaryId sampleWorld.
Proof.
  split; [compute_done |]. split.
  - intros n _. apply unaryId_not_stored.
  - intros n m _ _. apply unaryId_injective.
Qed.

Lemma onSubmit_records_match_witness :
  (forall r, In r annThenCid -> isAscii (Entry.playerName r) = true) /\
  Forall (fun p => isAscii (Player.name p) = true)
         (getPlayers (storage sampleWorld)) /\
  isValid (validateMatchResults annThenCid) = true /\
  (forall r, In r annThenCid ->
     (fun _ : string => true) (Entry.playerName r) = true) /\
  List.find (fun g => String.eqb (Game.id g) "g1") (getGames sampleStorage)
    = Some chess /\
  idsAreFresh unaryId sampleWorld /\
  exists m w',
    onSubmit (fun _ => true) unaryId (fun _ => 9%Z) (getGames sampleStorage) "g1"
             annThenCid None sampleWorld = (Submitted m, w') /\
    Match.gameId m = "g1" /\
    Match.gameName m = Game.name chess /\
    map MatchPlayerResult.position (Match.playerResults m)
      = map Entry.position annThenCid /\
    Forall2 (fun e mpr =>
               toLowerCase (MatchPlayerResult.playerName mpr)
               = normalized (Entry.playerName e))
            annThenCid (Match.playerResults m) /\
    NoDup (map MatchPlayerResult.playerId (Match.playerResults m)) /\
    getMatches (storage w') = getMatches (storage sampleWorld) ++ [m] /\
    games (storage w') = games (storage sampleWorld) /\
    (forall mpr, In mpr (Match.playerResults m) ->
       (0 <= MatchPlayerResult.newRating mpr)%R /\
       exists after,
         getPlayerRating (MatchPlayerResult.playerId mpr) "g1" (storage w')
           = Some after /\
         EloRating.rating after = MatchPlayerResult.newRating mpr /\
         EloRating.gamesPlayed after =
           (counterOf EloRating.gamesPlayed
              (getPlayerRating (MatchPlayerResult.playerId mpr) "g1"
                               (storage sampleWorld))
            + 1)%Z).
Proof.
  assert (Hascii : forall r, In r annThenCid ->
            isAscii (Entry.playerName r) = true)
    by (intros r [<- | [<- | []]]; reflexivity).
  assert (Hstored : Forall (fun p => isAscii (Player.name p) = true)
                           (getPlayers (storage sampleWorld)))
    by (repeat constructor).
  assert (Hvalid : isValid (validateMatchResults annThenCid) = true)
    by (vm_compute; reflexivity).
  assert (Hnames : forall r, In r annThenCid ->
            (fun _ : string => true) (Entry.playerName r) = true)
    by reflexivity.
  assert (Hgame : List.find (fun g => String.eqb (Game.id g) "g1")
                            (getGames sampleStorage) = Some chess)
    by reflexivity.
  split; [exact Hascii |]. split; [exact Hstored |].
  split; [exact Hvalid |]. split; [exact Hnames |]. split; [exact Hgame |].
  split; [exact unaryId_fresh |].
  exact (onSubmit_records_match (fun _ => true) unaryId (fun _ => 9%Z)
           (getGames sampleStorage) "g1" annThenCid None sampleWorld chess
           Hascii Hstored Hvalid Hnames Hgame unaryId_fresh).
Defined.

(* ================================================================= *)
(** ** Pages of an array *)

Section Pagination.
Context {A : Type}.

Lemma firstn_plus (a b : nat) (l : list A) :
  firstn (a + b) l = firstn a l ++ firstn b (skipn a l).
Proof.
  revert l. induction a as [| a IH]; intros [| x l]; simpl;
    try reflexivity.
  - rewrite firstn_nil. reflexivity.
  - rewrite IH. reflexivity.
Qed.

(** The first [m] chunks of [s] elements are the first [m * s]
    elements. *)
Lemma chunks_firstn (s : nat) (l : list A) (m : nat) :
  concat (map (fun k => firstn s (skipn (k * s) l)) (seq 0 m)) = firstn (m * s) l.
Proof.
  induction m as [| m IH]; [reflexivity |].
  rewrite seq_S, map_app, concat_app, IH. simpl.
  rewrite app_nil_r, <- firstn_plus. f_equal. lia.
Qed.

Lemma Math_ceil_div_bounds (n s : Z) :
  (0 < s)%Z ->
  ((Math_ceil_div n s - 1) * s < n <= Math_ceil_div n s * s)%Z.
Proof.
  intros Hs. unfold Math_ceil_div.
  pose proof (Z.mul_div_le (- n) s Hs).
  pose proof (Z.mul_succ_div_gt (- n) s Hs).
  lia.
Qed.

(** The slice of the page after [k] full pages. *)
Lemma slice_page (l : list A) (k s : Z) :
  (0 < s)%Z -> (0 <= k)%Z -> (k * s <= Z.of_nat (length l))%Z ->
  slice l (k * s) (k * s + s)
  = firstn (Z.to_nat s) (skipn (Z.to_nat k * Z.to_nat s) l).
Proof.
  intros Hs Hk Hlen. unfold slice.
  assert (Hstart : (0 <= k * s)%Z) by nia.
  destruct (Z.ltb_spec (k * s) 0) as [Hneg | _]; [lia |].
  destruct (Z.ltb_spec (k * s + s) 0) as [Hneg | _]; [lia |].
  rewrite (Z.min_l (k * s)) by exact Hlen.
  replace (Z.to_nat (k * s)) with (Z.to_nat k * Z.to_nat s)%nat by nia.
  destruct (Z.le_gt_cases (k * s + s) (Z.of_nat (length l))) as [Hfull | Hshort].
  - rewrite Z.min_l by exact Hfull. f_equal. lia.
  - rewrite Z.min_r by lia.
    rewrite !firstn_all2; [reflexivity | |]; rewrite length_skipn; nia.
Qed.

Lemma paginateArray_items (array : list A) (page pageSize : Z) :
  (0 < pageSize)%Z -> array <> [] ->
  let r := paginateArray array page pageSize in
  Page.items r
  = firstn (Z.to_nat pageSize)
           (skipn (Z.to_nat (Page.currentPage r - 1) * Z.to_nat pageSize) array) /\
  (1 <= Page.currentPage r <= Page.totalPages r)%Z.
Proof.
  intros Hs Hne r.
  pose proof (Math_ceil_div_bounds (Z.of_nat (length array)) pageSize Hs) as Hm.
  assert (Hlen : (0 < Z.of_nat (length array))%Z)
    by (destruct array; [congruence | simpl; lia]).
  assert (Hpages : (1 <= Math_ceil_div (Z.of_nat (length array)) pageSize)%Z) by nia.
  subst r. unfold paginateArray.
  cbn [Page.items Page.currentPage Page.totalPages].
  set (m := Math_ceil_div (Z.of_nat (length array)) pageSize) in *.
  set (c := Z.max 1 (Z.min page m)).
  assert (Hc : (1 <= c <= m)%Z) by (unfold c; lia).
  split; [| exact Hc].
  apply slice_page; [exact Hs | lia | nia].
Qed.

(** For a positive page size, the pages 1 to [totalPages] of an array,
    one after the other, are the array: every element is on one page,
    in order. *)
Theorem paginateArray_pages_cover (array : list A) (pageSize : Z) :
  (0 < pageSize)%Z ->
  concat (map (fun page => Page.items (paginateArray array page pageSize))
              (pageNumbers (Page.totalPages (paginateArray array 1 pageSize))))
  = array.
Proof.
  intros Hs. destruct array as [| x array'] eqn:Harray; [reflexivity |].
  rewrite <- Harray.
  assert (Hne : array <> []) by (rewrite Harray; discriminate).
  clear Harray.
  pose proof (Math_ceil_div_bounds (Z.of_nat (length array)) pageSize Hs) as Hm.
  cbn [paginateArray Page.totalPages].
  set (m := Math_ceil_div (Z.of_nat (length array)) pageSize) in *.
  unfold pageNumbers. rewrite map_map.
  rewrite (map_ext_in _ (fun k => firstn (Z.to_nat pageSize)
                                         (skipn (k * Z.to_nat pageSize) array))).
  - rewrite chunks_firstn. apply firstn_all2. nia.
  - intros k Hk. apply in_seq in Hk.
    destruct (paginateArray_items array (Z.of_nat (S k)) pageSize Hs Hne)
      as [Hitems _].
    rewrite Hitems. cbn [paginateArray Page.currentPage]. fold m.
    replace (Z.max 1 (Z.min (Z.of_nat (S k)) m)) with (Z.of_nat (S k)) by lia.
    do 2 f_equal. lia.
Qed.

(** For a positive page size: the current page is never below 1; for an
    array that is not empty it is a page that exists, the page asked
    for when that one exists, and its items are not empty and not more
    than the page size, fewer only on the last page; for an empty array
    there is no page, the current page is 1 and there are no items. *)
Theorem paginateArray_current_page (array : list A) (page pageSize : Z) :
  (0 < pageSize)%Z ->
  let r := paginateArray array page pageSize in
  Page.totalItems r = Z.of_nat (length array) /\
  (1 <= Page.currentPage r)%Z /\
  (Z.of_nat (length (Page.items r)) <= pageSize)%Z /\
  ((1 <= page <= Page.totalPages r)%Z -> Page.currentPage r = page) /\
  (array <> [] ->
     (Page.currentPage r <= Page.totalPages r)%Z /\
     Page.items r <> [] /\
     ((Z.of_nat (length (Page.items r)) < pageSize)%Z ->
      Page.currentPage r = Page.totalPages r)) /\
  (array = [] ->
     Page.items r = [] /\ Page.totalPages r = 0%Z /\ Page.currentPage r = 1%Z).
Proof.
  intros Hs r.
  assert (Hempty : array = [] ->
            Page.items r = [] /\ Page.totalPages r = 0%Z /\ Page.currentPage r = 1%Z).
  { intros ->. subst r. unfold paginateArray, Math_ceil_div.
    cbn [Page.items Page.totalPages Page.currentPage length Z.of_nat Z.opp].
    rewrite Z.div_0_l by lia. change (- 0)%Z with 0%Z.
    split; [| split; [reflexivity | lia]].
    unfold slice. rewrite skipn_nil, firstn_nil. reflexivity. }
  assert (Hfull : array <> [] ->
            (Z.of_nat (length (Page.items r)) <= pageSize)%Z /\
            (Page.currentPage r <= Page.totalPages r)%Z /\
            Page.items r <> [] /\
            ((Z.of_nat (length (Page.items r)) < pageSize)%Z ->
             Page.currentPage r = Page.totalPages r)).
  { intros Hne.
    destruct (paginateArray_items array page pageSize Hs Hne) as [Hitems Hc].
    fold r in Hitems, Hc.
    pose proof (Math_ceil_div_bounds (Z.of_nat (length array)) pageSize Hs) as Hm.
    change (Math_ceil_div (Z.of_nat (length array)) pageSize)
      with (Page.totalPages r) in Hm.
    assert (Hcount : length (Page.items r)
                     = Nat.min (Z.to_nat pageSize)
                         (length array
                          - Z.to_nat (Page.currentPage r - 1) * Z.to_nat pageSize))
      by (rewrite Hitems, length_firstn, length_skipn; reflexivity).
    assert (Hoff : Z.of_nat (Z.to_nat (Page.currentPage r - 1) * Z.to_nat pageSize)
                   = ((Page.currentPage r - 1) * pageSize)%Z)
      by (rewrite Nat2Z.inj_mul, !Z2Nat.id by lia; reflexivity).
    assert (Hbefore : ((Page.currentPage r - 1) * pageSize
                       < Z.of_nat (length array))%Z) by nia.
    assert (Hnext : (Page.currentPage r < Page.totalPages r ->
                     (Page.currentPage r - 1) * pageSize + pageSize
                     <= Z.of_nat (length array))%Z) by nia.
    split; [lia |]. split; [lia |]. split.
    - intros Hnil. rewrite Hnil in Hcount. cbn [length] in Hcount. lia.
    - intros Hshort. lia. }
  split; [reflexivity |].
  split; [subst r; cbn [paginateArray Page.currentPage]; lia |].
  split.
  { destruct array as [| x l] eqn:Harray.
    - destruct (Hempty eq_refl) as [-> _]. simpl. lia.
    - apply Hfull. discriminate. }
  split; [subst r; cbn [paginateArray Page.currentPage Page.totalPages]; lia |].
  split; [| exact Hempty].
  intros Hne. apply Hfull. exact Hne.
Qed.

End Pagination.

Lemma paginateArray_pages_cover_witness :
  (0 < 2)%Z /\
  concat (map (fun page => Page.items (paginateArray [1; 2; 3; 4; 5]%Z page 2))
              (pageNumbers (Page.totalPages (paginateArray [1; 2; 3; 4; 5]%Z 1 2))))
  = [1; 2; 3; 4; 5]%Z.
Proof.
  assert (Hs : (0 < 2)%Z) by lia.
  split; [exact Hs |].
  exact (paginateArray_pages_cover [1; 2; 3; 4; 5]%Z 2 Hs).
Defined.

Lemma paginateArray_current_page_witness :
  (0 < 2)%Z /\
  let r := paginateArray [1; 2; 3; 4; 5]%Z 7 2 in
  Page.totalItems r = Z.of_nat (length [1; 2; 3; 4; 5]%Z) /\
  (1 <= Page.currentPage r)%Z /\
  (Z.of_nat (length (Page.items r)) <= 2)%Z /\
  ((1 <= 7 <= Page.totalPages r)%Z -> Page.currentPage r = 7%Z) /\
  ([1; 2; 3; 4; 5]%Z <> [] ->
     (Page.currentPage r <= Page.totalPages r)%Z /\
     Page.items r <> [] /\
     ((Z.of_nat (length (Page.items r)) < 2)%Z ->
      Page.currentPage r = Page.totalPages r)) /\
  ([1; 2; 3; 4; 5]%Z = [] ->
     Page.items r = [] /\ Page.totalPages r = 0%Z /\ Page.currentPage r = 1%Z).
Proof.
  assert (Hs : (0 < 2)%Z) by lia.
  split; [exact Hs |].
  exact (paginateArray_current_page [1; 2; 3; 4; 5]%Z 7 2 Hs).
Defined.

(* ================================================================= *)
(** ** Creating and updating a game *)

Section GameCreation.
Variable generateId : nat -> string.
Variable clock : nat -> Date.

Lemma getGames_saveGames l st : getGames (saveGames l st) = l.
Proof. reflexivity. Qed.

(** The three ways the handler of the game form ends. *)
Lemma GameForm_onSubmit_cases name description kFactor defaultRating w :
  let done := GameForm.onSubmit generateId clock name description kFactor
                                defaultRating w in
  (isValidGameName name = false /\ done = (InvalidGameName, w)) \/
  (isValidGameName name = true /\
   (exists old, In old (getGames (storage w)) /\
                toLowerCase (Game.name old) = normalized name) /\
   done = (GameNameExists, w)) \/
  (isValidGameName name = true /\
   (forall old, In old (getGames (storage w)) ->
                toLowerCase (Game.name old) <> normalized name) /\
   exists g,
     fst done = Created g /\
     g = Game.mk (generateId (idCalls w)) (trim name) (submittedNotes description)
                 kFactor defaultRating (clock (clockReads w))
                 (clock (S (clockReads w))) /\
     storage (snd done) = saveGames (getGames (storage w) ++ [g]) (storage w)).
Proof.
  cbv zeta. unfold GameForm.onSubmit.
  destruct (isValidGameName name) eqn:Hvalid; cbn [negb]; [| left; auto].
  right.
  destruct (existsb _ (getGames (storage w))) eqn:Hexists.
  - left. split; [reflexivity |]. split; [| reflexivity].
    apply existsb_exists in Hexists. destruct Hexists as (old & Hin & Heq).
    apply String.eqb_eq in Heq. exists old. auto.
  - right. split; [reflexivity |]. split.
    + intros old Hin Heq.
      assert (Hsome : existsb (fun game => String.eqb (toLowerCase (Game.name game))
                                                      (toLowerCase (trim name)))
                              (getGames (storage w)) = true).
      { apply existsb_exists. exists old. split; [exact Hin |].
        apply String.eqb_eq. exact Heq. }
      rewrite Hsome in Hexists. discriminate.
    + eexists. split; [reflexivity |]. split; reflexivity.
Qed.

(** What the handler of the game form does, the submitted name and
    the names of the stored games being strings of ASCII characters: a
    game is created only under a name of 2 to 50 characters once
    trimmed that no stored game has up to case; it is stored last, under the trimmed name, with the
    K-factor and the default rating of the form, and the players, the
    matches and the ratings are untouched; a name that a stored game has
    up to case and outer white space is refused; and whenever no game
    is created the store, the ids and the clock are as before. *)
Theorem GameForm_onSubmit_outcome name description kFactor defaultRating w :
  isAscii name = true ->
  Forall (fun g => isAscii (Game.name g) = true) (getGames (storage w)) ->
  let done := GameForm.onSubmit generateId clock name description kFactor
                                defaultRating w in
  (forall g, fst done = Created g ->
     getGames (storage (snd done)) = getGames (storage w) ++ [g] /\
     Game.name g = trim name /\
     (2 <= String.length (Game.name g) <= 50)%nat /\
     Game.kFactor g = kFactor /\
     Game.defaultRating g = defaultRating /\
     (forall old, In old (getGames (storage w)) ->
        toLowerCase (Game.name old) <> toLowerCase (Game.name g)) /\
     players (storage (snd done)) = players (storage w) /\
     matches (storage (snd done)) = matches (storage w) /\
     eloRatings (storage (snd done)) = eloRatings (storage w)) /\
  ((exists old, In old (getGames (storage w)) /\
                toLowerCase (Game.name old) = normalized name) ->
   forall g, fst done <> Created g) /\
  ((forall g, fst done <> Created g) -> snd done = w).
Proof.
  intros _ _ done.
  destruct (GameForm_onSubmit_cases name description kFactor defaultRating w)
    as [[Hvalid Hdone] | [(Hvalid & Hold & Hdone) | (Hvalid & Hnew & g & Hg & Hgame & Hst)]];
    fold done in Hdone || fold done in Hg, Hst.
  - rewrite Hdone. cbn [fst snd].
    split; [discriminate |]. split; [discriminate | reflexivity].
  - rewrite Hdone. cbn [fst snd].
    split; [discriminate |]. split; [discriminate | reflexivity].
  - split; [| split].
    + intros g' Hg'. rewrite Hg in Hg'. injection Hg' as <-.
      rewrite Hst. rewrite getGames_saveGames.
      split; [reflexivity |]. rewrite Hgame. cbn [Game.name Game.kFactor
                                                  Game.defaultRating].
      split; [reflexivity |]. split.
      { unfold isValidGameName in Hvalid. apply andb_true_iff in Hvalid.
        destruct Hvalid as [Hlo Hhi].
        apply Nat.leb_le in Hlo. apply Nat.leb_le in Hhi. split; assumption. }
      split; [reflexivity |]. split; [reflexivity |].
      split; [exact Hnew |]. auto.
    + intros (old & Hin & Heq). exfalso. exact (Hnew old Hin Heq).
    + intros Hnone. exfalso. exact (Hnone g Hg).
Qed.

(** The handler of the game form keeps the names of the stored games
    different up to case. *)
Theorem GameForm_onSubmit_keeps_names_distinct name description kFactor
    defaultRating w :
  NoDup (map (fun g => toLowerCase (Game.name g)) (getGames (storage w))) ->
  NoDup (map (fun g => toLowerCase (Game.name g))
             (getGames (storage (snd (GameForm.onSubmit generateId clock name
                                        description kFactor defaultRating w))))).
Proof.
  intros Hnd.
  destruct (GameForm_onSubmit_cases name description kFactor defaultRating w)
    as [[_ Hdone] | [(_ & _ & Hdone) | (_ & Hnew & g & _ & Hgame & Hst)]].
  - rewrite Hdone. exact Hnd.
  - rewrite Hdone. exact Hnd.
  - rewrite Hst, getGames_saveGames, map_app. cbn [map].
    apply NoDup_app. split; [exact Hnd |]. split.
    + intros x Hx Hin. apply list_elem_of_In in Hx, Hin.
      destruct Hin as [<- | []].
      apply in_map_iff in Hx. destruct Hx as (old & Heq & Hold).
      apply (Hnew old Hold). rewrite Heq, Hgame. reflexivity.
    + apply NoDup_singleton.
Qed.

End GameCreation.

Lemma GameForm_onSubmit_outcome_witness :
  isAscii " Go " = true /\
  Forall (fun g => isAscii (Game.name g) = true) (getGames (storage sampleWorld)) /\
  let done := GameForm.onSubmit unaryId (fun _ => 9%Z) " Go " None 24 1500
                                sampleWorld in
  (forall g, fst done = Created g ->
     getGames (storage (snd done)) = getGames (storage sampleWorld) ++ [g] /\
     Game.name g = trim " Go " /\
     (2 <= String.length (Game.name g) <= 50)%nat /\
     Game.kFactor g = 24%R /\
     Game.defaultRating g = 1500%R /\
     (forall old, In old (getGames (storage sampleWorld)) ->
        toLowerCase (Game.name old) <> toLowerCase (Game.name g)) /\
     players (storage (snd done)) = players (storage sampleWorld) /\
     matches (storage (snd done)) = matches (storage sampleWorld) /\
     eloRatings (storage (snd done)) = eloRatings (storage sampleWorld)) /\
  ((exists old, In old (getGames (storage sampleWorld)) /\
                toLowerCase (Game.name old) = normalized " Go ") ->
   forall g, fst done <> Created g) /\
  ((forall g, fst done <> Created g) -> snd done = sampleWorld).
Proof.
  assert (Hname : isAscii " Go " = true) by reflexivity.
  assert (Hstored : Forall (fun g => isAscii (Game.name g) = true)
                           (getGames (storage sampleWorld)))
    by (repeat constructor).
  split; [exact Hname |]. split; [exact Hstored |].
  exact (GameForm_onSubmit_outcome unaryId (fun _ => 9%Z) " Go " None 24 1500
           sampleWorld Hname Hstored).
Defined.

Lemma GameForm_onSubmit_keeps_names_distinct_witness :
  NoDup (map (fun g => toLowerCase (Game.name g)) (getGames (storage sampleWorld))) /\
  NoDup (map (fun g => toLowerCase (Game.name g))
             (getGames (storage (snd (GameForm.onSubmit unaryId (fun _ => 9%Z)
                                        " Go " None 24 1500 sampleWorld))))).
Proof.
  assert (Hnd : NoDup (map (fun g => toLowerCase (Game.name g))
                           (getGames (storage sampleWorld)))) by compute_done.
  split; [exact Hnd |].
  exact (GameForm_onSubmit_keeps_names_distinct unaryId (fun _ => 9%Z)
           " Go " None 24 1500 sampleWorld Hnd).
Defined.

Section GameUpdate.

Lemma insert_keeps_others {A : Type} (l : list A) i old new x :
  l !! i = Some old -> In x l -> x <> old -> In x (<[i := new]> l).
Proof.
  revert i. induction l as [| a l IH]; intros [| i] Hi Hx Hne;
    simpl in *; try discriminate; try contradiction.
  - injection Hi as ->. destruct Hx as [-> | Hx]; [contradiction | right; exact Hx].
  - destruct Hx as [-> | Hx]; [left; reflexivity | right; eapply IH; eauto].
Qed.

(** [updateGame]: for an id no stored game has it returns [null] and
    writes nothing; otherwise the first game of that id is replaced, in
    its place, by itself with the updates over it and the clock as
    [updatedAt], which is what is returned and what is then found under
    the id.  In both cases the ids and the creation dates of the games
    are as before, in the same order, every game of another id is still
    stored, and the players, the matches and the ratings are
    untouched. *)
Theorem updateGame_outcome now gameId updates st :
  let done := updateGame now gameId updates st in
  map Game.id (getGames (snd done)) = map Game.id (getGames st) /\
  map Game.createdAt (getGames (snd done)) = map Game.createdAt (getGames st) /\
  (forall g, In g (getGames st) -> Game.id g <> gameId ->
             In g (getGames (snd done))) /\
  players (snd done) = players st /\
  matches (snd done) = matches st /\
  eloRatings (snd done) = eloRatings st /\
  ((forall g, In g (getGames st) -> Game.id g <> gameId) -> done = (None, st)) /\
  (forall old,
     List.find (fun g => String.eqb (Game.id g) gameId) (getGames st) = Some old ->
     fst done = Some (updatedGame now old updates) /\
     List.find (fun g => String.eqb (Game.id g) gameId) (getGames (snd done))
       = Some (updatedGame now old updates) /\
     Game.updatedAt (updatedGame now old updates) = now).
Proof.
  intros done. subst done. unfold updateGame.
  destruct (findIndex _ (getGames st)) as [i |] eqn:Hindex.
  - destruct (findIndex_Some _ _ _ Hindex) as (old & Hi & Hid & Hfind).
    rewrite Hi. cbn [fst snd]. rewrite getGames_saveGames.
    apply String.eqb_eq in Hid.
    split; [apply (map_insert_same _ _ _ old); [exact Hi | reflexivity] |].
    split; [apply (map_insert_same _ _ _ old); [exact Hi | reflexivity] |].
    split.
    { intros g Hg Hne. apply (insert_keeps_others _ _ old); [exact Hi | exact Hg |].
      intros ->. contradiction. }
    split; [reflexivity |]. split; [reflexivity |]. split; [reflexivity |].
    split.
    { intros Hnone. exfalso. apply (Hnone old); [| exact Hid].
      apply find_some in Hfind. tauto. }
    intros old' Hold'. rewrite Hfind in Hold'. injection Hold' as <-.
    split.
    { rewrite list_lookup_insert_eq; [reflexivity |].
      apply lookup_lt_Some in Hi. exact Hi. }
    split; [| reflexivity].
    apply find_insert_found; [exact Hindex |].
    apply String.eqb_eq. exact Hid.
  - apply findIndex_None in Hindex. cbn [fst snd].
    do 7 (split; [auto |]).
    intros old Hold. rewrite Hindex in Hold. discriminate.
Qed.

End GameUpdate.

(* ================================================================= *)
(** ** A name that is not trimmed *)

Section UntrimmedName.
Local Open Scope string_scope.

(** In the model, that of the source on ASCII characters, putting in
    lower case keeps the length. *)
Lemma length_toLowerCase (s : string) :
  String.length (toLowerCase s) = String.length s.
Proof. induction s as [| a s IH]; simpl; [reflexivity | rewrite IH; reflexivity]. Qed.

Lemma length_append_string (s t : string) :
  String.length (s ++ t) = (String.length s + String.length t)%nat.
Proof.
  induction s as [| a s IH]; [reflexivity |].
  rewrite append_cons. simpl. rewrite IH. reflexivity.
Qed.

Lemma length_rev_string (s : string) : String.length (String.rev s) = String.length s.
Proof.
  induction s as [| a s IH]; [reflexivity |].
  rewrite rev_cons, length_append_string, IH. simpl. lia.
Qed.

Lemma length_trimStart (s : string) :
  (String.length (trimStart s) <= String.length s)%nat.
Proof.
  induction s as [| a s IH]; simpl; [lia |].
  destruct (isWhiteSpace a); simpl; lia.
Qed.

Lemma trimStart_same_length (s : string) :
  String.length (trimStart s) = String.length s -> trimStart s = s.
Proof.
  destruct s as [| a s]; simpl; [reflexivity |].
  destruct (isWhiteSpace a); [| reflexivity].
  pose proof (length_trimStart s). lia.
Qed.

Lemma length_trimEnd (s : string) :
  (String.length (trimEnd s) <= String.length s)%nat.
Proof.
  unfold trimEnd. rewrite length_rev_string, <- (length_rev_string s).
  apply length_trimStart.
Qed.

Lemma trimEnd_same_length (s : string) :
  String.length (trimEnd s) = String.length s -> trimEnd s = s.
Proof.
  unfold trimEnd. rewrite length_rev_string, <- (length_rev_string s).
  intros H. rewrite (trimStart_same_length _ H). apply rev_involutive.
Qed.

(** Trimming a string that is not trimmed makes it shorter. *)
Lemma trim_shorter (s : string) :
  trim s <> s -> (String.length (trim s) < String.length s)%nat.
Proof.
  intros Hne. unfold trim in *.
  pose proof (length_trimStart s) as Hstart.
  pose proof (length_trimEnd (trimStart s)) as Hend.
  destruct (Nat.eq_dec (String.length (trimEnd (trimStart s))) (String.length s))
    as [Heq | Hlt]; [| lia].
  exfalso. apply Hne.
  assert (Hs : trimStart s = s) by (apply trimStart_same_length; lia).
  rewrite Hs in *. apply trimEnd_same_length. exact Heq.
Qed.

Lemma lower_trim_differs (s : string) :
  trim s <> s -> toLowerCase (trim s) <> toLowerCase s.
Proof.
  intros Hne Heq. apply trim_shorter in Hne.
  apply (f_equal String.length) in Heq. rewrite !length_toLowerCase in Heq. lia.
Qed.

End UntrimmedName.

Section UntrimmedPlayer.

(** [addPlayer] looks the name up as it is given but stores it trimmed:
    a name of ASCII characters with outer white space that no stored
    player has (the stored names being of ASCII characters too) is
    added again at every call, as one more player of the same stored
    name, and is still not found under the name given. *)
Theorem addPlayer_untrimmed_twice id1 id2 now1 now2 name st :
  isAscii name = true ->
  Forall (fun p => isAscii (Player.name p) = true) (getPlayers st) ->
  trim name <> name ->
  getPlayerByName name st = None ->
  let first := addPlayer id1 now1 name st in
  let second := addPlayer id2 now2 name (snd first) in
  getPlayers (snd second) = (getPlayers st ++ [fst first]) ++ [fst second] /\
  fst first = Player.mk id1 (trim name) now1 /\
  fst second = Player.mk id2 (trim name) now2 /\
  getPlayerByName name (snd second) = None.
Proof.
  intros _ _ Htrim Hnone first second.
  assert (Hmiss : forall id now,
            String.eqb (toLowerCase (Player.name (Player.mk id (trim name) now)))
                       (toLowerCase name) = false).
  { intros id now. apply String.eqb_neq. cbn [Player.name].
    apply lower_trim_differs. exact Htrim. }
  unfold getPlayerByName in Hnone.
  assert (Hfirst : first = (Player.mk id1 (trim name) now1,
                            savePlayers (getPlayers st ++ [Player.mk id1 (trim name) now1])
                                        st)).
  { subst first. unfold addPlayer. rewrite Hnone. reflexivity. }
  assert (Hnone1 : findPlayerByName (getPlayers (snd first)) name = None).
  { rewrite Hfirst. cbn [snd]. rewrite getPlayers_savePlayers.
    unfold findPlayerByName in *. rewrite find_snoc, Hnone.
    rewrite Hmiss. reflexivity. }
  assert (Hsecond : second = (Player.mk id2 (trim name) now2,
                              savePlayers (getPlayers (snd first)
                                           ++ [Player.mk id2 (trim name) now2])
                                          (snd first))).
  { subst second. unfold addPlayer. rewrite Hnone1. reflexivity. }
  rewrite Hsecond. cbn [fst snd]. rewrite getPlayers_savePlayers.
  rewrite Hfirst. cbn [fst snd]. rewrite getPlayers_savePlayers.
  split; [reflexivity |]. split; [reflexivity |]. split; [reflexivity |].
  unfold getPlayerByName. rewrite getPlayers_savePlayers.
  rewrite Hfirst in Hnone1. cbn [snd] in Hnone1.
  rewrite getPlayers_savePlayers in Hnone1.
  unfold findPlayerByName in *. rewrite find_snoc, Hnone1, Hmiss. reflexivity.
Qed.

Lemma addPlayer_untrimmed_twice_witness :
  isAscii " Cid" = true /\
  Forall (fun p => isAscii (Player.name p) = true) (getPlayers sampleStorage) /\
  trim " Cid" <> " Cid" /\
  getPlayerByName " Cid" sampleStorage = None /\
  let first := addPlayer "x1" 5%Z " Cid" sampleStorage in
  let second := addPlayer "x2" 6%Z " Cid" (snd first) in
  getPlayers (snd second)
    = (getPlayers sampleStorage ++ [fst first]) ++ [fst second] /\
  fst first = Player.mk "x1" (trim " Cid") 5%Z /\
  fst second = Player.mk "x2" (trim " Cid") 6%Z /\
  getPlayerByName " Cid" (snd second) = None.
Proof.
  assert (Hname : isAscii " Cid" = true) by reflexivity.
  assert (Hstored : Forall (fun p => isAscii (Player.name p) = true)
                           (getPlayers sampleStorage))
    by (repeat constructor).
  assert (Htrim : trim " Cid" <> " Cid") by (vm_compute; discriminate).
  assert (Hnone : getPlayerByName " Cid" sampleStorage = None) by reflexivity.
  split; [exact Hname |]. split; [exact Hstored |].
  split; [exact Htrim |]. split; [exact Hnone |].
  exact (addPlayer_untrimmed_twice "x1" "x2" 5%Z 6%Z " Cid" sampleStorage
           Hname Hstored Htrim Hnone).
Defined.

End UntrimmedPlayer.

(* ================================================================= *)
(** ** Percentages *)

Section Percentage.
Local Open Scope R_scope.

(** The percentage of a part in a total is a whole number between 0
    and 100, 100 for the whole; a total of 0 gives 0 and no division. *)
Theorem calculatePercentage_range (value total : R) :
  0 <= value <= total ->
  0 <= calculatePercentage value total <= 100 /\
  (exists z : Z, calculatePercentage value total = IZR z) /\
  (total = 0 -> calculatePercentage value total = 0) /\
  (total <> 0 -> calculatePercentage total total = 100).
Proof.
  intros [Hlo Hhi]. unfold calculatePercentage.
  destruct (Req_dec_T total 0) as [Hzero | Hne].
  - split; [lra |]. split; [exists 0%Z; reflexivity |].
    split; [reflexivity | intros H; contradiction].
  - assert (Hpos : 0 < total) by lra.
    set (q := value / total).
    assert (Hq : q * total = value) by (unfold q; field; lra).
    assert (0 <= q) by (apply Rmult_le_reg_r with total; lra).
    assert (q <= 1) by (apply Rmult_le_reg_r with total; lra).
    split.
    { split.
      - apply Rle_trans with (Math_round 0);
          [rewrite Math_round_0; lra | apply Math_round_le; lra].
      - apply Rle_trans with (Math_round 100);
          [apply Math_round_le; lra | rewrite (Math_round_IZR 100); lra]. }
    split; [apply Math_round_is_integer |].
    split; [intros H'; contradiction |].
    intros _. replace (total / total * 100) with (IZR 100) by (field; lra).
    apply Math_round_IZR.
Qed.

Lemma calculatePercentage_range_witness :
  0 <= 1 <= 3 /\
  0 <= calculatePercentage 1 3 <= 100 /\
  (exists z : Z, calculatePercentage 1 3 = IZR z) /\
  (3 = 0 -> calculatePercentage 1 3 = 0) /\
  (3 <> 0 -> calculatePercentage 3 3 = 100).
Proof.
  assert (H : 0 <= 1 <= 3) by lra.
  split; [exact H |].
  exact (calculatePercentage_range 1 3 H).
Defined.

End Percentage.

(* ================================================================= *)
(** ** The position proposed for an added player *)

Section ProposedPosition.
Local Open Scope Z_scope.

Lemma fold_max_in l acc : In (fold_left Z.max l acc) (acc :: l).
Proof.
  revert acc. induction l as [| x l IH]; intros acc; [left; reflexivity |].
  cbn [fold_left]. destruct (IH (Z.max acc x)) as [H | H].
  - destruct (Z.max_spec acc x) as [[_ Hm] | [_ Hm]]; rewrite Hm in *.
    + right. left. exact H.
    + left. exact H.
  - right. right. exact H.
Qed.

(** [Math.max(...positions)] of positions that are there: one of them,
    and none is higher. *)
Lemma Math_max_spread_highest l :
  l <> [] ->
  exists top, Math_max_spread l = MaxOf top /\ In top l /\
              forall q, In q l -> q <= top.
Proof.
  destruct l as [| x l]; [congruence |]. intros _.
  exists (fold_left Z.max l x).
  unfold Math_max_spread. simpl fold_left. rewrite Math_max_spread_from.
  split; [reflexivity |]. split; [apply fold_max_in |].
  intros q [<- | Hq]; [apply fold_max_start | apply fold_max_bound; exact Hq].
Qed.

Lemma rankedWithin_snoc l x lo hi :
  rankedWithin (l ++ [x]) lo hi
  = rankedWithin l lo hi + (if (lo <=? x) && (x <? hi) then 1 else 0).
Proof.
  unfold rankedWithin. rewrite List.filter_app, length_app. simpl.
  destruct ((lo <=? x) && (x <? hi)); simpl; lia.
Qed.

Lemma rankedWithin_upper l lo hi :
  lo <= hi ->
  rankedWithin l lo (hi + 1) = rankedWithin l lo hi + occurrences l hi.
Proof.
  intros Hle. induction l as [| q l IH]; [reflexivity |].
  rewrite occurrences_cons. unfold rankedWithin in *. simpl.
  destruct (decide (q = hi)), (Z.leb_spec lo q), (Z.ltb_spec q hi),
           (Z.ltb_spec q (hi + 1)); simpl length; lia.
Qed.

(** What passing the validator says of the positions. *)
Lemma valid_positions playerResults :
  isValid (validateMatchResults playerResults) = true ->
  validPositions playerResults = true /\
  startsElsewhere playerResults = false /\
  hasGap (map Entry.position playerResults) = false.
Proof.
  intros Hvalid.
  rewrite validateMatchResults_isValid, validateMatchResults_errors in Hvalid.
  apply Nat.eqb_eq, length_zero_iff_nil in Hvalid.
  do 3 (apply app_eq_nil in Hvalid; destruct Hvalid as [_ Hvalid]).
  apply app_eq_nil in Hvalid. destruct Hvalid as [Hrange Hvalid].
  apply app_eq_nil in Hvalid. destruct Hvalid as [Hstart Hgap].
  destruct (validPositions playerResults); [| discriminate Hrange].
  destruct (startsElsewhere playerResults); [discriminate Hstart |].
  destruct (hasGap (map Entry.position playerResults)); [discriminate Hgap |].
  auto.
Qed.

(** In a ranking that passes the validator, [addPlayer] of the match
    form proposes the position after the highest one.  Whatever name is
    then typed, that position is within the range and the ranking still
    starts at 1; but the ranking is contiguous only when the highest
    position was held by one entry: after a shared last place the
    proposed position is reported as a jump. *)
Theorem addPlayer_after_shared_last_place playerResults name :
  isValid (validateMatchResults playerResults) = true ->
  exists top,
    MatchForm.addPlayer playerResults = Some (Entry.mk "" (top + 1)) /\
    In top (map Entry.position playerResults) /\
    (forall q, In q (map Entry.position playerResults) -> q <= top) /\
    let extended := playerResults ++ [Entry.mk name (top + 1)] in
    ~ In errPositionRange (errors (validateMatchResults extended)) /\
    ~ In errStartFromOne (errors (validateMatchResults extended)) /\
    (In errNotContiguous (errors (validateMatchResults extended)) <->
     1 < occurrences (map Entry.position playerResults) top).
Proof.
  intros Hvalid.
  destruct (valid_submission playerResults Hvalid) as [Hlen _].
  destruct (valid_positions playerResults Hvalid) as (Hrange & Hstart & Hgap).
  rewrite validPositions_true_iff in Hrange.
  rewrite startsElsewhere_false_iff in Hstart.
  rewrite hasGap_false_iff in Hgap.
  set (l := map Entry.position playerResults) in *.
  assert (Hne : l <> []).
  { unfold l. destruct playerResults; [simpl in Hlen; lia | discriminate]. }
  destruct (Math_max_spread_highest l Hne) as (top & Hmax & Htop & Hbound).
  assert (Hin : forall q, In q l ->
            (1 <= q <= Z.of_nat (length playerResults))%Z).
  { intros q Hq. unfold l in Hq. apply in_map_iff in Hq.
    destruct Hq as (e & <- & He). apply Hrange. exact He. }
  exists top. unfold MatchForm.addPlayer. fold l. rewrite Hmax.
  split; [reflexivity |]. split; [exact Htop |]. split; [exact Hbound |].
  set (extended := playerResults ++ [Entry.mk name (top + 1)]).
  assert (Hpositions : map Entry.position extended = l ++ [top + 1])
    by (unfold extended; rewrite map_app; reflexivity).
  assert (Hextlen : length extended = S (length playerResults))
    by (unfold extended; rewrite length_app; simpl; lia).
  pose proof (reported_iff_failed
                (length extended <? 2)%nat (hasDuplicateName extended)
                (hasEmptyName extended) (negb (validPositions extended))
                (startsElsewhere extended)
                (hasGap (map Entry.position extended)))
    as (_ & _ & _ & Hr4 & Hr5 & Hr6).
  cbv zeta in Hr4, Hr5, Hr6.
  rewrite <- validateMatchResults_errors in Hr4, Hr5, Hr6.
  rewrite Hr4, Hr5, Hr6. clear Hr4 Hr5 Hr6.
  pose proof (Hin top Htop) as Htoprange.
  split; [| split].
  - assert (Hok : validPositions extended = true).
    { apply validPositions_true_iff. intros e He. rewrite Hextlen.
      unfold extended in He. apply in_app_or in He.
      destruct He as [He | [<- | []]].
      - specialize (Hrange e He). lia.
      - cbn [Entry.position]. lia. }
    rewrite Hok. discriminate.
  - assert (Hok : startsElsewhere extended = false).
    { apply startsElsewhere_false_iff. destruct Hstart as [(e & He & He1) Hall].
      split.
      - exists e. split; [unfold extended; apply in_or_app; auto | exact He1].
      - intros e' He'. unfold extended in He'. apply in_app_or in He'.
        destruct He' as [He' | [<- | []]]; [apply Hall; exact He' |].
        cbn [Entry.position]. lia. }
    rewrite Hok. discriminate.
  - rewrite hasGap_true_iff, Hpositions.
    assert (Htopcount : rankedWithin (l ++ [top + 1]) 1 (top + 1)
                        = top - 1 + occurrences l top).
    { rewrite rankedWithin_snoc, rankedWithin_upper by lia.
      pose proof (Hgap top Htop) as Hattop.
      destruct (Z.leb_spec 1 (top + 1)), (Z.ltb_spec (top + 1) (top + 1));
        simpl; lia. }
    split.
    + intros (p & Hp & Hp1 & Hjump). apply in_app_or in Hp.
      destruct Hp as [Hp | [<- | []]].
      * exfalso. apply Hjump. rewrite rankedWithin_snoc.
        specialize (Hbound p Hp). pose proof (Hgap p Hp Hp1) as Hatp.
        destruct (Z.leb_spec 1 (top + 1)), (Z.ltb_spec (top + 1) p);
          simpl; lia.
      * rewrite Htopcount in Hjump.
        assert (0 < occurrences l top) by (apply occurrences_pos_iff; exact Htop).
        lia.
    + intros Hshared. exists (top + 1).
      split; [apply in_or_app; right; left; reflexivity |].
      split; [lia |]. rewrite Htopcount. lia.
Qed.

End ProposedPosition.

Lemma addPlayer_after_shared_last_place_witness :
  isValid (validateMatchResults
             [Entry.mk "Ann" 1; Entry.mk "Bob" 2; Entry.mk "Cy" 2]%Z) = true /\
  exists top : Z,
    MatchForm.addPlayer [Entry.mk "Ann" 1; Entry.mk "Bob" 2; Entry.mk "Cy" 2]%Z
      = Some (Entry.mk "" (top + 1)%Z) /\
    In top (map Entry.position
                [Entry.mk "Ann" 1; Entry.mk "Bob" 2; Entry.mk "Cy" 2]%Z) /\
    (forall q, In q (map Entry.position
                         [Entry.mk "Ann" 1; Entry.mk "Bob" 2; Entry.mk "Cy" 2]%Z) ->
               (q <= top)%Z) /\
    let extended :=
      [Entry.mk "Ann" 1; Entry.mk "Bob" 2; Entry.mk "Cy" 2]%Z
        ++ [Entry.mk "Dee" (top + 1)%Z] in
    ~ In errPositionRange (errors (validateMatchResults extended)) /\
    ~ In errStartFromOne (errors (validateMatchResults extended)) /\
    (In errNotContiguous (errors (validateMatchResults extended)) <->
     (1 < occurrences (map Entry.position
                           [Entry.mk "Ann" 1; Entry.mk "Bob" 2; Entry.mk "Cy" 2]%Z)
                      top)%Z).
Proof.
  assert (Hvalid : isValid (validateMatchResults
                     [Entry.mk "Ann" 1; Entry.mk "Bob" 2; Entry.mk "Cy" 2]%Z) = true)
    by (vm_compute; reflexivity).
  split; [exact Hvalid |].
  exact (addPlayer_after_shared_last_place
           [Entry.mk "Ann" 1; Entry.mk "Bob" 2; Entry.mk "Cy" 2]%Z "Dee" Hvalid).
Defined.
